(** * Race simulation engine of [f1_lstm_strategy_sim.py]

    A shallow embedding of [LSTMSimulator.simulate], of the sequence builder
    [SeqPreprocessor.build_single_inputs] it reaches through
    [LSTMLapTimeModel.predict_sequence], and of
    [LSTMLapTimeModel._estimate_pit_loss]; and, from the data preparation,
    of [find_col], of the vocabulary [SeqPreprocessor._build_index] with its
    lookup [SeqPreprocessor._idx], and of the loop of [load_and_prepare] that
    derives the tyre age.

    Conventions.
    - Python [float]s that the engine computes with (lap times, totals, pit
      loss) are exact rationals [Q]; rounding is not modelled.  Where the
      code inspects a value for NaN or infinity (feature values, data cells)
      these are values of their own.
    - Python [dict]s are [gmap]s; the feature step handed to the predictor is
      the open-ended [Dict[str, Any]] the source builds, a [gmap string value].
    - The trained network and the categorical / numeric encoders of the
      preprocessor are parameters of the engine; the encoders may raise, as
      [SeqPreprocessor._idx] and [SeqPreprocessor._num] do. *)

From Stdlib Require Import ZArith QArith Qminmax Lia Lqa.
From Stdlib Require OrderedTypeEx.
From stdpp Require Import base option list gmap strings fin_maps sorting.

Local Open Scope string_scope.
Local Open Scope Z_scope.
Local Open Scope list_scope.

(** ** Python values stored in feature dictionaries *)

(** [VFloat] is a finite float, [VNaN] is [float('nan')], [VInf false]
    and [VInf true] are plus and minus infinity. *)
Inductive value :=
| VNone
| VBool (b : bool)
| VInt (z : Z)
| VFloat (q : Q)
| VNaN
| VInf (negative : bool)
| VStr (s : string).

(** Python truthiness, [bool(v)]. *)
Definition truthy (v : value) : bool :=
  match v with
  | VNone => false
  | VBool b => b
  | VInt z => negb (z =? 0)
  | VFloat q => negb (Qeq_bool q 0)
  | VNaN => true
  | VInf _ => true
  | VStr s => negb (String.eqb s "")
  end.

(** The number a numeric value stands for. *)
Definition num_of (v : value) : option Q :=
  match v with
  | VBool b => Some (if b then 1 else 0)%Q
  | VInt z => Some (inject_Z z)
  | VFloat q => Some q
  | _ => None
  end.

(** Python's [a == b] on these values: NaN equals nothing, itself included;
    numbers are compared by value across [bool], [int] and [float]. *)
Definition py_eq (a b : value) : bool :=
  match a, b with
  | VNaN, _ | _, VNaN => false
  | VNone, VNone => true
  | VStr s, VStr t => String.eqb s t
  | VInf x, VInf y => Bool.eqb x y
  | _, _ =>
      match num_of a, num_of b with
      | Some x, Some y => Qeq_bool x y
      | _, _ => false
      end
  end.

(** ** Exceptions *)

Inductive exn :=
| IndexError | KeyError | ValueError | TypeError | ZeroDivisionError.

Inductive outcome (A : Type) :=
| Done (x : A)
| Raise (e : exn).
Arguments Done {A} x.
Arguments Raise {A} e.

Definition bind {A B} (m : outcome A) (k : A → outcome B) : outcome B :=
  match m with
  | Done x => k x
  | Raise e => Raise e
  end.

Notation "x ←! m ; k" := (bind m (λ x, k))
  (at level 20, m at level 100, k at level 200, right associativity,
   format "x  ←!  m ;  '/' k").

(** A list comprehension [[f(x) for x in l]] whose body may raise: the
    elements are computed in order and the first exception ends it. *)
Fixpoint traverse {A B} (f : A → outcome B) (l : list A) : outcome (list B) :=
  match l with
  | [] => Done []
  | x :: l' => y ←! f x; ys ←! traverse f l'; Done (y :: ys)
  end.

(** The value of a computation that returned, [d] if it raised. *)
Definition value_or {A} (d : A) (m : outcome A) : A :=
  match m with
  | Done x => x
  | Raise _ => d
  end.

(** ** Python slices and indexing *)

(** [l[-n:]] for [n >= 0].  Note that [l[-0:]] is the whole list. *)
Definition py_last (n : nat) {A} (l : list A) : list A :=
  match n with
  | O => l
  | _ => drop (length l - n) l
  end.

(** [a[i]] on an array, for [i >= 0]. *)
Definition py_index {A} (a : list A) (i : nat) : outcome A :=
  match a !! i with
  | Some x => Done x
  | None => Raise IndexError
  end.

(** ** Configuration records *)

Record DriverSpec := {
  name : string;
  team : string;
  grid : Z;
  start_compound : string;
}.

Record PitEvent := {
  lap : Z;
  compound : string;
}.

Record RaceConfig := {
  circuit : string;
  total_laps : Z;
  drivers : list DriverSpec;
  strategy : gmap string (list PitEvent);
  safety_cars : list (Z * Z);
  dnfs : list (string * Z);
  weather_by_lap : gmap Z (gmap string value);
  default_weather : gmap string value;
  default_pit_loss : Q;
}.

(** ** Run-time state *)

(** The per-driver dictionary [state[name]]. *)
Record DriverState := {
  st_team : string;
  st_compound : string;
  st_tyre_age : Z;
  st_total_time : Q;
  st_grid : Z;
  st_running : bool;
}.

Definition set_running (b : bool) (s : DriverState) : DriverState :=
  {| st_team := st_team s; st_compound := st_compound s;
     st_tyre_age := st_tyre_age s; st_total_time := st_total_time s;
     st_grid := st_grid s; st_running := b |}.

Definition add_total_time (t : Q) (s : DriverState) : DriverState :=
  {| st_team := st_team s; st_compound := st_compound s;
     st_tyre_age := st_tyre_age s;
     st_total_time := (st_total_time s + t)%Q;
     st_grid := st_grid s; st_running := st_running s |}.

Definition set_tyres (c : string) (age : Z) (s : DriverState) : DriverState :=
  {| st_team := st_team s; st_compound := c;
     st_tyre_age := age; st_total_time := st_total_time s;
     st_grid := st_grid s; st_running := st_running s |}.

(** One element of [timeline]. *)
Record TimelineEntry := {
  tl_lap : Z;
  tl_order : list string;
  tl_lap_times : gmap string Q;
  tl_is_sc : bool;
}.

Inductive status := Finished | DNF.

(** One row of [classification]. *)
Record ClassRow := {
  cr_pos : option Z;
  cr_driver : string;
  cr_team : string;
  cr_total_time : Q;
  cr_status : status;
}.

Record SimResult := {
  classification : list ClassRow;
  timeline : list TimelineEntry;
  pit_loss_used : Q;
}.

(** The local variables of [simulate] that live across laps. *)
Record Sim := {
  sim_state : gmap string DriverState;
  sim_history : gmap string (list (gmap string value));
  sim_order : list string;
  sim_timeline : list TimelineEntry;
}.

(** ** Stable sort, as Python's [sorted(xs, key=...)] *)

Definition Qltb (x y : Q) : bool := negb (Qle_bool y x).

Section sorted.
Context {A K : Type} (ltb : K → K → bool) (key : A → K).

(** Insert [x] in front of the first element whose key is not smaller:
    an element that came earlier stays in front of its equals. *)
Fixpoint insert_by (x : A) (l : list A) : list A :=
  match l with
  | [] => [x]
  | y :: l' => if ltb (key y) (key x) then y :: insert_by x l'
               else x :: y :: l'
  end.

Fixpoint sorted (l : list A) : list A :=
  match l with
  | [] => []
  | x :: l' => insert_by x (sorted l')
  end.
End sorted.

(** ** Sequence inputs of the network *)

Record Inputs := {
  driver_seq : list Z;
  team_seq : list Z;
  circuit_seq : list Z;
  compound_seq : list Z;
  num_seq : list (list Q);
}.

(** [step.get(key, None)] *)
Definition get_val (step : gmap string value) (key : string) : value :=
  default VNone (step !! key).

(** ** Pit-loss estimator *)

(** One row of the prepared lap table: the circuit column, the lap-time
    column and the derived [pit_this_lap] flag.  [load_and_prepare] keeps
    only rows with [25 < lap_time < 300], so no lap time is missing. *)
Record LapRow := {
  row_circuit : string;
  row_lap_time : Q;
  row_pit_this_lap : bool;
}.

(** [Series.median()]: the middle value of the sorted values, the mean of the
    two middle values when their number is even, NaN ([None]) when empty. *)
Definition median (xs : list Q) : option Q :=
  let s := sorted Qltb id xs in
  let n := length s in
  match n with
  | O => None
  | _ => if Nat.odd n then s !! (n / 2)%nat
         else a ← s !! (n / 2 - 1)%nat; b ← s !! (n / 2)%nat;
              Some ((a + b) / 2)%Q
  end.

(** The median as the specification words it: arrange the values in
    ascending order; the median is the middle one, or the mean of the two
    middle ones when their number is even; no values, no median. *)
Definition is_median (xs : list Q) (m : Q) : Prop :=
  ∃ s, s ≡ₚ xs ∧ StronglySorted Qle s ∧
    if Nat.odd (length s) then s !! (length s / 2)%nat = Some m
    else ∃ a b, s !! (length s / 2 - 1)%nat = Some a
                ∧ s !! (length s / 2)%nat = Some b
                ∧ m = ((a + b) / 2)%Q.

(** The rows of one [groupby] group. *)
Definition group_rows (circ : string) (df : list LapRow) : list LapRow :=
  filter (λ r, row_circuit r = circ) df.

Definition base_times (g : list LapRow) : list Q :=
  map row_lap_time (filter (λ r, row_pit_this_lap r = false) g).

Definition pit_times (g : list LapRow) : list Q :=
  map row_lap_time (filter (λ r, row_pit_this_lap r = true) g).

(** [(pits[lt_col] - med_base).median()], NaN when a median is. *)
Definition circuit_loss (g : list LapRow) : option Q :=
  med_base ← median (base_times g);
  median (map (λ t, t - med_base)%Q (pit_times g)).

(** What the loop body decides for one group: nothing when the group has
    no non-pit lap or no pit lap ([continue]), nothing when the loss is NaN or
    outside the band, the loss otherwise. *)
Definition kept_loss (g : list LapRow) : option Q :=
  match base_times g, pit_times g with
  | [], _ | _, [] => None
  | _, _ =>
      match circuit_loss g with
      | Some loss => if Qltb 5 loss && Qltb loss 60 then Some loss else None
      | None => None
      end
  end.

(** Body of the loop over the groups. *)
Definition estimate_group (df : list LapRow) (pit_loss : gmap string Q)
    (circ : string) : gmap string Q :=
  match kept_loss (group_rows circ df) with
  | Some loss => <[circ := loss]> pit_loss
  | None => pit_loss
  end.

(** [LSTMLapTimeModel._estimate_pit_loss]; [circ_col] tells whether the
    mapping has a circuit column. *)
Definition _estimate_pit_loss (circ_col : bool) (df : list LapRow)
  : gmap string Q :=
  if circ_col then
    foldl (estimate_group df) ∅ (remove_dups (map row_circuit df))
  else ∅.

(** ** Column lookup *)

Section find_col.
(** [str.lower] *)
Variable lower : string → string.

(** [for k in keys: if k in cols: return k] *)
Fixpoint first_exact (cols : gset string) (keys : list string) : option string :=
  match keys with
  | [] => None
  | k :: rest => if bool_decide (k ∈ cols) then Some k else first_exact cols rest
  end.

(** [{c.lower(): c for c in df.columns}]: a later column replaces an earlier
    one with the same lower-case form. *)
Definition low_index (columns : list string) : gmap string string :=
  foldl (λ low c, <[lower c := c]> low) ∅ columns.

(** [for k in keys: if k.lower() in low: return low[k.lower()]] *)
Fixpoint first_low (low : gmap string string) (keys : list string)
  : option string :=
  match keys with
  | [] => None
  | k :: rest =>
      match low !! lower k with
      | Some c => Some c
      | None => first_low low rest
      end
  end.

(** [find_col df keys], with [columns] the labels [df.columns]. *)
Definition find_col (columns keys : list string) : option string :=
  let cols : gset string := list_to_set columns in
  match first_exact cols keys with
  | Some k => Some k
  | None => first_low (low_index columns) keys
  end.
End find_col.

(** ** Vocabulary of a categorical column *)

Module SeqPreprocessor.

(** [pd.unique(values)]: the distinct values in order of first appearance. *)
Fixpoint unique_from (seen : gset string) (values : list string) : list string :=
  match values with
  | [] => []
  | v :: rest =>
      if bool_decide (v ∈ seen) then unique_from seen rest
      else v :: unique_from ({[ v ]} ∪ seen) rest
  end.

Definition pd_unique (values : list string) : list string :=
  unique_from ∅ values.

(** [enumerate(uniq)], counting from [i]. *)
Fixpoint enumerate_from {A} (i : Z) (l : list A) : list (Z * A) :=
  match l with
  | [] => []
  | x :: rest => (i, x) :: enumerate_from (i + 1) rest
  end.

(** [SeqPreprocessor._build_index]; the values are strings ([fit] passes
    [df[col].astype(str).tolist()]), sorted as Python sorts [str]. *)
Definition _build_index (values : list string) : gmap string Z :=
  let uniq := ["<PAD>"; "<UNK>"]
              ++ sorted Stdlib.Strings.String.ltb id (pd_unique values) in
  foldl (λ m '(i, v), <[v := i]> m) ∅ (enumerate_from 0 uniq).

(** [SeqPreprocessor._idx]; [py_str] is Python's [str]. *)
Definition _idx (py_str : value → string)
    (cat_maps : gmap string (gmap string Z)) (key : string) (val : value)
  : outcome Z :=
  m ←! match cat_maps !! key with Some m => Done m | None => Raise KeyError end;
  match val with
  | VNone | VNaN => Done 1
  | _ => let s := py_str val in Done (default 1 (m !! s))
  end.

(** [SeqPreprocessor._num]; [py_float] is Python's [float] on a [str], which
    raises [ValueError] on text that is not a number (text that spells a NaN
    or an infinity is not modelled). *)
Definition _num (py_float : string → outcome Q)
    (numeric_means numeric_stds : gmap string Q) (key : string) (val : value)
  : outcome Q :=
  let col_mean := default 0%Q (numeric_means !! key) in
  let col_std := default 1%Q (numeric_stds !! key) in
  x ←! match val with
       | VNone | VNaN | VInf _ => Done col_mean
       | VBool b => Done (if b then 1 else 0)%Q
       | VInt z => Done (inject_Z z)
       | VFloat q => Done q
       | VStr s => py_float s
       end;
  if Qeq_bool col_std 0 then Raise ZeroDivisionError
  else Done ((x - col_mean) / col_std)%Q.

End SeqPreprocessor.

(** ** Derived tyre age *)

(** The loop of [load_and_prepare] that fills [tyre_age_auto]: a row is its
    key [(driver, circuit)], two strings, and its compound cell: [VNone] when
    the mapping has no compound column, else the cell of that column, which
    is [VNaN] when the cell is empty.  The test [last_cmpd[key] != cmpd] is
    Python's, so an empty cell differs from every cell, itself included. *)
Definition age_step (acc : list Z * gmap (string * string) value)
    (r : (string * string) * value)
  : list Z * gmap (string * string) value :=
  let '(ages, last_cmpd) := acc in
  let '(key, cmpd) := r in
  match last_cmpd !! key with
  | Some c =>
      if py_eq c cmpd
      then (ages ++ [default 0 (last ages) + 1], last_cmpd)
      else (ages ++ [0], <[key := cmpd]> last_cmpd)
  | None => (ages ++ [0], <[key := cmpd]> last_cmpd)
  end.

Definition derive_tyre_age (rows : list ((string * string) * value))
  : list Z :=
  fst (foldl age_step ([], ∅) rows).

(** ** Scenarios *)

(** A network stub that predicts [q] seconds at each of its [ml] positions. *)
Definition const_predict (ml : nat) (q : Q) : Inputs → list Q :=
  λ _, replicate ml q.

(** Encoder stubs. *)
Definition idx_stub : string → value → outcome Z := λ _ _, Done 1.
Definition num_stub : string → value → outcome Q := λ _ _, Done 0%Q.

Definition driver_A : DriverSpec :=
  {| name := "A"; team := "Red"; grid := 1; start_compound := "SOFT" |}.
Definition driver_B : DriverSpec :=
  {| name := "B"; team := "Blue"; grid := 2; start_compound := "MEDIUM" |}.

(** Three laps, A pits on lap 2 for hard tyres, B retires on lap 2, the
    safety car is out on lap 2. *)
Definition race3 : RaceConfig :=
  {| circuit := "Monza"; total_laps := 3;
     drivers := [driver_A; driver_B];
     strategy := {[ "A" := [ {| lap := 2; compound := "HARD" |} ] ]};
     safety_cars := [(2, 2)];
     dnfs := [("B", 2)];
     weather_by_lap := ∅; default_weather := ∅;
     default_pit_loss := 22 |}.

(** A stand-in for Python's [str] that is right on text, and one for
    [float] on text that is no number. *)
Definition str_stub : value → string :=
  λ v, match v with VStr s => s | _ => "None" end.
Definition float_stub : string → outcome Q := λ _, Raise ValueError.

(** The vocabularies of a preprocessor fitted on the drivers, teams,
    circuit and compounds of the scenarios. *)
Definition fitted_cats : gmap string (gmap string Z) :=
  {[ "driver" := SeqPreprocessor._build_index ["A"; "B"];
     "team" := SeqPreprocessor._build_index ["Red"; "Blue"];
     "circuit" := SeqPreprocessor._build_index ["Monza"; "Spa"];
     "compound" := SeqPreprocessor._build_index ["SOFT"; "MEDIUM"; "HARD"] ]}.

(** Means and standard deviations of a preprocessor fitted on lap number
    and tyre age. *)
Definition fitted_means : gmap string Q :=
  {[ "lap_number" := 2%Q; "tyre_age" := 1%Q ]}.
Definition fitted_stds : gmap string Q :=
  {[ "lap_number" := 1%Q; "tyre_age" := (1 # 2)%Q ]}.

(** One lap at Monza with an air temperature that is text. *)
Definition race_hot : RaceConfig :=
  {| circuit := "Monza"; total_laps := 1;
     drivers := [driver_A];
     strategy := ∅; safety_cars := []; dnfs := [];
     weather_by_lap := ∅;
     default_weather := {[ "air_temp" := VStr "hot" ]};
     default_pit_loss := 22 |}.

(** The same race with a retirement entry for a driver nobody entered. *)
Definition race3_ghost : RaceConfig :=
  {| circuit := "Monza"; total_laps := 3;
     drivers := [driver_A; driver_B];
     strategy := {[ "A" := [ {| lap := 2; compound := "HARD" |} ] ]};
     safety_cars := [(2, 2)];
     dnfs := [("B", 2); ("Ghost", 1)];
     weather_by_lap := ∅; default_weather := ∅;
     default_pit_loss := 22 |}.

(** One lap, A pits on it, and the caller passes a negative pit loss. *)
Definition race_negative_pit_loss : RaceConfig :=
  {| circuit := "Monza"; total_laps := 1;
     drivers := [driver_A];
     strategy := {[ "A" := [ {| lap := 1; compound := "HARD" |} ] ]};
     safety_cars := []; dnfs := [];
     weather_by_lap := ∅; default_weather := ∅;
     default_pit_loss := -100 |}.

(** Two drivers on the same grid position, and a pit event at lap 9 of a
    one-lap race. *)
Definition race_bad_grid : RaceConfig :=
  {| circuit := "Monza"; total_laps := 1;
     drivers := [ {| name := "A"; team := "Red"; grid := 1;
                     start_compound := "SOFT" |};
                  {| name := "B"; team := "Blue"; grid := 1;
                     start_compound := "SOFT" |} ];
     strategy := {[ "A" := [ {| lap := 9; compound := "HARD" |} ] ]};
     safety_cars := []; dnfs := [];
     weather_by_lap := ∅; default_weather := ∅;
     default_pit_loss := 22 |}.

(** No lap at all. *)
Definition race_zero_laps : RaceConfig :=
  {| circuit := "Monza"; total_laps := 0;
     drivers := [driver_A; driver_B];
     strategy := ∅; safety_cars := []; dnfs := [];
     weather_by_lap := ∅; default_weather := ∅;
     default_pit_loss := 22 |}.

(** No laps, and the roster lists B (grid 2) before A (grid 1). *)
Definition race_zero_laps_b_first : RaceConfig :=
  {| circuit := "Monza"; total_laps := 0;
     drivers := [driver_B; driver_A];
     strategy := ∅; safety_cars := []; dnfs := [];
     weather_by_lap := ∅; default_weather := ∅;
     default_pit_loss := 22 |}.

(** Lap records of two circuits: at Monza the pit laps are about 20 s slower
    than the median lap, at Spa 70 s. *)
Definition demo_laps : list LapRow :=
  [ {| row_circuit := "Monza"; row_lap_time := 80; row_pit_this_lap := false |};
    {| row_circuit := "Monza"; row_lap_time := 82; row_pit_this_lap := false |};
    {| row_circuit := "Monza"; row_lap_time := 81; row_pit_this_lap := false |};
    {| row_circuit := "Monza"; row_lap_time := 100; row_pit_this_lap := true |};
    {| row_circuit := "Monza"; row_lap_time := 103; row_pit_this_lap := true |};
    {| row_circuit := "Monza"; row_lap_time := 101; row_pit_this_lap := true |};
    {| row_circuit := "Spa"; row_lap_time := 110; row_pit_this_lap := false |};
    {| row_circuit := "Spa"; row_lap_time := 180; row_pit_this_lap := true |} ].

(** A race at Spa, for which [demo_laps] yields no estimate. *)
Definition race_spa : RaceConfig :=
  {| circuit := "Spa"; total_laps := 2;
     drivers := [driver_A];
     strategy := {[ "A" := [ {| lap := 1; compound := "HARD" |} ] ]};
     safety_cars := []; dnfs := [];
     weather_by_lap := ∅; default_weather := ∅;
     default_pit_loss := 25 |}.

(** ** The engine *)

Section Engine.

(** [prep.max_len], [prep.num_cols], the encoders [prep._idx] and
    [prep._num], the network ([model.predict(X)[0, :, 0]]) and the table
    [model.pit_loss_by_circuit]. *)
Variable max_len : nat.
Variable num_cols : list string.
Variable _idx : string → value → outcome Z.
Variable _num : string → value → outcome Q.
Variable model_predict : Inputs → list Q.
Variable pit_loss_by_circuit : gmap string Q.

(** [SeqPreprocessor.build_single_inputs] *)
Definition build_single_inputs (hist_steps : list (gmap string value))
  : outcome Inputs :=
  let maxlen := max_len in
  let L := length hist_steps in
  let L := Nat.min L maxlen in
  let steps := py_last L hist_steps in
  drv_idx ←! traverse (λ s, _idx "driver" (get_val s "driver")) steps;
  team_idx ←! traverse (λ s, _idx "team" (get_val s "team")) steps;
  circ_idx ←! traverse (λ s, _idx "circuit" (get_val s "circuit")) steps;
  comp_idx ←! traverse (λ s, _idx "compound" (get_val s "compound")) steps;
  num_steps ←! traverse (λ s, traverse (λ k, _num k (get_val s k)) num_cols)
                        steps;
  Done {| driver_seq := drv_idx ++ replicate (maxlen - L) 0;
          team_seq := team_idx ++ replicate (maxlen - L) 0;
          circuit_seq := circ_idx ++ replicate (maxlen - L) 0;
          compound_seq := comp_idx ++ replicate (maxlen - L) 0;
          num_seq := num_steps
                     ++ replicate (maxlen - L)
                          (replicate (length num_cols) 0%Q) |}.

(** [LSTMLapTimeModel.predict_sequence]; the simulator is only built around
    a loaded model, so the [ValueError] of a missing model does not occur. *)
Definition predict_sequence (steps : list (gmap string value))
  : outcome (list Q) :=
  X ←! build_single_inputs steps;
  Done (model_predict X).

(** [LSTMSimulator._is_sc] *)
Fixpoint _is_sc (lap : Z) (sc_windows : list (Z * Z)) : bool :=
  match sc_windows with
  | [] => false
  | (a, b) :: rest =>
      if (a <=? lap) && (lap <=? b) then true else _is_sc lap rest
  end.

Definition pit_loss (config : RaceConfig) : Q :=
  default (default_pit_loss config) (pit_loss_by_circuit !! circuit config).

Definition init_driver (d : DriverSpec) : DriverState :=
  {| st_team := team d; st_compound := start_compound d; st_tyre_age := 0;
     st_total_time := 0%Q; st_grid := grid d; st_running := true |}.

Definition init_state (config : RaceConfig) : gmap string DriverState :=
  foldl (λ st d, <[name d := init_driver d]> st) ∅ (drivers config).

Definition init_history (config : RaceConfig)
  : gmap string (list (gmap string value)) :=
  foldl (λ h d, <[name d := []]> h) ∅ (drivers config).

(** [state[n]["grid"]] and [state[n]["total_time"]] as sort keys; [order]
    only ever holds keys of [state]. *)
Definition grid_of (st : gmap string DriverState) (n : string) : Z :=
  from_option st_grid 0 (st !! n).
Definition total_time_of (st : gmap string DriverState) (n : string) : Q :=
  from_option st_total_time 0%Q (st !! n).
Definition running_of (st : gmap string DriverState) (n : string) : bool :=
  from_option st_running false (st !! n).

Definition init_order (config : RaceConfig) : list string :=
  sorted Z.ltb (grid_of (init_state config)) (map name (drivers config)).

Definition init_sim (config : RaceConfig) : Sim :=
  {| sim_state := init_state config; sim_history := init_history config;
     sim_order := init_order config; sim_timeline := [] |}.

(** The [# DNFs] loop. *)
Definition apply_dnfs (config : RaceConfig) (lap : Z)
    (st : gmap string DriverState) : gmap string DriverState :=
  foldl (λ st '(n, lap_dnf),
           if (lap_dnf =? lap) && running_of st n
           then alter (set_running false) n st else st)
        st (dnfs config).

(** [any(e.lap == lap for e in config.strategy.get(name, []))] *)
Definition will_pit (config : RaceConfig) (lap_no : Z) (n : string) : bool :=
  existsb (λ e, lap e =? lap_no) (default [] (strategy config !! n)).

(** The logical feature dictionary of one driver for one lap, with the
    per-lap weather override written over it. *)
Definition build_step (config : RaceConfig) (lap_no : Z) (is_sc : bool)
    (n : string) (s : DriverState) : gmap string value :=
  let dw := default_weather config in
  let step : gmap string value :=
    <["wind_speed" := get_val dw "wind_speed"]>
    (<["humidity" := get_val dw "humidity"]>
    (<["track_temp" := get_val dw "track_temp"]>
    (<["air_temp" := get_val dw "air_temp"]>
    (<["rain" := VInt (if truthy (default (VBool false) (dw !! "rain"))
                       then 1 else 0)]>
    (<["is_vsc" := VInt 0]>
    (<["is_sc" := VInt (if is_sc then 1 else 0)]>
    (<["tyre_age" := VInt (st_tyre_age s)]>
    (<["lap_number" := VInt lap_no]>
    (<["compound" := VStr (st_compound s)]>
    (<["circuit" := VStr (circuit config)]>
    (<["team" := VStr (st_team s)]>
    (<["driver" := VStr n]> ∅)))))))))))) in
  match weather_by_lap config !! lap_no with
  | Some w => w ∪ step
  | None => step
  end.

(** Body of the prediction loop for one driver: the recorded lap time. *)
Definition lap_time (config : RaceConfig) (lap_no : Z) (is_sc : bool)
    (history : gmap string (list (gmap string value)))
    (n : string) (s : DriverState) : outcome Q :=
  let step := build_step config lap_no is_sc n s in
  h ←! match history !! n with Some h => Done h | None => Raise KeyError end;
  let hist := h ++ [step] in
  yhat_seq ←! predict_sequence hist;
  yhat ←! py_index yhat_seq (length hist - 1);
  Done (if will_pit config lap_no n then (yhat + pit_loss config)%Q else yhat).

(** The prediction loop over [order], filling [lap_times]. *)
Fixpoint predict_lap (config : RaceConfig) (lap_no : Z) (is_sc : bool)
    (st : gmap string DriverState)
    (history : gmap string (list (gmap string value)))
    (order : list string) (lap_times : gmap string Q)
  : outcome (gmap string Q) :=
  match order with
  | [] => Done lap_times
  | n :: rest =>
      match st !! n with
      | None => Raise KeyError
      | Some s =>
          if st_running s then
            t ←! lap_time config lap_no is_sc history n s;
            predict_lap config lap_no is_sc st history rest (<[n := t]> lap_times)
          else predict_lap config lap_no is_sc st history rest lap_times
      end
  end.

(** [# update totals] *)
Definition update_totals (lap_times : gmap string Q)
    (st : gmap string DriverState) : gmap string DriverState :=
  foldl (λ st '(n, t), alter (add_total_time t) n st) st
        (map_to_list lap_times).

(** The compound of the first event planned for this lap:
    [[e.compound for e in config.strategy[name] if e.lap == lap][0]]. *)
Definition new_compound (config : RaceConfig) (lap_no : Z) (n : string)
    (old : string) : string :=
  from_option compound old
    (head (filter (λ e, lap e = lap_no) (default [] (strategy config !! n)))).

(** Body of [# update tyres and compounds] for one entry of [order]. *)
Definition tyre_update (config : RaceConfig) (lap_no : Z) (n : string)
    (s : DriverState) : DriverState :=
  if st_running s then
    if will_pit config lap_no n
    then set_tyres (new_compound config lap_no n (st_compound s)) 0 s
    else set_tyres (st_compound s) (st_tyre_age s + 1) s
  else s.

(** [# update tyres and compounds] *)
Definition update_tyres (config : RaceConfig) (lap_no : Z) (order : list string)
    (st : gmap string DriverState) : gmap string DriverState :=
  foldl (λ st n, alter (tyre_update config lap_no n) n st) st order.

(** [# push current step to history], with the trim to [max_len]. *)
Definition push_history (config : RaceConfig) (lap_no : Z) (is_sc : bool)
    (st : gmap string DriverState) (order : list string)
    (history : gmap string (list (gmap string value)))
  : gmap string (list (gmap string value)) :=
  foldl (λ history n,
           match st !! n with
           | Some s =>
               if st_running s then
                 alter (λ h, py_last max_len
                               (h ++ [build_step config lap_no is_sc n s]))
                       n history
               else history
           | None => history
           end)
        history order.

(** The rest of the loop body, once [lap_times] is filled. *)
Definition finish_lap (config : RaceConfig) (lap_no : Z) (σ : Sim)
    (lap_times : gmap string Q) : Sim :=
  let st1 := apply_dnfs config lap_no (sim_state σ) in
  let is_sc := _is_sc lap_no (safety_cars config) in
  let st2 := update_totals lap_times st1 in
  let st3 := update_tyres config lap_no (sim_order σ) st2 in
  let history :=
    push_history config lap_no is_sc st3 (sim_order σ) (sim_history σ) in
  let running := filter (λ n, running_of st3 n = true) (sim_order σ) in
  let running_sorted := sorted Qltb (total_time_of st3) running in
  let dnfs := filter (λ n, running_of st3 n = false) (sim_order σ) in
  {| sim_state := st3; sim_history := history;
     sim_order := running_sorted ++ dnfs;
     sim_timeline := sim_timeline σ
                     ++ [ {| tl_lap := lap_no; tl_order := running_sorted;
                             tl_lap_times := lap_times;
                             tl_is_sc := is_sc |} ] |}.

(** One iteration of [for lap in range(1, config.total_laps + 1)]. *)
Definition lap_step (config : RaceConfig) (lap_no : Z) (σ : Sim) : outcome Sim :=
  let st1 := apply_dnfs config lap_no (sim_state σ) in
  let is_sc := _is_sc lap_no (safety_cars config) in
  lap_times ←! predict_lap config lap_no is_sc st1 (sim_history σ)
                           (sim_order σ) ∅;
  Done (finish_lap config lap_no σ lap_times).

Fixpoint run_laps (config : RaceConfig) (laps : list Z) (σ : Sim) : outcome Sim :=
  match laps with
  | [] => Done σ
  | l :: rest => σ' ←! lap_step config l σ; run_laps config rest σ'
  end.

(** The state after the first [k] laps. *)
Definition run_to (config : RaceConfig) (k : Z) : outcome Sim :=
  run_laps config (seqZ 1 k) (init_sim config).

(** [# final classification] *)
Fixpoint classify_finished (st : gmap string DriverState)
    (order : list string) (pos : Z) : list ClassRow :=
  match order with
  | [] => []
  | n :: rest =>
      match st !! n with
      | Some s =>
          if st_running s then
            {| cr_pos := Some pos; cr_driver := n; cr_team := st_team s;
               cr_total_time := st_total_time s; cr_status := Finished |}
            :: classify_finished st rest (pos + 1)
          else classify_finished st rest pos
      | None => classify_finished st rest pos
      end
  end.

Fixpoint classify_dnf (st : gmap string DriverState)
    (order : list string) : list ClassRow :=
  match order with
  | [] => []
  | n :: rest =>
      match st !! n with
      | Some s =>
          if st_running s then classify_dnf st rest
          else {| cr_pos := None; cr_driver := n; cr_team := st_team s;
                  cr_total_time := st_total_time s; cr_status := DNF |}
               :: classify_dnf st rest
      | None => classify_dnf st rest
      end
  end.

Definition classify (σ : Sim) : list ClassRow :=
  classify_finished (sim_state σ) (sim_order σ) 1
  ++ classify_dnf (sim_state σ) (sim_order σ).

(** [LSTMSimulator.simulate config] *)
Definition simulate (config : RaceConfig) : outcome SimResult :=
  σ ←! run_to config (total_laps config);
  Done {| classification := classify σ;
          timeline := sim_timeline σ;
          pit_loss_used := pit_loss config |}.

(** ** Notions used in the statements *)

(** [s'] differs from [s] at most in compound and tyre age. *)
Definition same_race (s s' : DriverState) : Prop :=
  st_team s' = st_team s ∧ st_total_time s' = st_total_time s ∧
  st_grid s' = st_grid s ∧ st_running s' = st_running s.

(** What [# push current step to history] does to [history[n]]. *)
Definition hist_push (config : RaceConfig) (lap_no : Z) (is_sc : bool)
    (st : gmap string DriverState) (n : string)
    (h : list (gmap string value)) : list (gmap string value) :=
  match st !! n with
  | Some s => if st_running s
              then py_last max_len (h ++ [build_step config lap_no is_sc n s])
              else h
  | None => h
  end.

(** The invariant of the lap loop on the shape of the state: [order] is
    a rearrangement of the roster, and [state] and [history] have exactly
    the roster's names as keys. *)
Definition wf_sim (config : RaceConfig) (σ : Sim) : Prop :=
  sim_order σ ≡ₚ map name (drivers config) ∧
  (∀ n, is_Some (sim_state σ !! n) ↔ n ∈ map name (drivers config)) ∧
  (∀ n, is_Some (sim_history σ !! n) ↔ n ∈ map name (drivers config)).

(** [step] is one of the feature dictionaries the race of [config] builds,
    for some lap and some state of some driver. *)
Definition race_step (config : RaceConfig) (step : gmap string value) : Prop :=
  ∃ lap_no is_sc n s, step = build_step config lap_no is_sc n s.

(** The encoders return on [step]: a code for each of its four categorical
    features and a number for each numeric column. *)
Definition encodable (step : gmap string value) : Prop :=
  (∀ key, key ∈ ["driver"; "team"; "circuit"; "compound"] →
          ∃ z, _idx key (get_val step key) = Done z) ∧
  (∀ k, k ∈ num_cols → ∃ q, _num k (get_val step k) = Done q).

(** The encoders return on every step the race of [config] builds: each
    categorical key has a vocabulary and each numeric feature of the
    configured weather is a number. *)
Definition encodes_race (config : RaceConfig) : Prop :=
  ∀ step, race_step config step → encodable step.

(** Every step of every rolling history is a step of the race. *)
Definition hist_inv (config : RaceConfig) (σ : Sim) : Prop :=
  ∀ n h, sim_history σ !! n = Some h → Forall (race_step config) h.

(** The grid position the roster gives to the name [n]: that of its entry,
    of the last one when several entries share the name. *)
Definition roster_grid (config : RaceConfig) (n : string) : Z :=
  from_option grid 0 (last (filter (λ d, name d = n) (drivers config))).

(** The per-lap weather override leaves the key [key] of the step alone. *)
Definition not_overridden (config : RaceConfig) (lap_no : Z) (key : string)
  : Prop :=
  ∀ w, weather_by_lap config !! lap_no = Some w → w !! key = None.

(** Lap [lap_no] lies in one of the closed windows. *)
Definition in_window (lap_no : Z) (ws : list (Z * Z)) : Prop :=
  ∃ a b, (a, b) ∈ ws ∧ a ≤ lap_no ≤ b.

(** The configuration with another retirement list, another pit plan. *)
Definition with_dnfs (l : list (string * Z)) (config : RaceConfig) : RaceConfig :=
  {| circuit := circuit config; total_laps := total_laps config;
     drivers := drivers config; strategy := strategy config;
     safety_cars := safety_cars config; dnfs := l;
     weather_by_lap := weather_by_lap config;
     default_weather := default_weather config;
     default_pit_loss := default_pit_loss config |}.

Definition with_strategy (plan : gmap string (list PitEvent))
    (config : RaceConfig) : RaceConfig :=
  {| circuit := circuit config; total_laps := total_laps config;
     drivers := drivers config; strategy := plan;
     safety_cars := safety_cars config; dnfs := dnfs config;
     weather_by_lap := weather_by_lap config;
     default_weather := default_weather config;
     default_pit_loss := default_pit_loss config |}.

(** The configuration with another roster. *)
Definition with_drivers (l : list DriverSpec) (config : RaceConfig) : RaceConfig :=
  {| circuit := circuit config; total_laps := total_laps config;
     drivers := l; strategy := strategy config;
     safety_cars := safety_cars config; dnfs := dnfs config;
     weather_by_lap := weather_by_lap config;
     default_weather := default_weather config;
     default_pit_loss := default_pit_loss config |}.

(** The time the timeline records for driver [n]: the lap times of its
    entries, added up in lap order. *)
Definition recorded_time (n : string) (tl : list TimelineEntry) : Q :=
  foldl (λ acc e, from_option (λ t, acc + t)%Q acc (tl_lap_times e !! n)) 0%Q tl.

(** The snapshot pushed for driver [n] at the end of lap [l]: built from the
    state after the lap; nothing is pushed for a driver who is not running. *)
Definition snapshot_at (config : RaceConfig) (n : string) (l : Z)
  : option (gmap string value) :=
  match run_to config l with
  | Done σ =>
      match sim_state σ !! n with
      | Some s =>
          if st_running s
          then Some (build_step config l (_is_sc l (safety_cars config)) n s)
          else None
      | None => None
      end
  | Raise _ => None
  end.

(** The snapshots of laps [a], [a + 1], ..., [a + len - 1], in lap order. *)
Definition snapshots_between (config : RaceConfig) (n : string) (a len : Z)
  : list (gmap string value) :=
  omap (snapshot_at config n) (seqZ a len).

(** Lap [r] is the lap at which driver [n] retires: the first lap of the
    race that the retirement list names for [n]. *)
Definition retires_at (config : RaceConfig) (n : string) (r : Z) : Prop :=
  (n, r) ∈ dnfs config ∧ 1 ≤ r ∧
  ∀ r', (n, r') ∈ dnfs config → 1 ≤ r' → r ≤ r'.

(** The invariant of the lap loop on [order] after [k] laps: a driver is
    running iff the list retires it at none of the laps [1 .. k]; the running
    drivers come first, in ascending total time; the retired ones follow,
    their retirement laps never increasing along the list. *)
Definition order_inv (config : RaceConfig) (k : Z) (σ : Sim) : Prop :=
  (∀ n, n ∈ sim_order σ →
     (running_of (sim_state σ) n = true
      ↔ ∀ r, (n, r) ∈ dnfs config → ¬ (1 ≤ r ≤ k))) ∧
  sim_order σ
    = filter (λ n, running_of (sim_state σ) n = true) (sim_order σ)
      ++ filter (λ n, running_of (sim_state σ) n = false) (sim_order σ) ∧
  StronglySorted
    (λ a b, total_time_of (sim_state σ) a <= total_time_of (sim_state σ) b)%Q
    (filter (λ n, running_of (sim_state σ) n = true) (sim_order σ)) ∧
  ∃ laps,
    Forall2 (retires_at config)
      (filter (λ n, running_of (sim_state σ) n = false) (sim_order σ)) laps ∧
    StronglySorted (λ a b, b ≤ a) laps ∧
    Forall (λ r, r ≤ k) laps.

(** The pit plan without the events whose lap is outside the race. *)
Definition in_range_plan (config : RaceConfig) : gmap string (list PitEvent) :=
  filter (λ e, 1 ≤ lap e ≤ total_laps config) <$> strategy config.

(** The state after [k] laps and the result of a simulation, for runs that
    are known to go through. *)
Definition state_after (config : RaceConfig) (k : Z) : Sim :=
  value_or (init_sim config) (run_to config k).

Definition result_of (config : RaceConfig) : SimResult :=
  value_or {| classification := []; timeline := []; pit_loss_used := 0 |}
           (simulate config).

(** ** Basic facts *)

Lemma bind_Done {A B} (m : outcome A) (k : A → outcome B) (y : B) :
  bind m k = Done y ↔ ∃ x, m = Done x ∧ k x = Done y.
Proof.
  destruct m as [x|e]; simpl; split.
  - eauto.
  - by intros (? & [= <-] & ?).
  - discriminate.
  - by intros (? & [=] & ?).
Qed.

Lemma bind_Raise {A B} (m : outcome A) (k : A → outcome B) (e : exn) :
  bind m k = Raise e ↔ m = Raise e ∨ ∃ x, m = Done x ∧ k x = Raise e.
Proof.
  destruct m as [x|e']; simpl; split.
  - eauto.
  - by intros [?|(? & [= <-] & ?)].
  - intros [= ->]. by left.
  - by intros [[= ->]|(? & [=] & _)].
Qed.

Lemma traverse_Done {A B} (f : A → outcome B) l ys :
  traverse f l = Done ys ↔ Forall2 (λ x y, f x = Done y) l ys.
Proof.
  revert ys. induction l as [|x l IH]; intros ys; simpl.
  - split; [intros [= <-]; constructor|by intros ->%Forall2_nil_inv_l].
  - rewrite bind_Done. split.
    + intros (y & Hy & (ys' & Hys & [= <-])%bind_Done).
      constructor; [done|by apply IH].
    + intros (y & ys' & Hy & Hys & ->)%Forall2_cons_inv_l.
      exists y. split; [done|]. apply bind_Done. exists ys'.
      split; [by apply IH|done].
Qed.

Lemma traverse_length {A B} (f : A → outcome B) l ys :
  traverse f l = Done ys → length ys = length l.
Proof. intros H%traverse_Done. symmetry. by eapply Forall2_length. Qed.

Lemma traverse_elem {A B} (f : A → outcome B) l ys y :
  traverse f l = Done ys → y ∈ ys → ∃ x, x ∈ l ∧ f x = Done y.
Proof.
  intros H%traverse_Done Hy. induction H as [|x y' l ys Hxy _ IH].
  - by apply elem_of_nil in Hy.
  - apply elem_of_cons in Hy as [->|Hy].
    + exists x. split; [left|done].
    + destruct (IH Hy) as (x' & ? & ?). exists x'. split; [by right|done].
Qed.

Lemma traverse_snoc {A B} (f : A → outcome B) l x ys :
  traverse f (l ++ [x]) = Done ys →
  ∃ ys' y, ys = ys' ++ [y] ∧ traverse f l = Done ys' ∧ f x = Done y.
Proof.
  intros (ys1 & ys2 & H1 & H2 & ->)%traverse_Done%Forall2_app_inv_l.
  apply Forall2_cons_inv_l in H2 as (y & ys3 & Hy & ->%Forall2_nil_inv_l & ->).
  exists ys1, y. split; [done|]. split; [by apply traverse_Done|done].
Qed.

Lemma traverse_total {A B} (f : A → outcome B) l :
  (∀ x, x ∈ l → ∃ y, f x = Done y) → ∃ ys, traverse f l = Done ys.
Proof.
  induction l as [|x l IH]; intros Hall; simpl; [eauto|].
  destruct (Hall x) as [y ->]; [left|]. simpl.
  destruct IH as [ys ->]; [intros ??; apply Hall; by right|]. simpl. eauto.
Qed.

Lemma traverse_Raise {A B} (f : A → outcome B) l e :
  traverse f l = Raise e → ∃ x, x ∈ l ∧ f x = Raise e.
Proof.
  induction l as [|x l IH]; simpl; [done|].
  intros [Hx|(y & _ & [Hl|(ys & _ & [=])]%bind_Raise)]%bind_Raise.
  - exists x. split; [left|done].
  - destruct (IH Hl) as (x' & ? & ?). exists x'. split; [by right|done].
Qed.

Lemma py_last_length {A} (n : nat) (l : list A) :
  n ≠ O → length (py_last n l) = Nat.min (length l) n.
Proof. destruct n; [done|]. intros _. simpl. rewrite length_drop. lia. Qed.

Lemma py_last_short {A} (n : nat) (l : list A) :
  (length l ≤ n)%nat → py_last n l = l.
Proof.
  destruct n; [done|]. intros Hl. simpl.
  by replace (length l - S n)%nat with O by lia.
Qed.

Lemma py_last_suffix {A} (n : nat) (l : list A) : py_last n l `suffix_of` l.
Proof. destruct n; [done|]. apply suffix_drop. Qed.

Lemma set_running_false_id (s : DriverState) :
  st_running s = false → set_running false s = s.
Proof. destruct s; simpl; by intros ->. Qed.

(** ** The safety-car flag *)

Lemma is_sc_spec (lap_no : Z) (ws : list (Z * Z)) :
  _is_sc lap_no ws = true ↔ in_window lap_no ws.
Proof.
  unfold in_window.
  induction ws as [|[a b] ws IH]; simpl.
  - split; [done|]. intros (? & ? & []%elem_of_nil & _).
  - destruct (a <=? lap_no) eqn:Ha; destruct (lap_no <=? b) eqn:Hb; simpl;
      rewrite ?IH; try (split; [intros _; exists a, b; split; [left|lia]|done]);
      (split; [intros (a' & b' & ? & ?); exists a', b'; split; [by right|done]
              |intros (a' & b' & [[= -> ->]|?]%elem_of_cons & ?); [lia|eauto]]).
Qed.

(** ** The phases of one lap, driver by driver *)

Lemma apply_dnfs_lookup cfg lap_no st n :
  apply_dnfs cfg lap_no st !! n =
  (λ s, if bool_decide ((n, lap_no) ∈ dnfs cfg) then set_running false s else s)
    <$> st !! n.
Proof.
  unfold apply_dnfs. generalize (dnfs cfg) as l.
  intros l; revert st; induction l as [|[m ld] l IH]; intros st.
  - rewrite bool_decide_eq_false_2 by apply not_elem_of_nil.
    cbn [foldl]. by destruct (st !! n).
  - cbn [foldl]. rewrite IH. clear IH.
    destruct (decide ((n, lap_no) ∈ l)) as [Hin|Hin].
    + rewrite !bool_decide_eq_true_2 by (done || by right).
      destruct ((ld =? lap_no) && running_of st m); [|done].
      rewrite lookup_alter. case_decide; subst; [|done].
      by destruct (st !! n) as [[]|].
    + rewrite (bool_decide_eq_false_2 _ Hin).
      destruct (ld =? lap_no) eqn:Hld; simpl.
      * apply Z.eqb_eq in Hld as ->.
        destruct (decide (m = n)) as [->|Hne].
        -- rewrite bool_decide_eq_true_2 by left.
           unfold running_of. destruct (st !! n) as [s|] eqn:Hs; simpl.
           ++ destruct (st_running s) eqn:Hr.
              ** rewrite lookup_alter_eq, Hs. by destruct s.
              ** rewrite Hs. simpl. by rewrite set_running_false_id.
           ++ by rewrite Hs.
        -- rewrite bool_decide_eq_false_2
             by (intros [[=]|?]%elem_of_cons; congruence).
           destruct (running_of st m); [|by destruct (st !! n)].
           rewrite lookup_alter_ne by done. by destruct (st !! n).
      * apply Z.eqb_neq in Hld.
        rewrite bool_decide_eq_false_2
          by (intros [[=]|?]%elem_of_cons; congruence).
        by destruct (st !! n).
Qed.

Lemma predict_lap_other cfg lap_no sc st hist order acc lt n :
  predict_lap cfg lap_no sc st hist order acc = Done lt →
  n ∉ order ∨ running_of st n = false →
  lt !! n = acc !! n.
Proof.
  revert acc. induction order as [|m order IH]; intros acc; simpl.
  - by intros [= <-].
  - intros Hp Hn. destruct (st !! m) as [s|] eqn:Hs; [|done].
    assert (n ∉ order ∨ running_of st n = false) as Hn'.
    { destruct Hn as [Hn|]; [left|by right].
      intros ?; apply Hn; by right. }
    destruct (st_running s) eqn:Hr.
    + apply bind_Done in Hp as (t & Ht & Hp).
      rewrite (IH _ Hp Hn'). apply lookup_insert_ne.
      intros ->. destruct Hn as [Hn|Hn]; [apply Hn; left|].
      unfold running_of in Hn. rewrite Hs in Hn. simpl in Hn. congruence.
    + by apply IH.
Qed.

Lemma predict_lap_running cfg lap_no sc st hist order acc lt n s :
  predict_lap cfg lap_no sc st hist order acc = Done lt →
  n ∈ order → st !! n = Some s → st_running s = true →
  ∃ t, lap_time cfg lap_no sc hist n s = Done t ∧ lt !! n = Some t.
Proof.
  revert acc. induction order as [|m order IH]; intros acc; simpl.
  - by intros _ ?%elem_of_nil.
  - intros Hp Hn Hs Hr. destruct (st !! m) as [s'|] eqn:Hs'; [|done].
    destruct (decide (n ∈ order)) as [Hin|Hin].
    + destruct (st_running s'); [|by eapply IH].
      apply bind_Done in Hp as (t & Ht & Hp). by eapply IH.
    + apply elem_of_cons in Hn as [->|?]; [|done].
      rewrite Hs in Hs'. injection Hs' as <-. rewrite Hr in Hp.
      apply bind_Done in Hp as (t & Ht & Hp). exists t. split; [done|].
      rewrite (predict_lap_other _ _ _ _ _ _ _ _ _ Hp) by by left.
      apply lookup_insert_eq.
Qed.

Lemma predict_lap_keys cfg lap_no sc st hist order lt n t :
  predict_lap cfg lap_no sc st hist order ∅ = Done lt →
  lt !! n = Some t → n ∈ order ∧ running_of st n = true.
Proof.
  intros Hp Ht. destruct (decide (n ∈ order)) as [Hin|Hin].
  - split; [done|]. destruct (running_of st n) eqn:Hr; [done|].
    rewrite (predict_lap_other _ _ _ _ _ _ _ _ _ Hp) in Ht by by right.
    by rewrite lookup_empty in Ht.
  - rewrite (predict_lap_other _ _ _ _ _ _ _ _ _ Hp) in Ht by by left.
    by rewrite lookup_empty in Ht.
Qed.

Lemma foldl_add_total_lookup (l : list (string * Q))
    (st : gmap string DriverState) (n : string) :
  NoDup l.*1 →
  foldl (λ st '(n, t), alter (add_total_time t) n st) st l !! n =
  (λ s, from_option (λ t, add_total_time t s) s
          ((list_to_map l : gmap string Q) !! n)) <$> st !! n.
Proof.
  revert st. induction l as [|[m t] l IH]; intros st; simpl.
  - intros _. rewrite lookup_empty. by destruct (st !! n).
  - intros [Hm Hnd]%NoDup_cons. rewrite IH by done.
    rewrite lookup_alter. case_decide as Hmn.
    + subst m. rewrite lookup_insert_eq.
      rewrite (not_elem_of_list_to_map_1 _ _ Hm). by destruct (st !! n).
    + by rewrite lookup_insert_ne.
Qed.

Lemma update_totals_lookup (lt : gmap string Q)
    (st : gmap string DriverState) (n : string) :
  update_totals lt st !! n =
  (λ s, from_option (λ t, add_total_time t s) s (lt !! n)) <$> st !! n.
Proof.
  unfold update_totals.
  rewrite foldl_add_total_lookup by apply NoDup_fst_map_to_list.
  by rewrite list_to_map_to_list.
Qed.

Lemma foldl_alter_lookup {V} (f : string → V → V) (order : list string)
    (m : gmap string V) (n : string) :
  NoDup order →
  foldl (λ m k, alter (f k) k m) m order !! n =
  (λ v, if bool_decide (n ∈ order) then f n v else v) <$> m !! n.
Proof.
  revert m. induction order as [|k order IH]; intros m; cbn [foldl].
  - intros _. rewrite bool_decide_eq_false_2 by apply not_elem_of_nil.
    by destruct (m !! n).
  - intros [Hk Hnd]%NoDup_cons. rewrite IH by done.
    destruct (decide (k = n)) as [->|Hkn].
    + rewrite lookup_alter_eq. rewrite bool_decide_eq_false_2 by done.
      rewrite bool_decide_eq_true_2 by left. by destruct (m !! n).
    + rewrite lookup_alter_ne by done. destruct (decide (n ∈ order)).
      * rewrite !bool_decide_eq_true_2 by (done || by right). done.
      * rewrite !bool_decide_eq_false_2
          by (done || intros [?|?]%elem_of_cons; congruence).
        done.
Qed.

Lemma foldl_alter_rel {V} (R : relation V) (f : string → V → V)
    (order : list string) (m : gmap string V) (n : string) :
  (∀ v, R v v) → (∀ a b c, R a b → R b c → R a c) →
  (∀ v, R v (f n v)) →
  option_Forall2 R (m !! n) (foldl (λ m k, alter (f k) k m) m order !! n).
Proof.
  intros Hrefl Htrans Hf. revert m.
  induction order as [|k order IH]; intros m; cbn [foldl].
  - destruct (m !! n); by constructor.
  - specialize (IH (alter (f k) k m)).
    destruct (decide (k = n)) as [->|Hkn];
      [rewrite lookup_alter_eq in IH|by rewrite lookup_alter_ne in IH].
    destruct (m !! n) as [v|]; simpl in IH; [|done].
    inversion IH as [? v' Hv|]; subst. constructor. eauto.
Qed.

Lemma foldl_alter_is_Some {V} (f : string → V → V) (order : list string)
    (m : gmap string V) (n : string) :
  is_Some (foldl (λ m k, alter (f k) k m) m order !! n) ↔ is_Some (m !! n).
Proof.
  revert m. induction order as [|k order IH]; intros m; cbn [foldl]; [done|].
  rewrite IH. destruct (decide (k = n)) as [->|].
  - rewrite lookup_alter_eq. apply fmap_is_Some.
  - by rewrite lookup_alter_ne.
Qed.

Lemma same_race_refl s : same_race s s.
Proof. done. Qed.

Lemma same_race_trans s1 s2 s3 :
  same_race s1 s2 → same_race s2 s3 → same_race s1 s3.
Proof. intros (?&?&?&?) (?&?&?&?). repeat split; congruence. Qed.

Lemma tyre_update_same cfg lap_no n s : same_race s (tyre_update cfg lap_no n s).
Proof.
  unfold tyre_update. destruct (st_running s); [|done].
  by destruct (will_pit cfg lap_no n).
Qed.

Lemma update_tyres_lookup cfg lap_no order (st : gmap string DriverState) n :
  NoDup order →
  update_tyres cfg lap_no order st !! n =
  (λ s, if bool_decide (n ∈ order) then tyre_update cfg lap_no n s else s)
    <$> st !! n.
Proof. apply (foldl_alter_lookup (tyre_update cfg lap_no)). Qed.

Lemma update_tyres_same cfg lap_no order (st : gmap string DriverState) n :
  option_Forall2 same_race (st !! n) (update_tyres cfg lap_no order st !! n).
Proof.
  apply (foldl_alter_rel same_race (tyre_update cfg lap_no)).
  - apply same_race_refl.
  - apply same_race_trans.
  - intros. apply tyre_update_same.
Qed.

Lemma push_history_alt cfg lap_no sc st order
    (hist : gmap string (list (gmap string value))) :
  push_history cfg lap_no sc st order hist =
  foldl (λ h n, alter (hist_push cfg lap_no sc st n) n h) hist order.
Proof.
  unfold push_history. revert hist.
  induction order as [|n order IH]; intros hist; cbn [foldl]; [done|].
  rewrite <-IH. f_equal. unfold hist_push.
  destruct (st !! n) as [s|]; [destruct (st_running s)|]; try done.
  - apply map_eq. intros k. destruct (decide (n = k)) as [->|];
      [rewrite lookup_alter_eq; by destruct (hist !! k)
      |by rewrite lookup_alter_ne].
  - apply map_eq. intros k. destruct (decide (n = k)) as [->|];
      [rewrite lookup_alter_eq; by destruct (hist !! k)
      |by rewrite lookup_alter_ne].
Qed.

Lemma push_history_lookup cfg lap_no sc st order
    (hist : gmap string (list (gmap string value))) n :
  NoDup order →
  push_history cfg lap_no sc st order hist !! n =
  (λ h, if bool_decide (n ∈ order) then hist_push cfg lap_no sc st n h else h)
    <$> hist !! n.
Proof.
  rewrite push_history_alt. apply (foldl_alter_lookup (hist_push cfg lap_no sc st)).
Qed.

(** ** The stable sort *)

Lemma insert_by_perm {A K} (ltb : K → K → bool) (key : A → K) x l :
  insert_by ltb key x l ≡ₚ x :: l.
Proof.
  induction l as [|y l IH]; simpl; [done|].
  destruct (ltb (key y) (key x)); [|done].
  rewrite IH. apply Permutation_swap.
Qed.

Lemma sorted_perm {A K} (ltb : K → K → bool) (key : A → K) l :
  sorted ltb key l ≡ₚ l.
Proof.
  induction l as [|x l IH]; simpl; [done|].
  by rewrite insert_by_perm, IH.
Qed.

(** ** One lap *)

Lemma lap_step_Done cfg lap_no σ σ' :
  lap_step cfg lap_no σ = Done σ' ↔
  ∃ lt, predict_lap cfg lap_no (_is_sc lap_no (safety_cars cfg))
          (apply_dnfs cfg lap_no (sim_state σ)) (sim_history σ)
          (sim_order σ) ∅ = Done lt
        ∧ σ' = finish_lap cfg lap_no σ lt.
Proof.
  unfold lap_step. rewrite bind_Done.
  split; intros (lt & ? & ?); exists lt; split; congruence.
Qed.

Lemma finish_lap_state_None cfg lap_no σ lt n :
  sim_state σ !! n = None → sim_state (finish_lap cfg lap_no σ lt) !! n = None.
Proof.
  intros Hn. cbn [finish_lap sim_state].
  pose proof (update_tyres_same cfg lap_no (sim_order σ)
    (update_totals lt (apply_dnfs cfg lap_no (sim_state σ))) n) as H.
  rewrite update_totals_lookup, apply_dnfs_lookup, Hn in H.
  by inversion H.
Qed.

Lemma finish_lap_state cfg lap_no σ lt n s :
  sim_state σ !! n = Some s →
  ∃ s', sim_state (finish_lap cfg lap_no σ lt) !! n = Some s' ∧
    st_running s' = (if bool_decide ((n, lap_no) ∈ dnfs cfg)
                     then false else st_running s) ∧
    st_team s' = st_team s ∧ st_grid s' = st_grid s ∧
    st_total_time s' =
      from_option (λ t, st_total_time s + t)%Q (st_total_time s) (lt !! n).
Proof.
  intros Hn. cbn [finish_lap sim_state].
  pose proof (update_tyres_same cfg lap_no (sim_order σ)
    (update_totals lt (apply_dnfs cfg lap_no (sim_state σ))) n) as H.
  rewrite update_totals_lookup, apply_dnfs_lookup, Hn in H.
  inversion H as [? s' (Ht & Htot & Hg & Hr) Heq1 Heq2|]; subst.
  exists s'. split; [done|]. rewrite Hr, Ht, Hg, Htot.
  destruct (lt !! n), (bool_decide _); by destruct s.
Qed.

Lemma finish_lap_order_perm cfg lap_no σ lt :
  sim_order (finish_lap cfg lap_no σ lt) ≡ₚ sim_order σ.
Proof.
  cbn [finish_lap sim_order]. rewrite sorted_perm.
  generalize (update_tyres cfg lap_no (sim_order σ)
                (update_totals lt (apply_dnfs cfg lap_no (sim_state σ)))).
  intros st3. induction (sim_order σ) as [|n l IH]; [done|].
  rewrite !filter_cons. destruct (running_of _ n) eqn:Hr.
  - rewrite decide_True by done. rewrite decide_False by done.
    simpl. by rewrite IH.
  - rewrite decide_False by done. rewrite decide_True by done.
    rewrite <-Permutation_middle. by rewrite IH.
Qed.

Lemma push_history_dom cfg lap_no sc st order
    (hist : gmap string (list (gmap string value))) n :
  is_Some (push_history cfg lap_no sc st order hist !! n) ↔ is_Some (hist !! n).
Proof.
  rewrite push_history_alt. apply foldl_alter_is_Some.
Qed.

Lemma finish_lap_wf cfg lap_no σ lt :
  wf_sim cfg σ → wf_sim cfg (finish_lap cfg lap_no σ lt).
Proof.
  intros (Hord & Hst & Hh). split; [|split].
  - by rewrite finish_lap_order_perm.
  - intros n. rewrite <-Hst. destruct (sim_state σ !! n) as [s|] eqn:Hn.
    + destruct (finish_lap_state cfg lap_no σ lt n s Hn) as (s' & -> & _).
      split; eauto.
    + by rewrite finish_lap_state_None.
  - intros n. rewrite <-Hh. apply push_history_dom.
Qed.

Lemma lap_step_wf cfg lap_no σ σ' :
  lap_step cfg lap_no σ = Done σ' → wf_sim cfg σ → wf_sim cfg σ'.
Proof.
  intros (lt & _ & ->)%lap_step_Done. apply finish_lap_wf.
Qed.

Lemma init_state_lookup_is_Some cfg n :
  is_Some (init_state cfg !! n) ↔ n ∈ map name (drivers cfg).
Proof.
  unfold init_state.
  assert (∀ l (m : gmap string DriverState),
    is_Some (foldl (λ st d, <[name d := init_driver d]> st) m l !! n)
    ↔ n ∈ map name l ∨ is_Some (m !! n)) as H.
  { induction l as [|d l IH]; intros m; cbn [foldl map].
    - rewrite elem_of_nil. tauto.
    - rewrite IH, elem_of_cons, lookup_insert_is_Some'. split.
      + intros [?|[?|?]]; eauto.
      + intros [[?|?]|?]; eauto. }
  rewrite H, lookup_empty, is_Some_alt. tauto.
Qed.

Lemma init_history_lookup_is_Some cfg n :
  is_Some (init_history cfg !! n) ↔ n ∈ map name (drivers cfg).
Proof.
  unfold init_history.
  assert (∀ l (m : gmap string (list (gmap string value))),
    is_Some (foldl (λ h d, <[name d := []]> h) m l !! n)
    ↔ n ∈ map name l ∨ is_Some (m !! n)) as H.
  { induction l as [|d l IH]; intros m; cbn [foldl map].
    - rewrite elem_of_nil. tauto.
    - rewrite IH, elem_of_cons, lookup_insert_is_Some'. split.
      + intros [?|[?|?]]; eauto.
      + intros [[?|?]|?]; eauto. }
  rewrite H, lookup_empty, is_Some_alt. tauto.
Qed.

Lemma init_wf cfg : wf_sim cfg (init_sim cfg).
Proof.
  split; [|split].
  - apply sorted_perm.
  - apply init_state_lookup_is_Some.
  - apply init_history_lookup_is_Some.
Qed.

(** ** Runs *)

Lemma run_laps_app cfg l1 l2 σ :
  run_laps cfg (l1 ++ l2) σ = σ' ←! run_laps cfg l1 σ; run_laps cfg l2 σ'.
Proof.
  revert σ. induction l1 as [|l l1 IH]; intros σ; simpl; [done|].
  destruct (lap_step cfg l σ); simpl; [apply IH|done].
Qed.

Lemma run_laps_wf cfg laps σ σ' :
  run_laps cfg laps σ = Done σ' → wf_sim cfg σ → wf_sim cfg σ'.
Proof.
  revert σ. induction laps as [|l laps IH]; intros σ; simpl.
  - by intros [= <-].
  - intros (σ1 & H1 & H2)%bind_Done Hwf. eauto using lap_step_wf.
Qed.

Lemma run_to_nonpos cfg k : k ≤ 0 → run_to cfg k = Done (init_sim cfg).
Proof. intros. unfold run_to. by rewrite seqZ_nil. Qed.

Lemma run_to_succ cfg k :
  0 ≤ k → run_to cfg (k + 1) = σ ←! run_to cfg k; lap_step cfg (k + 1) σ.
Proof.
  intros Hk. unfold run_to. rewrite seqZ_app by lia. rewrite run_laps_app.
  destruct (run_laps cfg (seqZ 1 k) (init_sim cfg)); [|done]. simpl.
  replace (Z.of_nat 0 + (1 + k)) with (k + 1) by lia.
  by destruct (lap_step _ _ _).
Qed.

Lemma run_to_wf cfg k σ : run_to cfg k = Done σ → wf_sim cfg σ.
Proof. intros H. eapply run_laps_wf; [done|apply init_wf]. Qed.

(** A run that reaches lap [k] has been through every earlier lap. *)
Lemma run_to_prefix cfg j k σ :
  run_to cfg k = Done σ → j ≤ k → ∃ σ', run_to cfg j = Done σ'.
Proof.
  intros Hk Hjk. destruct (decide (j ≤ 0)).
  { rewrite run_to_nonpos by done. eauto. }
  unfold run_to in *. replace k with (j + (k - j)) in Hk by lia.
  rewrite seqZ_app, run_laps_app in Hk by lia.
  apply bind_Done in Hk as (σ' & ? & _). eauto.
Qed.

Lemma run_to_ind cfg (P : Z → Sim → Prop) :
  P 0 (init_sim cfg) →
  (∀ k σ σ', 0 ≤ k → run_to cfg k = Done σ → P k σ →
             lap_step cfg (k + 1) σ = Done σ' → P (k + 1) σ') →
  ∀ k σ, 0 ≤ k → run_to cfg k = Done σ → P k σ.
Proof.
  intros H0 HS k σ Hk. revert σ. pattern k. apply natlike_ind; [| |done].
  - intros σ. rewrite run_to_nonpos by done. by intros [= <-].
  - intros x Hx IH σ. unfold Z.succ. rewrite run_to_succ by done.
    intros (σ0 & H1 & H2)%bind_Done. eapply HS; eauto.
Qed.

Lemma run_to_clamp cfg k : run_to cfg k = run_to cfg (Z.max 0 k).
Proof.
  destruct (decide (0 ≤ k)); [by rewrite Z.max_r|].
  rewrite Z.max_l by lia. by rewrite !run_to_nonpos by lia.
Qed.

(** ** The timeline *)

Lemma timeline_laps cfg k σ :
  run_to cfg k = Done σ → map tl_lap (sim_timeline σ) = seqZ 1 k.
Proof.
  rewrite run_to_clamp.
  replace (seqZ 1 k) with (seqZ 1 (Z.max 0 k))
    by (destruct (decide (0 ≤ k)); [by rewrite Z.max_r|];
        rewrite Z.max_l by lia; by rewrite !seqZ_nil by lia).
  assert (0 ≤ Z.max 0 k) as Hk by lia. revert Hk. generalize (Z.max 0 k).
  intros j Hj. revert σ. revert j Hj. intros j Hj σ Hrun.
  revert j σ Hj Hrun. apply (run_to_ind cfg (λ j σ, map tl_lap (sim_timeline σ) = seqZ 1 j)).
  - done.
  - intros j σ σ' Hj _ IH (lt & _ & ->)%lap_step_Done.
    cbn [finish_lap sim_timeline]. rewrite map_app, IH. simpl.
    rewrite seqZ_app by lia. f_equal. rewrite seqZ_cons, seqZ_nil by lia.
    f_equal. lia.
Qed.

Lemma timeline_entry_lap cfg k σ e :
  run_to cfg k = Done σ → e ∈ sim_timeline σ → 1 ≤ tl_lap e ≤ k.
Proof.
  intros Hrun He. apply (list_elem_of_fmap_2 tl_lap) in He.
  change (tl_lap <$> sim_timeline σ) with (map tl_lap (sim_timeline σ)) in He.
  rewrite (timeline_laps _ _ _ Hrun) in He. apply elem_of_seqZ in He. lia.
Qed.

Lemma timeline_flags cfg k σ e :
  run_to cfg k = Done σ → e ∈ sim_timeline σ →
  tl_is_sc e = _is_sc (tl_lap e) (safety_cars cfg).
Proof.
  rewrite run_to_clamp. assert (0 ≤ Z.max 0 k) as Hk by lia.
  revert Hk. generalize (Z.max 0 k). intros j Hj Hrun. revert e.
  revert j σ Hj Hrun.
  apply (run_to_ind cfg (λ j σ, ∀ e, e ∈ sim_timeline σ →
           tl_is_sc e = _is_sc (tl_lap e) (safety_cars cfg))).
  - intros e []%elem_of_nil.
  - intros j σ σ' Hj _ IH (lt & _ & ->)%lap_step_Done e.
    cbn [finish_lap sim_timeline].
    intros [?|He%list_elem_of_singleton]%elem_of_app; [by apply IH|by subst].
Qed.

(** ** Feature steps *)

Lemma build_step_is_sc cfg lap_no sc n s :
  not_overridden cfg lap_no "is_sc" →
  build_step cfg lap_no sc n s !! "is_sc" = Some (VInt (if sc then 1 else 0)).
Proof.
  intros Hno. unfold build_step.
  destruct (weather_by_lap cfg !! lap_no) as [w|] eqn:Hw.
  - rewrite lookup_union_r by by apply Hno. by simplify_map_eq.
  - by simplify_map_eq.
Qed.

Lemma build_step_compound cfg lap_no sc n s :
  not_overridden cfg lap_no "compound" →
  build_step cfg lap_no sc n s !! "compound" = Some (VStr (st_compound s)).
Proof.
  intros Hno. unfold build_step.
  destruct (weather_by_lap cfg !! lap_no) as [w|] eqn:Hw.
  - rewrite lookup_union_r by by apply Hno. by simplify_map_eq.
  - by simplify_map_eq.
Qed.

Lemma build_step_tyre_age cfg lap_no sc n s :
  not_overridden cfg lap_no "tyre_age" →
  build_step cfg lap_no sc n s !! "tyre_age" = Some (VInt (st_tyre_age s)).
Proof.
  intros Hno. unfold build_step.
  destruct (weather_by_lap cfg !! lap_no) as [w|] eqn:Hw.
  - rewrite lookup_union_r by by apply Hno. by simplify_map_eq.
  - by simplify_map_eq.
Qed.

(** ** The recorded lap time *)

Lemma lap_time_Done cfg lap_no sc hist n s t :
  lap_time cfg lap_no sc hist n s = Done t ↔
  ∃ h yhat_seq yhat, hist !! n = Some h ∧
    predict_sequence (h ++ [build_step cfg lap_no sc n s]) = Done yhat_seq ∧
    yhat_seq !! length h = Some yhat ∧
    t = if will_pit cfg lap_no n then (yhat + pit_loss cfg)%Q else yhat.
Proof.
  unfold lap_time. rewrite bind_Done. split.
  - intros (h & Hh & (ys & Hys & (yhat & Hy & [= <-])%bind_Done)%bind_Done).
    destruct (hist !! n) as [h'|]; [|done]. injection Hh as ->.
    exists h, ys, yhat. split; [done|]. split; [done|]. split; [|done].
    unfold py_index in Hy. rewrite length_app in Hy. simpl in Hy.
    replace (length h + 1 - 1)%nat with (length h) in Hy by lia.
    by destruct (_ !! length h) as [y|]; [injection Hy as ->|].
  - intros (h & ys & yhat & Hh & Hys & Hy & ->). exists h. rewrite Hh.
    split; [done|]. apply bind_Done. exists ys. split; [done|].
    apply bind_Done. exists yhat. split; [|done].
    unfold py_index. rewrite length_app. simpl.
    replace (length h + 1 - 1)%nat with (length h) by lia. by rewrite Hy.
Qed.

Lemma lap_step_lap_time cfg lap_no σ σ' n s :
  lap_step cfg lap_no σ = Done σ' →
  n ∈ sim_order σ → sim_state σ !! n = Some s → st_running s = true →
  (n, lap_no) ∉ dnfs cfg →
  ∃ e t, last (sim_timeline σ') = Some e ∧ tl_lap e = lap_no ∧
    lap_time cfg lap_no (_is_sc lap_no (safety_cars cfg)) (sim_history σ) n s
      = Done t ∧
    tl_lap_times e !! n = Some t.
Proof.
  intros (lt & Hp & ->)%lap_step_Done Hn Hs Hr Hd.
  eapply (predict_lap_running _ _ _ _ _ _ _ _ n s) in Hp as (t & Ht & Hlt);
    [|done| |done].
  - eexists _, t. cbn [finish_lap sim_timeline]. rewrite last_snoc.
    split; [done|]. simpl. done.
  - rewrite apply_dnfs_lookup, Hs. simpl. by rewrite bool_decide_eq_false_2.
Qed.

Lemma run_to_step cfg k σ σ' :
  1 ≤ k → run_to cfg (k - 1) = Done σ → run_to cfg k = Done σ' →
  lap_step cfg k σ = Done σ'.
Proof.
  intros Hk H1 H2. replace k with (k - 1 + 1) in H2 by lia.
  rewrite run_to_succ, H1 in H2 by lia. simpl in H2.
  by replace (k - 1 + 1) with k in H2 by lia.
Qed.

(** ** Safety car *)

(** C8: on every lap [k] of a run, the safety-car flag recorded in the
    timeline entry of lap [k] is true exactly when [k] lies in at least one
    configured closed window [a, b] (end points included, overlapping windows
    allowed); the same flag is the one the snapshot of every running driver
    is built with for the predictor, where it shows as [is_sc = 1] exactly in
    that case (for a weather override that does not itself write [is_sc]);
    and every earlier timeline entry carries the flag of its own lap. *)
Theorem C8_safety_car_flag cfg k σ σ' :
  1 ≤ k → run_to cfg (k - 1) = Done σ → run_to cfg k = Done σ' →
  (∀ e, e ∈ sim_timeline σ' →
     (tl_is_sc e = true ↔ in_window (tl_lap e) (safety_cars cfg))) ∧
  ∃ e, last (sim_timeline σ') = Some e ∧ tl_lap e = k ∧
    ∀ n s, n ∈ sim_order σ → sim_state σ !! n = Some s →
      st_running s = true → (n, k) ∉ dnfs cfg →
      ∃ h yhat_seq yhat,
        sim_history σ !! n = Some h ∧
        predict_sequence (h ++ [build_step cfg k (tl_is_sc e) n s])
          = Done yhat_seq ∧
        yhat_seq !! length h = Some yhat ∧
        tl_lap_times e !! n
          = Some (if will_pit cfg k n then (yhat + pit_loss cfg)%Q else yhat) ∧
        (not_overridden cfg k "is_sc" →
         (build_step cfg k (tl_is_sc e) n s !! "is_sc" = Some (VInt 1)
          ↔ in_window k (safety_cars cfg))).
Proof.
  intros Hk H1 H2. split.
  - intros e He. rewrite (timeline_flags _ _ _ _ H2 He). apply is_sc_spec.
  - pose proof (run_to_step _ _ _ _ Hk H1 H2) as Hstep.
    pose proof Hstep as (lt & Hp & Hσ')%lap_step_Done.
    eexists. split; [rewrite Hσ'; cbn [finish_lap sim_timeline]; apply last_snoc|].
    split; [done|]. cbn [tl_is_sc tl_lap_times].
    intros n s Hn Hs Hr Hd.
    destruct (lap_step_lap_time _ _ _ _ n s Hstep Hn Hs Hr Hd)
      as (e & t & He & _ & Ht & Hlt).
    rewrite Hσ' in He. cbn [finish_lap sim_timeline] in He.
    rewrite last_snoc in He. injection He as <-. cbn [tl_lap_times] in Hlt.
    apply lap_time_Done in Ht as (h & ys & yhat & Hh & Hys & Hy & ->).
    exists h, ys, yhat. repeat split; try done.
    + rewrite build_step_is_sc by done. intros [= Hone]. apply is_sc_spec.
      by destruct (_is_sc k (safety_cars cfg)).
    + rewrite build_step_is_sc by done. intros ->%is_sc_spec. done.
Qed.

(** ** Two configurations that agree on a lap *)

Lemma predict_lap_ext cfg cfg' lap_no sc st hist order acc :
  (∀ n s, lap_time cfg lap_no sc hist n s = lap_time cfg' lap_no sc hist n s) →
  predict_lap cfg lap_no sc st hist order acc
  = predict_lap cfg' lap_no sc st hist order acc.
Proof.
  intros Hlt. revert acc. induction order as [|n order IH]; intros acc; simpl.
  - done.
  - destruct (st !! n) as [s|]; [|done]. destruct (st_running s); [|done].
    rewrite Hlt. destruct (lap_time cfg' lap_no sc hist n s); simpl; [|done].
    apply IH.
Qed.

Lemma update_tyres_ext cfg cfg' lap_no order (st : gmap string DriverState) :
  (∀ n s, tyre_update cfg lap_no n s = tyre_update cfg' lap_no n s) →
  update_tyres cfg lap_no order st = update_tyres cfg' lap_no order st.
Proof.
  intros Hf. unfold update_tyres. revert st.
  induction order as [|n order IH]; intros st; cbn [foldl]; [done|].
  rewrite IH. f_equal. apply map_eq. intros k.
  destruct (decide (n = k)) as [->|].
  - rewrite !lookup_alter_eq. destruct (st !! k); simpl; by rewrite ?Hf.
  - by rewrite !lookup_alter_ne.
Qed.

Lemma push_history_ext cfg cfg' lap_no sc st order
    (hist : gmap string (list (gmap string value))) :
  (∀ n s, build_step cfg lap_no sc n s = build_step cfg' lap_no sc n s) →
  push_history cfg lap_no sc st order hist
  = push_history cfg' lap_no sc st order hist.
Proof.
  intros Hb. unfold push_history. revert hist.
  induction order as [|n order IH]; intros hist; cbn [foldl]; [done|].
  rewrite IH. f_equal.
  destruct (st !! n) as [s|]; [|done]. destruct (st_running s); [|done].
  by rewrite Hb.
Qed.

Lemma lap_step_ext cfg cfg' lap_no σ :
  (∀ n, will_pit cfg lap_no n = will_pit cfg' lap_no n) →
  (∀ n old, new_compound cfg lap_no n old = new_compound cfg' lap_no n old) →
  (∀ sc n s, build_step cfg lap_no sc n s = build_step cfg' lap_no sc n s) →
  pit_loss cfg = pit_loss cfg' →
  safety_cars cfg = safety_cars cfg' →
  apply_dnfs cfg lap_no (sim_state σ) = apply_dnfs cfg' lap_no (sim_state σ) →
  lap_step cfg lap_no σ = lap_step cfg' lap_no σ.
Proof.
  intros Hw Hn Hb Hp Hsc Hd. unfold lap_step. rewrite <-Hsc, <-Hd.
  rewrite (predict_lap_ext cfg cfg').
  2:{ intros n s. unfold lap_time. by rewrite Hb, Hw, Hp. }
  destruct (predict_lap cfg' _ _ _ _ _ _) as [lt|]; simpl; [|done].
  f_equal. unfold finish_lap. rewrite <-Hsc, <-Hd.
  rewrite (update_tyres_ext cfg cfg').
  2:{ intros n s. unfold tyre_update. by rewrite Hw, Hn. }
  by rewrite (push_history_ext cfg cfg') by done.
Qed.

Lemma run_laps_ext cfg cfg' laps σ :
  (∀ l σ, l ∈ laps → wf_sim cfg σ → lap_step cfg l σ = lap_step cfg' l σ) →
  wf_sim cfg σ →
  run_laps cfg laps σ = run_laps cfg' laps σ.
Proof.
  revert σ. induction laps as [|l laps IH]; intros σ Hstep Hwf; simpl; [done|].
  rewrite <-Hstep by (done || left).
  destruct (lap_step cfg l σ) as [σ1|] eqn:H1; simpl; [|done].
  apply IH; [|by eapply lap_step_wf].
  intros l' σ' Hl'. apply Hstep. by right.
Qed.

(** ** Retirement entries for unknown drivers *)

Lemma apply_dnfs_unknown cfg l1 l2 n r lap_no (st : gmap string DriverState) :
  dnfs cfg = l1 ++ (n, r) :: l2 → st !! n = None →
  apply_dnfs cfg lap_no st = apply_dnfs (with_dnfs (l1 ++ l2) cfg) lap_no st.
Proof.
  intros Hd Hn. unfold apply_dnfs. rewrite Hd. cbn [with_dnfs dnfs].
  rewrite !foldl_app. cbn [foldl]. f_equal.
  pose proof (apply_dnfs_lookup (with_dnfs l1 cfg) lap_no st n) as H1.
  unfold apply_dnfs in H1. cbn [with_dnfs dnfs] in H1. rewrite Hn in H1.
  unfold running_of at 1. rewrite H1. simpl. by rewrite andb_false_r.
Qed.

(** C10: a retirement entry that names a driver outside the roster is
    skipped by the [# DNFs] loop: after every number of laps the run with
    the entry is the run without it (same states, same exception if any),
    and so is the outcome of [simulate]. *)
Theorem C10_unknown_dnf_ignored cfg l1 l2 n r :
  dnfs cfg = l1 ++ (n, r) :: l2 →
  n ∉ map name (drivers cfg) →
  (∀ k, run_to cfg k = run_to (with_dnfs (l1 ++ l2) cfg) k) ∧
  simulate cfg = simulate (with_dnfs (l1 ++ l2) cfg).
Proof.
  intros Hd Hn.
  assert (∀ k, run_to cfg k = run_to (with_dnfs (l1 ++ l2) cfg) k) as Hrun.
  { intros k. unfold run_to.
    change (init_sim (with_dnfs (l1 ++ l2) cfg)) with (init_sim cfg).
    apply run_laps_ext; [|apply init_wf].
    intros l σ _ (_ & Hst & _). apply lap_step_ext; try done.
    eapply apply_dnfs_unknown; [done|].
    apply eq_None_not_Some. by rewrite Hst. }
  split; [done|]. unfold simulate. rewrite Hrun. done.
Qed.

(** ** Rolling history *)

Lemma wf_NoDup_order cfg σ :
  wf_sim cfg σ → NoDup (map name (drivers cfg)) → NoDup (sim_order σ).
Proof. intros (Hp & _) Hnd. by rewrite Hp. Qed.

Lemma wf_in_order cfg σ n :
  wf_sim cfg σ → n ∈ sim_order σ ↔ n ∈ map name (drivers cfg).
Proof. intros (Hp & _). by rewrite Hp. Qed.

Lemma py_last_snoc {A} (m : nat) (l : list A) (x : A) :
  m ≠ O → py_last m (py_last m l ++ [x]) = py_last m (l ++ [x]).
Proof.
  destruct m as [|m]; [done|]. intros _. cbn [py_last].
  rewrite !length_app, length_drop. cbn [length].
  destruct (decide (length l ≤ S m)%nat) as [Hle|Hgt].
  - replace (length l - S m)%nat with O by lia.
    by rewrite drop_0, Nat.sub_0_r.
  - rewrite drop_app_le by (rewrite length_drop; lia).
    rewrite drop_drop. rewrite (drop_app_le l) by lia. do 2 f_equal. lia.
Qed.

Lemma lap_step_history cfg lap_no σ σ' n s' :
  lap_step cfg lap_no σ = Done σ' →
  NoDup (sim_order σ) → n ∈ sim_order σ → sim_state σ' !! n = Some s' →
  sim_history σ' !! n =
  (λ h, if st_running s'
        then py_last max_len
               (h ++ [build_step cfg lap_no (_is_sc lap_no (safety_cars cfg)) n s'])
        else h) <$> sim_history σ !! n.
Proof.
  intros (lt & _ & ->)%lap_step_Done Hnd Hn Hs'.
  cbn [finish_lap sim_history sim_state] in *.
  rewrite push_history_lookup by done. rewrite bool_decide_eq_true_2 by done.
  unfold hist_push. by rewrite Hs'.
Qed.

Lemma lap_step_history_length cfg lap_no σ σ' n h h' :
  max_len ≠ O →
  lap_step cfg lap_no σ = Done σ' →
  sim_history σ !! n = Some h → sim_history σ' !! n = Some h' →
  (length h ≤ max_len)%nat → (length h' ≤ max_len)%nat.
Proof.
  intros Hm (lt & _ & ->)%lap_step_Done Hh Hh'.
  cbn [finish_lap sim_history] in Hh'. rewrite push_history_alt in Hh'.
  revert Hh'.
  generalize (update_tyres cfg lap_no (sim_order σ)
                (update_totals lt (apply_dnfs cfg lap_no (sim_state σ)))).
  intros st3 Hh'.
  assert (option_Forall2
            (λ a b : list (gmap string value),
               (length a ≤ max_len)%nat → (length b ≤ max_len)%nat)
            (Some h) (Some h')) as HR; [|by inversion HR].
  rewrite <-Hh, <-Hh'. apply foldl_alter_rel; [auto|auto|].
  intros v Hv. unfold hist_push.
  destruct (st3 !! n) as [s|]; [|done]. destruct (st_running s); [|done].
  rewrite py_last_length by done. lia.
Qed.

Lemma init_history_lookup cfg n h : init_history cfg !! n = Some h → h = [].
Proof.
  unfold init_history.
  assert (∀ l (m : gmap string (list (gmap string value))),
    (∀ h, m !! n = Some h → h = []) →
    foldl (λ h d, <[name d := []]> h) m l !! n = Some h → h = []) as H.
  { induction l as [|d l IH]; intros m Hm; cbn [foldl]; [apply Hm|].
    apply IH. intros h'. destruct (decide (name d = n)) as [->|].
    - rewrite lookup_insert_eq. congruence.
    - rewrite lookup_insert_ne by done. apply Hm. }
  apply H. intros h'. by rewrite lookup_empty.
Qed.

Lemma history_length_bound cfg k σ n h :
  max_len ≠ O → run_to cfg k = Done σ → sim_history σ !! n = Some h →
  (length h ≤ max_len)%nat.
Proof.
  intros Hm. rewrite run_to_clamp. assert (0 ≤ Z.max 0 k) as Hk by lia.
  revert Hk. generalize (Z.max 0 k). intros j Hj Hrun. revert h.
  revert j σ Hj Hrun.
  apply (run_to_ind cfg (λ j σ, ∀ h, sim_history σ !! n = Some h →
                                  (length h ≤ max_len)%nat)).
  - intros h ->%init_history_lookup. simpl. lia.
  - intros j σ σ' Hj Hrun IH Hstep h' Hh'.
    destruct (sim_history σ !! n) as [h|] eqn:Hh.
    + eapply lap_step_history_length; eauto.
    + apply lap_step_Done in Hstep as (lt & _ & ->).
      cbn [finish_lap sim_history] in Hh'.
      assert (is_Some (sim_history σ !! n)) as [? ?]; [|congruence].
      eapply push_history_dom. eauto.
Qed.

(** ** Retired drivers *)

Lemma run_to_ind_from cfg j σj (P : Z → Sim → Prop) :
  0 ≤ j → run_to cfg j = Done σj → P j σj →
  (∀ k σ σ', j ≤ k → run_to cfg k = Done σ → P k σ →
             lap_step cfg (k + 1) σ = Done σ' → P (k + 1) σ') →
  ∀ k σ, j ≤ k → run_to cfg k = Done σ → P k σ.
Proof.
  intros Hj Hrj Pj HS k σ Hjk Hrk.
  assert (0 ≤ k) as Hk by lia. revert Hjk. revert k σ Hk Hrk.
  apply (run_to_ind cfg (λ k σ, j ≤ k → P k σ)).
  - intros ?. assert (j = 0) as -> by lia.
    rewrite run_to_nonpos in Hrj by done. by injection Hrj as <-.
  - intros k σ σ' Hk Hrk IH Hstep Hjk.
    destruct (decide (j = k + 1)) as [->|].
    + rewrite run_to_succ, Hrk in Hrj by done. simpl in Hrj.
      rewrite Hstep in Hrj. by injection Hrj as <-.
    + eapply HS; eauto with lia.
Qed.

Lemma lap_step_retired cfg lap_no σ σ' n s :
  lap_step cfg lap_no σ = Done σ' →
  sim_state σ !! n = Some s →
  st_running s = false ∨ (n, lap_no) ∈ dnfs cfg →
  ∃ s' e, sim_state σ' !! n = Some s' ∧ st_running s' = false ∧
    st_total_time s' = st_total_time s ∧ st_team s' = st_team s ∧
    sim_timeline σ' = sim_timeline σ ++ [e] ∧ tl_lap e = lap_no ∧
    tl_lap_times e !! n = None.
Proof.
  intros (lt & Hp & ->)%lap_step_Done Hs Hret.
  assert (lt !! n = None) as Hlt.
  { rewrite (predict_lap_other _ _ _ _ _ _ _ _ n Hp); [apply lookup_empty|].
    right. unfold running_of. rewrite apply_dnfs_lookup, Hs. simpl.
    destruct Hret as [Hr|Hd].
    - by destruct (bool_decide _).
    - by rewrite bool_decide_eq_true_2. }
  destruct (finish_lap_state cfg lap_no σ lt n s Hs)
    as (s' & Hs' & Hr' & Ht' & _ & Htot').
  exists s'. eexists. split; [done|]. rewrite Hlt in Htot'.
  repeat split; try done.
  rewrite Hr'. destruct Hret as [Hr|Hd].
  - by destruct (bool_decide _).
  - by rewrite bool_decide_eq_true_2.
Qed.

(** Once the running flag is off it stays off, the total stays what it was,
    and no later timeline entry has a lap time for the driver. *)
Lemma retired_stays cfg j k σj σk n s :
  0 ≤ j ≤ k → run_to cfg j = Done σj → run_to cfg k = Done σk →
  sim_state σj !! n = Some s → st_running s = false →
  ∃ s', sim_state σk !! n = Some s' ∧ st_running s' = false ∧
    st_total_time s' = st_total_time s ∧ st_team s' = st_team s ∧
    ∀ e, e ∈ sim_timeline σk →
         e ∈ sim_timeline σj ∨ tl_lap_times e !! n = None.
Proof.
  intros [Hj Hjk] Hrj Hrk Hs Hr. revert k σk Hjk Hrk.
  apply (run_to_ind_from cfg j σj); [done|done| |].
  - exists s. repeat split; try done. by left.
  - intros k σ σ' Hjk Hrk (s1 & Hs1 & Hr1 & Ht1 & Hteam1 & Hno) Hstep.
    destruct (lap_step_retired _ _ _ _ n s1 Hstep Hs1 (or_introl Hr1))
      as (s' & e & Hs' & Hr' & Ht' & Hteam' & Htl & Hl & Hlt).
    exists s'. repeat split; try congruence.
    intros e'. rewrite Htl.
    intros [?|He%list_elem_of_singleton]%elem_of_app;
      [by apply Hno|right; by subst].
Qed.

Lemma running_before cfg j k σj σk n :
  0 ≤ j ≤ k → run_to cfg j = Done σj → run_to cfg k = Done σk →
  running_of (sim_state σk) n = true → running_of (sim_state σj) n = true.
Proof.
  intros Hjk Hrj Hrk Hr.
  destruct (running_of (sim_state σj) n) eqn:Hrj'; [done|].
  unfold running_of in *.
  destruct (sim_state σk !! n) as [sk|] eqn:Hsk; [|done].
  assert (is_Some (sim_state σj !! n)) as [sj Hsj].
  { destruct (run_to_wf _ _ _ Hrj) as (_ & Hj1 & _).
    destruct (run_to_wf _ _ _ Hrk) as (_ & Hk1 & _). apply Hj1, Hk1. eauto. }
  rewrite Hsj in Hrj'. simpl in *.
  destruct (retired_stays _ _ _ _ _ n sj Hjk Hrj Hrk Hsj Hrj')
    as (s' & Hs' & Hr' & _). congruence.
Qed.

(** ** What the rolling history holds *)

Lemma snapshot_at_run cfg n l σ s :
  run_to cfg l = Done σ → sim_state σ !! n = Some s →
  snapshot_at cfg n l =
  if st_running s
  then Some (build_step cfg l (_is_sc l (safety_cars cfg)) n s) else None.
Proof. intros Hr Hs. unfold snapshot_at. by rewrite Hr, Hs. Qed.

Lemma snapshots_between_app cfg n a l1 l2 :
  0 ≤ l1 → 0 ≤ l2 →
  snapshots_between cfg n a (l1 + l2) =
  snapshots_between cfg n a l1 ++ snapshots_between cfg n (a + l1) l2.
Proof.
  intros. unfold snapshots_between. by rewrite seqZ_app, omap_app by done.
Qed.

Lemma snapshots_between_one cfg n a :
  snapshots_between cfg n a 1 = option_list (snapshot_at cfg n a).
Proof.
  unfold snapshots_between. rewrite seqZ_cons, seqZ_nil by lia. simpl.
  by destruct (snapshot_at cfg n a).
Qed.

Lemma length_omap_all {A B} (f : A → option B) (l : list A) :
  (∀ x, x ∈ l → is_Some (f x)) → length (omap f l) = length l.
Proof.
  induction l as [|x l IH]; intros Hall; [done|].
  change (omap f (x :: l))
    with (match f x with Some y => y :: omap f l | None => omap f l end).
  destruct (Hall x) as [y ->]; [left|]. cbn [length]. rewrite IH; [done|].
  intros ??. apply Hall. by right.
Qed.

Lemma history_snapshots cfg k σ n :
  max_len ≠ O → NoDup (map name (drivers cfg)) → n ∈ map name (drivers cfg) →
  0 ≤ k → run_to cfg k = Done σ →
  sim_history σ !! n = Some (py_last max_len (snapshots_between cfg n 1 k)).
Proof.
  intros Hm Hnd Hn Hk Hrun. revert k σ Hk Hrun.
  apply (run_to_ind cfg (λ k σ, sim_history σ !! n
           = Some (py_last max_len (snapshots_between cfg n 1 k)))).
  - destruct (init_history cfg !! n) as [h|] eqn:Hh.
    + cbn [init_sim sim_history]. rewrite Hh.
      apply init_history_lookup in Hh as ->.
      unfold snapshots_between. rewrite seqZ_nil by lia. simpl.
      by destruct max_len.
    + apply eq_None_not_Some in Hh. destruct Hh.
      by apply init_history_lookup_is_Some.
  - intros k σ σ' Hk Hrk IH Hstep.
    pose proof (run_to_wf _ _ _ Hrk) as Hwf.
    pose proof (lap_step_wf _ _ _ _ Hstep Hwf) as Hwf'.
    assert (is_Some (sim_state σ' !! n)) as [s' Hs'] by by apply Hwf'.
    rewrite (lap_step_history _ _ _ _ n s' Hstep);
      [|by eapply wf_NoDup_order|by eapply wf_in_order|done].
    rewrite IH. simpl. f_equal.
    rewrite snapshots_between_app, snapshots_between_one by lia.
    replace (1 + k) with (k + 1) by lia.
    rewrite (snapshot_at_run cfg n (k + 1) σ' s');
      [|by rewrite run_to_succ, Hrk|done].
    destruct (st_running s'); simpl.
    + by apply py_last_snoc.
    + by rewrite app_nil_r.
Qed.

Lemma snapshots_all_present cfg k σ n a len :
  run_to cfg k = Done σ → running_of (sim_state σ) n = true →
  1 ≤ a → a + len - 1 ≤ k →
  length (snapshots_between cfg n a len) = Z.to_nat len.
Proof.
  intros Hrk Hr Ha Hlen. unfold snapshots_between.
  rewrite length_omap_all; [apply length_seqZ|].
  intros l Hl%elem_of_seqZ.
  destruct (run_to_prefix cfg l k σ Hrk) as [σl Hrl]; [lia|].
  pose proof (running_before cfg l k σl σ n ltac:(lia) Hrl Hrk Hr) as Hrl'.
  unfold running_of in Hrl'.
  destruct (sim_state σl !! n) as [sl|] eqn:Hsl; [|done]. simpl in Hrl'.
  rewrite (snapshot_at_run _ _ _ _ _ Hrl Hsl), Hrl'. eauto.
Qed.

(** C6: at every lap boundary the rolling history of every driver of a
    roster with distinct names has at most [max_len] entries; it is the last
    [max_len] of the snapshots pushed for that driver so far, in lap order, so
    that the oldest ones are the ones dropped; and for a driver still running
    after [k >= max_len] laps it consists of exactly the [max_len] snapshots of
    laps [k - max_len + 1 .. k]. *)
Theorem C6_rolling_history_fifo cfg k σ n h :
  max_len ≠ O → NoDup (map name (drivers cfg)) →
  run_to cfg k = Done σ → sim_history σ !! n = Some h →
  (length h ≤ max_len)%nat ∧
  h = py_last max_len (snapshots_between cfg n 1 k) ∧
  (running_of (sim_state σ) n = true → Z.of_nat max_len ≤ k →
   h = snapshots_between cfg n (k - Z.of_nat max_len + 1) (Z.of_nat max_len)
   ∧ length h = max_len).
Proof.
  intros Hm Hnd Hrun Hh.
  split; [by eapply history_length_bound|].
  assert (n ∈ map name (drivers cfg)) as Hn.
  { apply (run_to_wf _ _ _ Hrun). eauto. }
  assert (h = py_last max_len (snapshots_between cfg n 1 k)) as Hsn.
  { destruct (decide (0 ≤ k)) as [Hk|Hk].
    - pose proof (history_snapshots cfg k σ n Hm Hnd Hn Hk Hrun). congruence.
    - rewrite run_to_nonpos in Hrun by lia. injection Hrun as <-.
      cbn [init_sim sim_history] in Hh. apply init_history_lookup in Hh as ->.
      unfold snapshots_between. rewrite seqZ_nil by lia. simpl.
      by destruct max_len. }
  split; [done|]. intros Hr Hmk.
  assert (h = snapshots_between cfg n (k - Z.of_nat max_len + 1)
                (Z.of_nat max_len)) as ->.
  { rewrite Hsn. replace k with ((k - Z.of_nat max_len) + Z.of_nat max_len)
      at 1 by lia.
    rewrite snapshots_between_app by lia.
    destruct max_len as [|m] eqn:Hml; [done|]. cbn [py_last].
    rewrite <-Hml. rewrite length_app.
    rewrite (snapshots_all_present cfg k σ n 1) by (done || lia).
    rewrite (snapshots_all_present cfg k σ n (1 + _)) by (done || lia).
    rewrite Nat2Z.id.
    replace (Z.to_nat (k - Z.of_nat max_len) + max_len - max_len)%nat
      with (Z.to_nat (k - Z.of_nat max_len)) by lia.
    rewrite drop_app_length'
      by (by rewrite (snapshots_all_present cfg k σ n 1) by (done || lia)).
    f_equal. lia. }
  split; [done|].
  rewrite (snapshots_all_present cfg k σ n) by (done || lia). lia.
Qed.

(** ** The prediction index *)

Lemma init_state_lookup cfg n s :
  init_state cfg !! n = Some s →
  st_running s = true ∧ st_total_time s = 0%Q ∧ st_tyre_age s = 0 ∧
  ∃ d, d ∈ drivers cfg ∧ name d = n ∧ s = init_driver d.
Proof.
  unfold init_state.
  assert (∀ l (m : gmap string DriverState),
    foldl (λ st d, <[name d := init_driver d]> st) m l !! n = Some s →
    m !! n = Some s ∨ ∃ d, d ∈ l ∧ name d = n ∧ s = init_driver d) as H.
  { induction l as [|d l IH]; intros m; cbn [foldl]; [by left|].
    intros [Hm|(d' & ? & ? & ?)]%IH.
    - destruct (decide (name d = n)) as [<-|].
      + rewrite lookup_insert_eq in Hm. injection Hm as <-.
        right. exists d. split; [left|done].
      + rewrite lookup_insert_ne in Hm by done. by left.
    - right. exists d'. split; [by right|done]. }
  intros [Hm|(d & Hd & <- & ->)]%H; [by rewrite lookup_empty in Hm|].
  repeat split; try done. eauto.
Qed.

Lemma never_retired_running cfg k σ n :
  n ∈ map name (drivers cfg) → (∀ r, (n, r) ∉ dnfs cfg) →
  run_to cfg k = Done σ → running_of (sim_state σ) n = true.
Proof.
  intros Hn Hd. rewrite run_to_clamp. assert (0 ≤ Z.max 0 k) as Hk by lia.
  revert Hk. generalize (Z.max 0 k). intros j Hj Hrun. revert j σ Hj Hrun.
  apply (run_to_ind cfg (λ j σ, running_of (sim_state σ) n = true)).
  - unfold running_of. cbn [init_sim sim_state].
    destruct (init_state cfg !! n) as [s|] eqn:Hs.
    + simpl. by apply init_state_lookup in Hs as (-> & _).
    + apply eq_None_not_Some in Hs. destruct Hs.
      by apply init_state_lookup_is_Some.
  - intros j σ σ' Hj Hrj IH (lt & _ & ->)%lap_step_Done.
    unfold running_of in *.
    destruct (sim_state σ !! n) as [s|] eqn:Hs; [|done]. simpl in IH.
    destruct (finish_lap_state cfg (j + 1) σ lt n s Hs) as (s' & -> & Hr' & _).
    simpl. rewrite Hr'. by rewrite bool_decide_eq_false_2.
Qed.

Lemma build_single_inputs_Done (hist : list (gmap string value)) X :
  build_single_inputs hist = Done X ↔
  let L := Nat.min (length hist) max_len in
  let steps := py_last L hist in
  ∃ drv_idx team_idx circ_idx comp_idx num_steps,
    traverse (λ s, _idx "driver" (get_val s "driver")) steps = Done drv_idx ∧
    traverse (λ s, _idx "team" (get_val s "team")) steps = Done team_idx ∧
    traverse (λ s, _idx "circuit" (get_val s "circuit")) steps
      = Done circ_idx ∧
    traverse (λ s, _idx "compound" (get_val s "compound")) steps
      = Done comp_idx ∧
    traverse (λ s, traverse (λ k, _num k (get_val s k)) num_cols) steps
      = Done num_steps ∧
    X = {| driver_seq := drv_idx ++ replicate (max_len - L) 0;
           team_seq := team_idx ++ replicate (max_len - L) 0;
           circuit_seq := circ_idx ++ replicate (max_len - L) 0;
           compound_seq := comp_idx ++ replicate (max_len - L) 0;
           num_seq := num_steps
                      ++ replicate (max_len - L)
                           (replicate (length num_cols) 0%Q) |}.
Proof.
  unfold build_single_inputs. cbv zeta. split.
  - intros (d & Hd & (t & Ht & (c & Hc & (p & Hp & (q & Hq & [= <-])%bind_Done)
      %bind_Done)%bind_Done)%bind_Done)%bind_Done.
    by exists d, t, c, p, q.
  - intros (d & t & c & p & q & -> & -> & -> & -> & -> & ->). done.
Qed.

Lemma build_single_inputs_total (hist : list (gmap string value)) :
  Forall encodable hist → ∃ X, build_single_inputs hist = Done X.
Proof.
  intros Hall.
  assert (∀ step, step ∈ py_last (Nat.min (length hist) max_len) hist →
                  encodable step) as Hsteps.
  { intros step Hin. rewrite Forall_forall in Hall. apply Hall.
    destruct (py_last_suffix (Nat.min (length hist) max_len) hist) as [pre ->].
    apply elem_of_app. by right. }
  assert (∀ key, key ∈ ["driver"; "team"; "circuit"; "compound"] →
            ∃ ys, traverse (λ s, _idx key (get_val s key))
                    (py_last (Nat.min (length hist) max_len) hist) = Done ys)
    as Hcat.
  { intros key Hkey. apply traverse_total. intros step Hstep.
    by apply (Hsteps step Hstep). }
  destruct (Hcat "driver") as [d Hd]; [set_solver|].
  destruct (Hcat "team") as [t Ht]; [set_solver|].
  destruct (Hcat "circuit") as [c Hc]; [set_solver|].
  destruct (Hcat "compound") as [p Hp]; [set_solver|].
  destruct (traverse_total
              (λ s, traverse (λ k, _num k (get_val s k)) num_cols)
              (py_last (Nat.min (length hist) max_len) hist)) as [q Hq].
  { intros step Hstep. apply traverse_total. intros k Hk.
    by apply (Hsteps step Hstep). }
  eexists. apply build_single_inputs_Done. cbv zeta.
  by exists d, t, c, p, q.
Qed.

Lemma build_single_inputs_Raise (hist : list (gmap string value)) e :
  build_single_inputs hist = Raise e →
  ∃ step, step ∈ hist ∧
    ((∃ key, key ∈ ["driver"; "team"; "circuit"; "compound"]
             ∧ _idx key (get_val step key) = Raise e)
     ∨ ∃ k, k ∈ num_cols ∧ _num k (get_val step k) = Raise e).
Proof.
  unfold build_single_inputs. cbv zeta.
  assert (∀ step, step ∈ py_last (Nat.min (length hist) max_len) hist →
                  step ∈ hist) as Hsub.
  { intros step Hin.
    destruct (py_last_suffix (Nat.min (length hist) max_len) hist) as [pre ->].
    apply elem_of_app. by right. }
  intros [H|(? & _ & [H|(? & _ & [H|(? & _ & [H|(? & _ & [H|(? & _ & [=])]
    %bind_Raise)]%bind_Raise)]%bind_Raise)]%bind_Raise)]%bind_Raise.
  - apply traverse_Raise in H as (step & Hin & H). exists step.
    split; [by apply Hsub|]. left. exists "driver". split; [set_solver|done].
  - apply traverse_Raise in H as (step & Hin & H). exists step.
    split; [by apply Hsub|]. left. exists "team". split; [set_solver|done].
  - apply traverse_Raise in H as (step & Hin & H). exists step.
    split; [by apply Hsub|]. left. exists "circuit". split; [set_solver|done].
  - apply traverse_Raise in H as (step & Hin & H). exists step.
    split; [by apply Hsub|]. left. exists "compound". split; [set_solver|done].
  - apply traverse_Raise in H as (step & Hin & (k & Hk & H)%traverse_Raise).
    exists step. split; [by apply Hsub|]. right. by exists k.
Qed.

Lemma build_single_inputs_length (hist : list (gmap string value)) X :
  max_len ≠ O → build_single_inputs hist = Done X →
  length (driver_seq X) = max_len ∧ length (team_seq X) = max_len ∧
  length (circuit_seq X) = max_len ∧ length (compound_seq X) = max_len ∧
  length (num_seq X) = max_len.
Proof.
  intros Hm (d & t & c & p & q & Hd%traverse_length & Ht%traverse_length
             & Hc%traverse_length & Hp%traverse_length & Hq%traverse_length
             & ->)%build_single_inputs_Done.
  cbn [driver_seq team_seq circuit_seq compound_seq num_seq].
  rewrite !length_app, !length_replicate, Hd, Ht, Hc, Hp, Hq.
  destruct (decide (length hist = O)) as [H0|H0].
  - rewrite H0. destruct hist; [|done]. simpl.
    destruct max_len; simpl; lia.
  - rewrite py_last_length by lia. lia.
Qed.

Lemma predict_sequence_Done (steps : list (gmap string value)) ys :
  predict_sequence steps = Done ys ↔
  ∃ X, build_single_inputs steps = Done X ∧ ys = model_predict X.
Proof.
  unfold predict_sequence. rewrite bind_Done. split.
  - intros (X & HX & [= <-]). eauto.
  - intros (X & HX & ->). eauto.
Qed.

Lemma lap_time_full_history cfg lap_no sc
    (hist : gmap string (list (gmap string value))) n s h t :
  (∀ X, length (model_predict X) = max_len) →
  hist !! n = Some h → length h = max_len →
  lap_time cfg lap_no sc hist n s ≠ Done t.
Proof.
  intros Hlen Hh Hfull (h' & ys & yhat & Hh' & Hys & Hy & _)%lap_time_Done.
  rewrite Hh in Hh'. injection Hh' as <-.
  apply predict_sequence_Done in Hys as (X & _ & ->).
  apply lookup_lt_Some in Hy. rewrite Hlen in Hy. lia.
Qed.

Lemma lap_time_returns cfg lap_no sc
    (hist : gmap string (list (gmap string value))) n s h :
  (∀ X, length (model_predict X) = max_len) → encodes_race cfg →
  hist !! n = Some h → Forall (race_step cfg) h → (length h < max_len)%nat →
  ∃ t, lap_time cfg lap_no sc hist n s = Done t.
Proof.
  intros Hlen Henc Hh Hall Hlt.
  destruct (build_single_inputs_total (h ++ [build_step cfg lap_no sc n s]))
    as [X HX].
  { apply Forall_app. split.
    - eapply Forall_impl; [done|]. apply Henc.
    - constructor; [|done]. apply Henc. by eexists _, _, _, _. }
  destruct (lookup_lt_is_Some_2 (model_predict X) (length h)) as [yhat Hy];
    [by rewrite Hlen|].
  eexists. apply lap_time_Done. exists h, (model_predict X), yhat.
  split; [done|]. split; [|done]. apply predict_sequence_Done. eauto.
Qed.

(** ** Which exceptions the lap loop raises *)

Lemma lap_time_Raise cfg lap_no sc
    (hist : gmap string (list (gmap string value))) n s e :
  is_Some (hist !! n) → lap_time cfg lap_no sc hist n s = Raise e →
  e = IndexError ∨
  ∃ h, hist !! n = Some h
       ∧ build_single_inputs (h ++ [build_step cfg lap_no sc n s]) = Raise e.
Proof.
  intros [h Hh]. unfold lap_time. rewrite Hh. simpl.
  intros [H|(ys & _ & [H|(yhat & _ & [=])]%bind_Raise)]%bind_Raise.
  - right. exists h. split; [done|]. unfold predict_sequence in H.
    by apply bind_Raise in H as [H|(X & _ & [=])].
  - left. unfold py_index in H.
    destruct (ys !! _); [discriminate|by injection H].
Qed.

Lemma predict_lap_Raise cfg lap_no sc (st : gmap string DriverState)
    (hist : gmap string (list (gmap string value))) order acc e :
  (∀ n, n ∈ order → is_Some (st !! n) ∧ is_Some (hist !! n)) →
  predict_lap cfg lap_no sc st hist order acc = Raise e →
  e = IndexError ∨
  ∃ n s h, hist !! n = Some h
    ∧ build_single_inputs (h ++ [build_step cfg lap_no sc n s]) = Raise e.
Proof.
  revert acc. induction order as [|n order IH]; intros acc Hall; simpl; [done|].
  destruct (Hall n) as [[s ->] Hh]; [left|].
  assert (∀ n, n ∈ order → is_Some (st !! n) ∧ is_Some (hist !! n)) as Hall'.
  { intros ??. apply Hall. by right. }
  destruct (st_running s); [|by apply IH].
  intros [H|(t & _ & H)]%bind_Raise; [|by eapply IH].
  destruct (lap_time_Raise _ _ _ _ _ _ _ Hh H) as [->|(h & ? & ?)];
    [by left|].
  right. by exists n, s, h.
Qed.

Lemma lap_step_Raise cfg lap_no σ e :
  wf_sim cfg σ → lap_step cfg lap_no σ = Raise e →
  e = IndexError ∨
  ∃ n s h, sim_history σ !! n = Some h
    ∧ build_single_inputs
        (h ++ [build_step cfg lap_no (_is_sc lap_no (safety_cars cfg)) n s])
      = Raise e.
Proof.
  intros Hwf. pose proof Hwf as (Hord & Hst & Hh). unfold lap_step.
  intros [H|(lt & _ & [=])]%bind_Raise.
  eapply predict_lap_Raise; [|done].
  intros n Hn%(wf_in_order _ _ _ Hwf). split.
  - rewrite apply_dnfs_lookup. apply fmap_is_Some. by apply Hst.
  - by apply Hh.
Qed.

Lemma finish_lap_hist_inv cfg lap_no σ lt :
  hist_inv cfg σ → hist_inv cfg (finish_lap cfg lap_no σ lt).
Proof.
  intros Hinv n h'. cbn [finish_lap sim_history]. rewrite push_history_alt.
  match goal with |- foldl _ _ ?order !! n = _ → _ =>
    generalize order
  end.
  intros order Hh'.
  match type of Hh' with
    foldl (λ h k, alter (?f k) k h) _ _ !! _ = _ =>
    pose proof (foldl_alter_rel
      (λ a b : list (gmap string value),
         Forall (race_step cfg) a → Forall (race_step cfg) b)
      f order (sim_history σ) n) as Hrel
  end.
  rewrite Hh' in Hrel.
  destruct (sim_history σ !! n) as [h|] eqn:Hh.
  - assert (Forall (race_step cfg) h → Forall (race_step cfg) h') as Himp.
    { assert (option_Forall2
                (λ a b : list (gmap string value),
                   Forall (race_step cfg) a → Forall (race_step cfg) b)
                (Some h) (Some h')) as H2; [|by inversion H2].
      apply Hrel; [done|by eauto|].
      intros v Hv. unfold hist_push.
      match goal with |- Forall _ (match ?x with _ => _ end) =>
        destruct x as [s|]; [|done]
      end.
      destruct (st_running s); [|done].
      destruct (py_last_suffix max_len
                  (v ++ [build_step cfg lap_no
                           (_is_sc lap_no (safety_cars cfg)) n s]))
        as [pre Hpre].
      assert (Forall (race_step cfg)
                (v ++ [build_step cfg lap_no
                         (_is_sc lap_no (safety_cars cfg)) n s])) as Hall.
      { apply Forall_app. split; [done|]. constructor; [|done].
        by eexists _, _, _, _. }
      rewrite Hpre in Hall. by apply Forall_app in Hall as [_ ?]. }
    apply Himp. by apply (Hinv n).
  - exfalso. assert (option_Forall2
                (λ a b : list (gmap string value),
                   Forall (race_step cfg) a → Forall (race_step cfg) b)
                None (Some h')) as H2; [|by inversion H2].
    apply Hrel; [done|by eauto|].
    intros v Hv. unfold hist_push.
    match goal with |- Forall _ (match ?x with _ => _ end) =>
      destruct x as [s|]; [|done]
    end.
    destruct (st_running s); [|done].
    destruct (py_last_suffix max_len
                (v ++ [build_step cfg lap_no
                         (_is_sc lap_no (safety_cars cfg)) n s]))
      as [pre Hpre].
    assert (Forall (race_step cfg)
              (v ++ [build_step cfg lap_no
                       (_is_sc lap_no (safety_cars cfg)) n s])) as Hall.
    { apply Forall_app. split; [done|]. constructor; [|done].
      by eexists _, _, _, _. }
    rewrite Hpre in Hall. by apply Forall_app in Hall as [_ ?].
Qed.

Lemma init_hist_inv cfg : hist_inv cfg (init_sim cfg).
Proof.
  intros n h Hh. cbn [init_sim sim_history] in Hh.
  by apply init_history_lookup in Hh as ->.
Qed.

Lemma run_laps_hist_inv cfg laps σ σ' :
  run_laps cfg laps σ = Done σ' → hist_inv cfg σ → hist_inv cfg σ'.
Proof.
  revert σ. induction laps as [|l laps IH]; intros σ; simpl.
  - by intros [= <-].
  - intros (σ1 & (lt & _ & ->)%lap_step_Done & H2)%bind_Done Hinv.
    eapply IH; [done|]. by apply finish_lap_hist_inv.
Qed.

Lemma run_to_hist_inv cfg k σ : run_to cfg k = Done σ → hist_inv cfg σ.
Proof. intros H. eapply run_laps_hist_inv; [done|apply init_hist_inv]. Qed.

Lemma run_laps_Raise cfg laps σ e :
  wf_sim cfg σ → hist_inv cfg σ → run_laps cfg laps σ = Raise e →
  e = IndexError ∨
  ∃ steps, Forall (race_step cfg) steps ∧ build_single_inputs steps = Raise e.
Proof.
  revert σ. induction laps as [|l laps IH]; intros σ Hwf Hinv; simpl; [done|].
  intros [H|(σ' & Hstep & H)]%bind_Raise.
  - destruct (lap_step_Raise _ _ _ _ Hwf H) as [->|(n & s & h & Hh & H')];
      [by left|].
    right. eexists. split; [|done]. apply Forall_app. split.
    + by apply (Hinv n).
    + constructor; [|done]. by eexists _, _, _, _.
  - eapply IH; [by eapply lap_step_wf| |done].
    apply lap_step_Done in Hstep as (lt & _ & ->).
    by apply finish_lap_hist_inv.
Qed.

Lemma simulate_Raise cfg e :
  simulate cfg = Raise e →
  e = IndexError ∨
  ∃ steps, Forall (race_step cfg) steps ∧ build_single_inputs steps = Raise e.
Proof.
  unfold simulate, run_to. intros [H|(σ & _ & [=])]%bind_Raise.
  eapply run_laps_Raise; [apply init_wf|apply init_hist_inv|done].
Qed.

Lemma simulate_only_IndexError cfg e :
  encodes_race cfg → simulate cfg = Raise e → e = IndexError.
Proof.
  intros Henc [->|(steps & Hsteps & H)]%simulate_Raise; [done|].
  destruct (build_single_inputs_total steps) as [X HX]; [|congruence].
  eapply Forall_impl; [done|]. apply Henc.
Qed.

Lemma full_history_after_max_len cfg σ n :
  NoDup (map name (drivers cfg)) → n ∈ map name (drivers cfg) →
  (∀ r, (n, r) ∉ dnfs cfg) →
  run_to cfg (Z.of_nat max_len) = Done σ →
  ∃ h, sim_history σ !! n = Some h ∧ length h = max_len.
Proof.
  intros Hnd Hn Hd Hrun.
  assert (is_Some (sim_history σ !! n)) as [h Hh]
    by by apply (run_to_wf _ _ _ Hrun).
  exists h. split; [done|].
  destruct (decide (max_len = O)) as [Hm|Hm].
  - rewrite Hm in *. rewrite run_to_nonpos in Hrun by done.
    injection Hrun as <-. cbn [init_sim sim_history] in Hh.
    by apply init_history_lookup in Hh as ->.
  - rewrite (history_snapshots cfg (Z.of_nat max_len) σ n Hm Hnd Hn) in Hh
      by (done || lia).
    injection Hh as <-. rewrite py_last_length by done.
    rewrite (snapshots_all_present cfg (Z.of_nat max_len) σ n 1) by
      (done || lia || by eapply never_retired_running).
    lia.
Qed.

(** C1 (the code falls short of the claim): with a network that returns
    [max_len] predictions, as the one [build_lstm_model] builds does, the
    engine hands the predictor the history plus the current step, which after
    [max_len] laps are [max_len + 1] steps, and reads the prediction at index
    [max_len] of an array of length [max_len].  A race longer than [max_len]
    laps with a driver who never retires therefore never returns a result: it
    ends in an exception, which is [IndexError] whenever the encoders return
    on the steps of the race. *)
Theorem C1_index_out_of_range cfg n :
  (∀ X, length (model_predict X) = max_len) →
  NoDup (map name (drivers cfg)) → n ∈ map name (drivers cfg) →
  (∀ r, (n, r) ∉ dnfs cfg) →
  Z.of_nat max_len < total_laps cfg →
  ∃ e, simulate cfg = Raise e ∧ (encodes_race cfg → e = IndexError).
Proof.
  intros Hlen Hnd Hn Hd Hlaps.
  destruct (simulate cfg) as [res|e] eqn:Hsim;
    [|exists e; split; [done|];
      intros Henc; by apply (simulate_only_IndexError cfg e Henc)].
  exfalso. unfold simulate in Hsim. apply bind_Done in Hsim as (σ & Hrun & _).
  destruct (run_to_prefix cfg (Z.of_nat max_len + 1) _ σ Hrun) as [σ1 H1];
    [lia|].
  destruct (run_to_prefix cfg (Z.of_nat max_len) _ σ1 H1) as [σ0 H0]; [lia|].
  assert (lap_step cfg (Z.of_nat max_len + 1) σ0 = Done σ1) as Hstep.
  { apply run_to_step; [lia| |done].
    by replace (Z.of_nat max_len + 1 - 1) with (Z.of_nat max_len) by lia. }
  destruct (full_history_after_max_len cfg σ0 n Hnd Hn Hd H0) as (h & Hh & Hfull).
  pose proof (never_retired_running cfg _ σ0 n Hn Hd H0) as Hr.
  unfold running_of in Hr.
  destruct (sim_state σ0 !! n) as [s|] eqn:Hs; [|done]. simpl in Hr.
  destruct (lap_step_lap_time cfg _ σ0 σ1 n s Hstep) as (e & t & _ & _ & Ht & _);
    [by apply (wf_in_order cfg σ0 n (run_to_wf _ _ _ H0))|done|done|apply Hd|].
  by apply (lap_time_full_history _ _ _ _ _ _ h t Hlen Hh Hfull) in Ht.
Qed.

(** ** The classification *)

Lemma classify_dnf_elem (st : gmap string DriverState) order n s :
  n ∈ order → st !! n = Some s → st_running s = false →
  {| cr_pos := None; cr_driver := n; cr_team := st_team s;
     cr_total_time := st_total_time s; cr_status := DNF |}
  ∈ classify_dnf st order.
Proof.
  intros Hn Hs Hr. induction order as [|m order IH]; [by apply elem_of_nil in Hn|].
  simpl. apply elem_of_cons in Hn as [<-|Hn].
  - rewrite Hs, Hr. left.
  - destruct (st !! m) as [s'|]; [|by apply IH].
    destruct (st_running s'); [by apply IH|]. right. by apply IH.
Qed.

Lemma classify_finished_elem (st : gmap string DriverState) order pos row :
  row ∈ classify_finished st order pos →
  ∃ s p, st !! cr_driver row = Some s ∧ st_running s = true ∧
    cr_driver row ∈ order ∧
    row = {| cr_pos := Some p; cr_driver := cr_driver row; cr_team := st_team s;
             cr_total_time := st_total_time s; cr_status := Finished |}.
Proof.
  revert pos. induction order as [|m order IH]; intros pos; simpl.
  - by intros ?%elem_of_nil.
  - assert (∀ p, row ∈ classify_finished st order p →
      ∃ s p, st !! cr_driver row = Some s ∧ st_running s = true ∧
        cr_driver row ∈ m :: order ∧
        row = {| cr_pos := Some p; cr_driver := cr_driver row;
                 cr_team := st_team s; cr_total_time := st_total_time s;
                 cr_status := Finished |}) as IH'.
    { intros p (s & p' & ? & ? & ? & ?)%IH. exists s, p'.
      repeat split; try done. by right. }
    destruct (st !! m) as [s|] eqn:Hs; [|apply IH'].
    destruct (st_running s) eqn:Hr; [|apply IH'].
    intros [->|?]%elem_of_cons; [|by eapply IH'].
    exists s, pos. simpl. repeat split; try done. left.
Qed.

Lemma classify_dnf_inv (st : gmap string DriverState) order row :
  row ∈ classify_dnf st order →
  ∃ s, st !! cr_driver row = Some s ∧ st_running s = false ∧
    cr_driver row ∈ order ∧
    row = {| cr_pos := None; cr_driver := cr_driver row; cr_team := st_team s;
             cr_total_time := st_total_time s; cr_status := DNF |}.
Proof.
  induction order as [|m order IH]; simpl.
  - by intros ?%elem_of_nil.
  - assert (row ∈ classify_dnf st order →
      ∃ s, st !! cr_driver row = Some s ∧ st_running s = false ∧
        cr_driver row ∈ m :: order ∧
        row = {| cr_pos := None; cr_driver := cr_driver row;
                 cr_team := st_team s; cr_total_time := st_total_time s;
                 cr_status := DNF |}) as IH'.
    { intros (s & ? & ? & ? & ?)%IH. exists s.
      repeat split; try done. by right. }
    destruct (st !! m) as [s|] eqn:Hs; [|apply IH'].
    destruct (st_running s) eqn:Hr; [apply IH'|].
    intros [->|?]%elem_of_cons; [|by eapply IH'].
    exists s. simpl. repeat split; try done. left.
Qed.

(** ** Retirements *)

(** C4: a driver of the roster with a retirement scheduled at lap [r] of
    the race has the running flag off before the lap times of lap [r] are
    computed: no timeline entry from lap [r] on has a lap time for the driver
    (so neither lap time nor pit loss is charged), at every lap boundary from
    [r] on the driver's total is the total reached after lap [r - 1], and the
    final classification lists the driver as DNF, without position, with
    that total; no row lists the driver as finished. *)
Theorem C4_retirement cfg n r res :
  (n, r) ∈ dnfs cfg → 1 ≤ r ≤ total_laps cfg →
  n ∈ map name (drivers cfg) →
  simulate cfg = Done res →
  ∃ σr sr,
    run_to cfg (r - 1) = Done σr ∧ sim_state σr !! n = Some sr ∧
    (∀ e, e ∈ timeline res → r ≤ tl_lap e → tl_lap_times e !! n = None) ∧
    (∀ j σj, r ≤ j → run_to cfg j = Done σj →
       ∃ sj, sim_state σj !! n = Some sj ∧ st_running sj = false ∧
             st_total_time sj = st_total_time sr) ∧
    {| cr_pos := None; cr_driver := n; cr_team := st_team sr;
       cr_total_time := st_total_time sr; cr_status := DNF |}
      ∈ classification res ∧
    (∀ row, row ∈ classification res → cr_driver row = n →
       cr_status row = DNF ∧ cr_pos row = None ∧
       cr_total_time row = st_total_time sr).
Proof.
  intros Hd [Hr1 Hr2] Hn Hsim. unfold simulate in Hsim.
  apply bind_Done in Hsim as (σ & Hrun & [= <-]).
  cbn [timeline classification].
  destruct (run_to_prefix cfg r _ σ Hrun) as [σ1 H1]; [lia|].
  destruct (run_to_prefix cfg (r - 1) _ σ1 H1) as [σr Hr]; [lia|].
  pose proof (run_to_step cfg r σr σ1 Hr1 Hr H1) as Hstep.
  assert (is_Some (sim_state σr !! n)) as [sr Hsr]
    by by apply (run_to_wf _ _ _ Hr).
  destruct (lap_step_retired cfg r σr σ1 n sr Hstep Hsr (or_intror Hd))
    as (s1 & e1 & Hs1 & Hrun1 & Htot1 & Hteam1 & Htl1 & Hl1 & Hlt1).
  assert (∀ j σj, r ≤ j → run_to cfg j = Done σj →
     ∃ sj, sim_state σj !! n = Some sj ∧ st_running sj = false ∧
       st_total_time sj = st_total_time sr ∧ st_team sj = st_team sr ∧
       ∀ e, e ∈ sim_timeline σj → r ≤ tl_lap e → tl_lap_times e !! n = None)
    as Hafter.
  { intros j σj Hj Hrj.
    destruct (retired_stays cfg r j σ1 σj n s1 ltac:(lia) H1 Hrj Hs1 Hrun1)
      as (sj & Hsj & Hrunj & Htotj & Hteamj & Htlj).
    exists sj. repeat split; try congruence.
    intros e [He|He]%Htlj Hle; [|done].
    rewrite Htl1 in He.
    apply elem_of_app in He as [He|He%list_elem_of_singleton]; [|by subst].
    apply (timeline_entry_lap _ _ _ _ Hr) in He. lia. }
  destruct (Hafter _ σ Hr2 Hrun) as (s & Hs & Hrs & Htots & Hteams & Htls).
  exists σr, sr. repeat split; try done.
  - intros j σj Hj Hrj.
    destruct (Hafter j σj Hj Hrj) as (sj & ? & ? & ? & _). eauto.
  - unfold classify. apply elem_of_app. right.
    rewrite <-Htots, <-Hteams. apply classify_dnf_elem; try done.
    by apply (wf_in_order cfg σ n (run_to_wf _ _ _ Hrun)).
  - apply elem_of_app in H as [Hf|Hf].
    + apply classify_finished_elem in Hf as (s' & p & Hs' & Hr' & _).
      rewrite H0 in Hs'. congruence.
    + apply classify_dnf_inv in Hf as (s' & _ & _ & _ & ->). done.
  - apply elem_of_app in H as [Hf|Hf].
    + apply classify_finished_elem in Hf as (s' & p & Hs' & Hr' & _).
      rewrite H0 in Hs'. congruence.
    + apply classify_dnf_inv in Hf as (s' & _ & _ & _ & ->). done.
  - apply elem_of_app in H as [Hf|Hf].
    + apply classify_finished_elem in Hf as (s' & p & Hs' & Hr' & _).
      rewrite H0 in Hs'. congruence.
    + apply classify_dnf_inv in Hf as (s' & Hs' & _ & _ & ->).
      rewrite H0 in Hs'. simpl. congruence.
Qed.

(** ** Cumulative time *)

Lemma predict_lap_elem cfg lap_no sc st hist order lt n t :
  predict_lap cfg lap_no sc st hist order ∅ = Done lt → lt !! n = Some t →
  ∃ s, st !! n = Some s ∧ st_running s = true ∧
       lap_time cfg lap_no sc hist n s = Done t.
Proof.
  intros Hp Ht.
  destruct (predict_lap_keys _ _ _ _ _ _ _ _ _ Hp Ht) as [Hin Hr].
  unfold running_of in Hr. destruct (st !! n) as [s|] eqn:Hs; [|done].
  simpl in Hr. exists s. repeat split; try done.
  destruct (predict_lap_running _ _ _ _ _ _ _ _ n s Hp Hin Hs Hr)
    as (t' & Ht' & Hlt'). congruence.
Qed.

Lemma lap_time_nonneg cfg lap_no sc hist n s t :
  (∀ X, Forall (λ y, 0 <= y)%Q (model_predict X)) → (0 <= pit_loss cfg)%Q →
  lap_time cfg lap_no sc hist n s = Done t → (0 <= t)%Q.
Proof.
  intros Hpred Hpit (h & ys & yhat & _ & Hys & Hy & ->)%lap_time_Done.
  assert (0 <= yhat)%Q as Hy0.
  { apply predict_sequence_Done in Hys as (X & _ & ->).
    specialize (Hpred X). rewrite Forall_forall in Hpred. apply Hpred.
    by eapply list_elem_of_lookup_2. }
  destruct (will_pit cfg lap_no n); [|done]. lra.
Qed.

Lemma lap_step_total cfg lap_no σ σ' n :
  (∀ X, Forall (λ y, 0 <= y)%Q (model_predict X)) → (0 <= pit_loss cfg)%Q →
  lap_step cfg lap_no σ = Done σ' →
  (total_time_of (sim_state σ) n <= total_time_of (sim_state σ') n)%Q.
Proof.
  intros Hpred Hpit (lt & Hp & ->)%lap_step_Done. unfold total_time_of.
  destruct (sim_state σ !! n) as [s|] eqn:Hs.
  - destruct (finish_lap_state cfg lap_no σ lt n s Hs)
      as (s' & -> & _ & _ & _ & Htot). simpl. rewrite Htot.
    destruct (lt !! n) as [t|] eqn:Ht; simpl; [|apply Qle_refl].
    destruct (predict_lap_elem _ _ _ _ _ _ _ _ _ Hp Ht) as (s1 & _ & _ & Hlt).
    pose proof (lap_time_nonneg _ _ _ _ _ _ _ Hpred Hpit Hlt) as H0.
    lra.
  - rewrite finish_lap_state_None by done. apply Qle_refl.
Qed.

(** C5, as the code has it: when the predictions and the pit loss in use
    are not negative, the total time of every driver never decreases from one
    lap boundary to a later one; and from the boundary at which a driver's
    running flag is off, the flag stays off and the total never changes
    again (so the total moves only while the driver is running). *)
Theorem C5_cumulative_time_monotone cfg j k σj σk n :
  (∀ X, Forall (λ y, 0 <= y)%Q (model_predict X)) → (0 <= pit_loss cfg)%Q →
  0 ≤ j ≤ k → run_to cfg j = Done σj → run_to cfg k = Done σk →
  (total_time_of (sim_state σj) n <= total_time_of (sim_state σk) n)%Q ∧
  (running_of (sim_state σj) n = false →
   running_of (sim_state σk) n = false ∧
   total_time_of (sim_state σk) n = total_time_of (sim_state σj) n).
Proof.
  intros Hpred Hpit [Hj Hjk] Hrj Hrk. split.
  - revert k σk Hjk Hrk.
    apply (run_to_ind_from cfg j σj
             (λ k σ, (total_time_of (sim_state σj) n
                      <= total_time_of (sim_state σ) n)%Q)); [done|done| |].
    + apply Qle_refl.
    + intros k σ σ' _ _ IH Hstep. eapply Qle_trans; [apply IH|].
      by eapply lap_step_total.
  - intros Hr. unfold running_of, total_time_of in *.
    destruct (sim_state σj !! n) as [s|] eqn:Hs.
    + simpl in Hr.
      destruct (retired_stays cfg j k σj σk n s (conj Hj Hjk) Hrj Hrk Hs Hr)
        as (s' & -> & Hr' & Ht' & _). simpl. done.
    + assert (sim_state σk !! n = None) as ->; [|done].
      apply eq_None_not_Some.
      destruct (run_to_wf _ _ _ Hrj) as (_ & Hwj & _).
      destruct (run_to_wf _ _ _ Hrk) as (_ & Hwk & _).
      intros Hk%Hwk%Hwj. rewrite Hs in Hk. by destruct Hk.
Qed.

(** ** Pit stops *)

Lemma will_pit_spec cfg lap_no n :
  will_pit cfg lap_no n = true ↔
  ∃ ev, ev ∈ default [] (strategy cfg !! n) ∧ lap ev = lap_no.
Proof.
  unfold will_pit. rewrite existsb_exists. split.
  - intros (ev & Hin & Hl%Z.eqb_eq). exists ev. by rewrite list_elem_of_In.
  - intros (ev & Hin & Hl). exists ev. rewrite <-list_elem_of_In.
    split; [done|]. by apply Z.eqb_eq.
Qed.

Lemma will_pit_first cfg lap_no n :
  will_pit cfg lap_no n = true →
  ∃ ev, head (filter (λ e, lap e = lap_no) (default [] (strategy cfg !! n)))
        = Some ev ∧ lap ev = lap_no.
Proof.
  intros (ev & Hin & Hl)%will_pit_spec.
  assert (ev ∈ filter (λ e, lap e = lap_no) (default [] (strategy cfg !! n)))
    as Hf by by apply list_elem_of_filter.
  destruct (filter _ _) as [|ev' l] eqn:Heq; [by apply elem_of_nil in Hf|].
  exists ev'. split; [done|].
  assert (ev' ∈ filter (λ e, lap e = lap_no) (default [] (strategy cfg !! n)))
    as Hf' by (rewrite Heq; left).
  by apply list_elem_of_filter in Hf' as [? _].
Qed.

Lemma lap_step_running_state cfg lap_no σ σ' n s :
  lap_step cfg lap_no σ = Done σ' →
  NoDup (sim_order σ) → n ∈ sim_order σ →
  sim_state σ !! n = Some s → st_running s = true → (n, lap_no) ∉ dnfs cfg →
  ∃ e t, last (sim_timeline σ') = Some e ∧ tl_lap e = lap_no ∧
    lap_time cfg lap_no (_is_sc lap_no (safety_cars cfg)) (sim_history σ) n s
      = Done t ∧
    tl_lap_times e !! n = Some t ∧
    sim_state σ' !! n = Some (tyre_update cfg lap_no n (add_total_time t s)).
Proof.
  intros Hstep Hnd Hn Hs Hr Hd.
  destruct (lap_step_lap_time cfg lap_no σ σ' n s Hstep Hn Hs Hr Hd)
    as (e & t & He & Hl & Ht & Hlt).
  exists e, t. repeat split; try done.
  apply lap_step_Done in Hstep as (lt & _ & ->).
  cbn [finish_lap sim_timeline] in He. rewrite last_snoc in He.
  injection He as <-. cbn [tl_lap_times] in Hlt.
  cbn [finish_lap sim_state].
  rewrite update_tyres_lookup by done.
  rewrite update_totals_lookup, apply_dnfs_lookup, Hs, Hlt. simpl.
  rewrite bool_decide_eq_true_2 by done.
  by rewrite bool_decide_eq_false_2 by done.
Qed.

(** C2: on lap [k], for a running driver of a roster with distinct names,
    the predictor is asked about the history followed by a step built from
    the state before the lap, so it sees the pre-pit compound and tyre age
    (a weather override that writes these keys apart).  If the plan has an
    event for the driver at lap [k], the recorded lap time is the prediction
    plus the pit loss, and afterwards the compound is that of the first such
    event and the tyre age is 0; if it has none, the recorded lap time is the
    prediction, the compound stays and the tyre age grows by 1. *)
Theorem C2_pit_lap cfg k σ σ' n s :
  NoDup (map name (drivers cfg)) →
  1 ≤ k → run_to cfg (k - 1) = Done σ → run_to cfg k = Done σ' →
  sim_state σ !! n = Some s → st_running s = true → (n, k) ∉ dnfs cfg →
  ∃ e h yhat_seq yhat s',
    last (sim_timeline σ') = Some e ∧ tl_lap e = k ∧
    sim_history σ !! n = Some h ∧ sim_state σ' !! n = Some s' ∧
    predict_sequence
      (h ++ [build_step cfg k (_is_sc k (safety_cars cfg)) n s])
      = Done yhat_seq ∧
    yhat_seq !! length h = Some yhat ∧
    (not_overridden cfg k "compound" →
     build_step cfg k (_is_sc k (safety_cars cfg)) n s !! "compound"
     = Some (VStr (st_compound s))) ∧
    (not_overridden cfg k "tyre_age" →
     build_step cfg k (_is_sc k (safety_cars cfg)) n s !! "tyre_age"
     = Some (VInt (st_tyre_age s))) ∧
    (will_pit cfg k n = true →
     tl_lap_times e !! n = Some (yhat + pit_loss cfg)%Q ∧
     st_tyre_age s' = 0 ∧
     ∃ ev, head (filter (λ ev, lap ev = k) (default [] (strategy cfg !! n)))
           = Some ev ∧ st_compound s' = compound ev) ∧
    (will_pit cfg k n = false →
     tl_lap_times e !! n = Some yhat ∧
     st_tyre_age s' = st_tyre_age s + 1 ∧ st_compound s' = st_compound s).
Proof.
  intros Hnd Hk Hr0 Hr1 Hs Hr Hd.
  pose proof (run_to_step cfg k σ σ' Hk Hr0 Hr1) as Hstep.
  pose proof (run_to_wf _ _ _ Hr0) as Hwf.
  assert (n ∈ sim_order σ) as Hn.
  { apply (wf_in_order _ _ _ Hwf). destruct Hwf as (_ & Hst & _).
    apply Hst. eauto. }
  destruct (lap_step_running_state cfg k σ σ' n s Hstep
              (wf_NoDup_order _ _ Hwf Hnd) Hn Hs Hr Hd)
    as (e & t & He & Hl & Ht & Hlt & Hs').
  apply lap_time_Done in Ht as (h & ys & yhat & Hh & Hys & Hy & ->).
  exists e, h, ys, yhat, (tyre_update cfg k n
    (add_total_time (if will_pit cfg k n then (yhat + pit_loss cfg)%Q else yhat) s)).
  repeat split; try done.
  - by apply build_step_compound.
  - by apply build_step_tyre_age.
  - by rewrite Hlt, H.
  - unfold tyre_update. simpl. by rewrite Hr, H.
  - destruct (will_pit_first cfg k n H) as (ev & Hev & _).
    exists ev. split; [done|]. unfold tyre_update. simpl. rewrite Hr, H. simpl.
    unfold new_compound. by rewrite Hev.
  - by rewrite Hlt, H.
  - unfold tyre_update. simpl. by rewrite Hr, H.
  - unfold tyre_update. simpl. by rewrite Hr, H.
Qed.

(** ** Pit loss *)

Lemma Qltb_lt (x y : Q) : Qltb x y = true ↔ (x < y)%Q.
Proof.
  unfold Qltb. rewrite negb_true_iff, <-not_true_iff_false, Qle_bool_iff.
  split; [apply Qnot_le_lt|apply Qlt_not_le].
Qed.

Lemma sorted_length {A K} (ltb : K → K → bool) (key : A → K) l :
  length (sorted ltb key l) = length l.
Proof. apply Permutation_length, sorted_perm. Qed.

Lemma Qltb_false (x y : Q) : Qltb x y = false ↔ (y <= x)%Q.
Proof.
  unfold Qltb. rewrite negb_false_iff. apply Qle_bool_iff.
Qed.

Lemma insert_by_sorted {A} (key : A → Q) x l :
  StronglySorted (λ a b, key a <= key b)%Q l →
  StronglySorted (λ a b, key a <= key b)%Q (insert_by Qltb key x l).
Proof.
  induction 1 as [|y l Hl IH Hy]; simpl.
  - repeat constructor.
  - destruct (Qltb (key y) (key x)) eqn:Hlt.
    + constructor; [done|]. rewrite insert_by_perm. constructor; [|done].
      apply Qltb_lt in Hlt. by apply Qlt_le_weak.
    + apply Qltb_false in Hlt. constructor; [by constructor|].
      constructor; [done|]. eapply Forall_impl; [exact Hy|].
      intros z Hz. simpl in Hz. by eapply Qle_trans.
Qed.

Lemma sorted_sorted {A} (key : A → Q) l :
  StronglySorted (λ a b, key a <= key b)%Q (sorted Qltb key l).
Proof.
  induction l as [|x l IH]; simpl; [constructor|]. by apply insert_by_sorted.
Qed.

(** The model's [median] is the median in the sense of [is_median]. *)
Lemma median_spec (xs : list Q) (m : Q) : median xs = Some m → is_median xs m.
Proof.
  unfold median. cbv zeta. intros Hm. exists (sorted Qltb id xs).
  split; [apply sorted_perm|]. split; [apply (sorted_sorted id)|].
  destruct (length (sorted Qltb id xs)) as [|n] eqn:Hlen; [done|].
  destruct (Nat.odd (S n)); [done|].
  destruct (sorted Qltb id xs !! (S n / 2 - 1)%nat) as [a|]; [|done].
  destruct (sorted Qltb id xs !! (S n / 2)%nat) as [b|]; [|done].
  simpl in Hm. injection Hm as <-. by exists a, b.
Qed.

Lemma median_is_Some (xs : list Q) : xs ≠ [] → is_Some (median xs).
Proof.
  intros Hne. unfold median. cbv zeta.
  pose proof (sorted_length Qltb id xs) as Hlen. revert Hlen.
  generalize (sorted Qltb id xs). intros l Hlen.
  remember (length l) as n eqn:Hn.
  assert (0 < n)%nat as Hpos.
  { rewrite Hlen. destruct xs; [done|]. simpl. lia. }
  destruct n as [|n']; [lia|].
  assert (S n' / 2 < S n')%nat as Hhalf by (apply Nat.div_lt; lia).
  destruct (lookup_lt_is_Some_2 l (S n' / 2)%nat) as [b Hb]; [lia|].
  destruct (lookup_lt_is_Some_2 l (S n' / 2 - 1)%nat) as [a Ha]; [lia|].
  destruct (Nat.odd (S n')); [by rewrite Hb|].
  rewrite Ha. cbn [mbind option_bind]. rewrite Hb. cbn [mbind option_bind].
  eauto.
Qed.

Lemma estimate_group_other df (m : gmap string Q) c c' :
  c ≠ c' → estimate_group df m c' !! c = m !! c.
Proof.
  intros Hne. unfold estimate_group.
  destruct (kept_loss _); [|done]. by rewrite lookup_insert_ne.
Qed.

Lemma estimate_group_same df (m : gmap string Q) c :
  m !! c = None → estimate_group df m c !! c = kept_loss (group_rows c df).
Proof.
  intros Hm. unfold estimate_group.
  destruct (kept_loss _); [|done]. by rewrite lookup_insert_eq.
Qed.

Lemma estimate_foldl_notin df (m : gmap string Q) l c :
  c ∉ l → foldl (estimate_group df) m l !! c = m !! c.
Proof.
  revert m. induction l as [|c' l IH]; intros m Hc; cbn [foldl]; [done|].
  apply not_elem_of_cons in Hc as [Hne Hc].
  rewrite IH by done. by apply estimate_group_other.
Qed.

Lemma estimate_foldl_in df (m : gmap string Q) l c :
  NoDup l → c ∈ l → m !! c = None →
  foldl (estimate_group df) m l !! c = kept_loss (group_rows c df).
Proof.
  revert m. induction l as [|c' l IH]; intros m Hnd Hc Hm; cbn [foldl].
  - by apply elem_of_nil in Hc.
  - apply NoDup_cons in Hnd as [Hc' Hnd].
    destruct (decide (c = c')) as [<-|Hne].
    + rewrite estimate_foldl_notin by done. by apply estimate_group_same.
    + apply elem_of_cons in Hc as [?|Hc]; [done|].
      apply IH; [done|done|]. by rewrite estimate_group_other.
Qed.

Lemma estimate_lookup df c :
  _estimate_pit_loss true df !! c = kept_loss (group_rows c df).
Proof.
  unfold _estimate_pit_loss.
  destruct (decide (c ∈ remove_dups (map row_circuit df))) as [Hin|Hin].
  - apply estimate_foldl_in; [apply NoDup_remove_dups|done|apply lookup_empty].
  - rewrite estimate_foldl_notin, lookup_empty by done.
    assert (group_rows c df = []) as ->; [|done].
    unfold group_rows. clear -Hin.
    assert (∀ r, r ∈ df → row_circuit r ≠ c) as Hall.
    { intros r Hr <-. apply Hin, elem_of_remove_dups.
      by apply (list_elem_of_fmap_2 row_circuit). }
    clear Hin. induction df as [|r df IH]; [done|].
    rewrite filter_cons_False by (apply Hall; left).
    apply IH. intros r' ?. apply Hall. by right.
Qed.

(** C9: for a circuit with at least one pit lap and one non-pit lap the
    estimator takes the median over the pit laps of (lap time minus the median
    non-pit lap time), each median being the middle value of the values in
    ascending order or the mean of the two middle ones, and the table has
    that value for the circuit exactly when it lies strictly between 5 and
    60; a circuit with no pit lap or no non-pit lap has no entry.  When the
    table has no entry for the circuit of the race, the pit loss of the
    simulation is the configured default: it is what a pit lap adds to the
    prediction and what the result reports. *)
Theorem C9_pit_loss_estimate df circ cfg :
  pit_loss_by_circuit = _estimate_pit_loss true df →
  (base_times (group_rows circ df) ≠ [] →
   pit_times (group_rows circ df) ≠ [] →
   ∃ med_base loss,
     median (base_times (group_rows circ df)) = Some med_base ∧
     is_median (base_times (group_rows circ df)) med_base ∧
     median (map (λ t, t - med_base)%Q (pit_times (group_rows circ df)))
       = Some loss ∧
     is_median (map (λ t, t - med_base)%Q (pit_times (group_rows circ df)))
       loss ∧
     ((5 < loss)%Q ∧ (loss < 60)%Q → pit_loss_by_circuit !! circ = Some loss) ∧
     (¬ ((5 < loss)%Q ∧ (loss < 60)%Q) → pit_loss_by_circuit !! circ = None)) ∧
  (base_times (group_rows circ df) = [] ∨ pit_times (group_rows circ df) = [] →
   pit_loss_by_circuit !! circ = None) ∧
  (pit_loss_by_circuit !! circuit cfg = None →
   pit_loss cfg = default_pit_loss cfg ∧
   (∀ res, simulate cfg = Done res →
           pit_loss_used res = default_pit_loss cfg) ∧
   (∀ lap_no sc hist n s t,
      will_pit cfg lap_no n = true →
      lap_time cfg lap_no sc hist n s = Done t →
      ∃ h yhat_seq yhat, hist !! n = Some h ∧
        predict_sequence (h ++ [build_step cfg lap_no sc n s])
          = Done yhat_seq ∧
        yhat_seq !! length h = Some yhat ∧
        t = (yhat + default_pit_loss cfg)%Q)).
Proof.
  intros Htab. split; [|split].
  - intros Hb Hp.
    destruct (median_is_Some _ Hb) as [med_base Hmb].
    destruct (median_is_Some (map (λ t, t - med_base)%Q
                (pit_times (group_rows circ df)))) as [loss Hloss].
    { destruct (pit_times _); [done|discriminate]. }
    exists med_base, loss. split; [done|]. split; [by apply median_spec|].
    split; [done|]. split; [by apply median_spec|].
    rewrite Htab, estimate_lookup. unfold kept_loss, circuit_loss.
    destruct (base_times (group_rows circ df)) as [|b bs] eqn:Hbe; [done|].
    destruct (pit_times (group_rows circ df)) as [|p ps] eqn:Hpe; [done|].
    rewrite Hmb. cbn [mbind option_bind]. rewrite Hloss. split.
    + intros [H5%Qltb_lt H60%Qltb_lt]. by rewrite H5, H60.
    + intros Hband. destruct (Qltb 5 loss) eqn:H5; [|done].
      destruct (Qltb loss 60) eqn:H60; [|done].
      destruct Hband. split; by apply Qltb_lt.
  - intros Hempty. rewrite Htab, estimate_lookup. unfold kept_loss.
    destruct Hempty as [-> | ->]; [done|]. by destruct (base_times _).
  - intros Hnone. assert (pit_loss cfg = default_pit_loss cfg) as Hpl.
    { unfold pit_loss. by rewrite Hnone. }
    split; [done|]. split.
    + intros res (σ & _ & [= <-])%bind_Done. done.
    + intros lap_no sc hist n s t Hw
        (h & ys & yhat & Hh & Hys & Hy & ->)%lap_time_Done.
      exists h, ys, yhat. by rewrite Hw, Hpl.
Qed.

(** ** Sorting by time: ascending and stable *)

Lemma insert_by_filter_eq {A} (key : A → Q) (t : Q) x l :
  filter (λ a, Qeq_bool (key a) t = true) (insert_by Qltb key x l)
  = filter (λ a, Qeq_bool (key a) t = true) (x :: l).
Proof.
  induction l as [|y l IH]; simpl; [done|].
  destruct (Qltb (key y) (key x)) eqn:Hlt; [|done].
  rewrite (filter_cons _ y), IH, !filter_cons.
  destruct (decide (Qeq_bool (key y) t = true)) as [Hy|Hy]; [|done].
  destruct (decide (Qeq_bool (key x) t = true)) as [Hx|Hx]; [|done].
  apply Qeq_bool_iff in Hx, Hy. apply Qltb_lt in Hlt.
  rewrite Hx, Hy in Hlt. by apply Qlt_irrefl in Hlt.
Qed.

(** Drivers with equal times keep the order they came in. *)
Lemma sorted_stable {A} (key : A → Q) (t : Q) l :
  filter (λ a, Qeq_bool (key a) t = true) (sorted Qltb key l)
  = filter (λ a, Qeq_bool (key a) t = true) l.
Proof.
  induction l as [|x l IH]; simpl; [done|].
  rewrite insert_by_filter_eq, !filter_cons, IH. done.
Qed.

(** ** The running order *)

Lemma filter_all {A} (P : A → Prop) `{∀ x, Decision (P x)} (l : list A) :
  (∀ x, x ∈ l → P x) → filter P l = l.
Proof.
  induction l as [|x l IH]; intros Hall; [done|].
  rewrite filter_cons_True by (apply Hall; left).
  f_equal. apply IH. intros ??. apply Hall. by right.
Qed.

Lemma filter_none {A} (P : A → Prop) `{∀ x, Decision (P x)} (l : list A) :
  (∀ x, x ∈ l → ¬ P x) → filter P l = [].
Proof.
  induction l as [|x l IH]; intros Hall; [done|].
  rewrite filter_cons_False by (apply Hall; left).
  apply IH. intros ??. apply Hall. by right.
Qed.

Lemma finish_lap_running cfg lap_no σ lt n :
  is_Some (sim_state σ !! n) →
  running_of (sim_state (finish_lap cfg lap_no σ lt)) n
  = if bool_decide ((n, lap_no) ∈ dnfs cfg) then false
    else running_of (sim_state σ) n.
Proof.
  intros [s Hs]. unfold running_of.
  destruct (finish_lap_state cfg lap_no σ lt n s Hs) as (s' & -> & Hr & _).
  rewrite Hs. simpl. done.
Qed.

Lemma sorted_all_equal {A} (key : A → Q) l :
  (∀ x, x ∈ l → key x = 0%Q) →
  StronglySorted (λ a b, key a <= key b)%Q l.
Proof.
  induction l as [|x l IH]; intros Hall; constructor.
  - apply IH. intros ??. apply Hall. by right.
  - apply Forall_forall. intros y Hy.
    rewrite (Hall x) by left. rewrite (Hall y) by by right. apply Qle_refl.
Qed.

Lemma order_inv_init cfg : order_inv cfg 0 (init_sim cfg).
Proof.
  assert (∀ n, n ∈ init_order cfg →
            ∃ s, init_state cfg !! n = Some s ∧ st_running s = true
                 ∧ st_total_time s = 0%Q) as Hall.
  { intros n Hn. assert (is_Some (init_state cfg !! n)) as [s Hs].
    { apply init_state_lookup_is_Some.
      by apply (wf_in_order cfg (init_sim cfg) n (init_wf cfg)). }
    exists s. split; [done|]. by apply init_state_lookup in Hs as (? & ? & _). }
  assert (∀ n, n ∈ init_order cfg → running_of (init_state cfg) n = true)
    as Hrun.
  { intros n (s & Hs & Hr & _)%Hall. unfold running_of. by rewrite Hs. }
  cbn [init_sim]. unfold order_inv. cbn [sim_order sim_state].
  rewrite (filter_all (λ n, running_of (init_state cfg) n = true)) by done.
  rewrite (filter_none (λ n, running_of (init_state cfg) n = false))
    by (intros n ?%Hrun; congruence).
  split; [|split; [|split]].
  - intros n Hn. split; [intros _ r _; lia|intros _; by apply Hrun].
  - by rewrite app_nil_r.
  - apply (sorted_all_equal (total_time_of (init_state cfg))).
    intros n (s & Hs & _ & Ht)%Hall. unfold total_time_of. by rewrite Hs.
  - exists []. repeat constructor.
Qed.

Lemma sorted_replicate_app (k : Z) (m : nat) (laps : list Z) :
  StronglySorted (λ a b, b ≤ a) laps → Forall (λ r, r ≤ k) laps →
  StronglySorted (λ a b, b ≤ a) (replicate m (k + 1) ++ laps).
Proof.
  intros Hs Hk. induction m as [|m IH]; simpl; [done|].
  constructor; [done|]. apply Forall_app. split.
  - apply Forall_replicate. lia.
  - eapply Forall_impl; [exact Hk|]. intros; simpl in *; lia.
Qed.

Lemma order_inv_step cfg k σ lt :
  0 ≤ k → wf_sim cfg σ → order_inv cfg k σ →
  order_inv cfg (k + 1) (finish_lap cfg (k + 1) σ lt).
Proof.
  intros Hk Hwf (Hrun & Hsplit & _ & laps & Hret & Hsorted & Hle).
  set (σ' := finish_lap cfg (k + 1) σ lt).
  assert (∀ n, n ∈ sim_order σ →
            running_of (sim_state σ') n
            = if bool_decide ((n, k + 1) ∈ dnfs cfg) then false
              else running_of (sim_state σ) n) as Hr'.
  { intros n Hn. apply finish_lap_running.
    apply (wf_in_order cfg σ n Hwf) in Hn.
    destruct Hwf as (_ & Hst & _). by apply Hst. }
  set (F := filter (λ n, running_of (sim_state σ) n = true) (sim_order σ)) in *.
  set (D := filter (λ n, running_of (sim_state σ) n = false) (sim_order σ)) in *.
  set (S' := sorted Qltb (total_time_of (sim_state σ'))
               (filter (λ n, running_of (sim_state σ') n = true) (sim_order σ))).
  set (D' := filter (λ n, running_of (sim_state σ') n = false) (sim_order σ)).
  assert (sim_order σ' = S' ++ D') as Hord' by done.
  assert (∀ n, n ∈ S' → n ∈ sim_order σ ∧ running_of (sim_state σ') n = true)
    as HS'.
  { intros n Hn. unfold S' in Hn. rewrite sorted_perm in Hn.
    apply list_elem_of_filter in Hn. tauto. }
  assert (∀ n, n ∈ D' → n ∈ sim_order σ ∧ running_of (sim_state σ') n = false)
    as HD'.
  { intros n Hn. apply list_elem_of_filter in Hn. tauto. }
  assert (filter (λ n, running_of (sim_state σ') n = true) (sim_order σ') = S')
    as HfS.
  { rewrite Hord', filter_app.
    rewrite (filter_all _ S') by (intros n ?%HS'; tauto).
    rewrite (filter_none _ D') by (intros n [_ ?]%HD'; congruence).
    apply app_nil_r. }
  assert (filter (λ n, running_of (sim_state σ') n = false) (sim_order σ') = D')
    as HfD.
  { rewrite Hord', filter_app.
    rewrite (filter_none _ S') by (intros n [_ ?]%HS'; congruence).
    by rewrite (filter_all _ D') by (intros n ?%HD'; tauto). }
  unfold order_inv. rewrite HfS, HfD. split; [|split; [|split]].
  - intros n Hn.
    assert (n ∈ sim_order σ) as Hn0.
    { rewrite Hord' in Hn. apply elem_of_app in Hn as [?%HS'|?%HD']; tauto. }
    rewrite (Hr' n Hn0). specialize (Hrun n Hn0).
    destruct (decide ((n, k + 1) ∈ dnfs cfg)) as [Hd|Hd].
    + rewrite bool_decide_eq_true_2 by done. split; [done|].
      intros Hall. destruct (Hall _ Hd). lia.
    + rewrite bool_decide_eq_false_2 by done. rewrite Hrun. split.
      * intros Hall r Hr ?. destruct (decide (r = k + 1)) as [->|]; [done|].
        apply (Hall r Hr). lia.
      * intros Hall r Hr ?. apply (Hall r Hr). lia.
  - done.
  - apply (sorted_sorted (total_time_of (sim_state σ'))).
  - assert (D' = filter (λ n, running_of (sim_state σ') n = false) F ++ D)
      as ->.
    { unfold D'. rewrite Hsplit at 1. rewrite filter_app. f_equal.
      apply filter_all. intros n Hn.
      assert (n ∈ sim_order σ ∧ running_of (sim_state σ) n = false) as [Hn0 Hf].
      { apply list_elem_of_filter in Hn. tauto. }
      rewrite (Hr' n Hn0), Hf. by destruct (bool_decide _). }
    exists (replicate
              (length (filter (λ n, running_of (sim_state σ') n = false) F))
              (k + 1) ++ laps).
    split; [|split].
    + apply Forall2_app; [|done].
      apply Forall2_replicate_r; [done|].
      apply Forall_forall. intros n Hn.
      apply list_elem_of_filter in Hn as [Hf' Hn].
      apply list_elem_of_filter in Hn as [Hf Hn].
      rewrite (Hr' n Hn), Hf in Hf'.
      destruct (decide ((n, k + 1) ∈ dnfs cfg)) as [Hd|Hd];
        [|by rewrite bool_decide_eq_false_2 in Hf'].
      split; [done|]. split; [lia|]. intros r' Hr'' ?.
      pose proof (proj1 (Hrun n Hn) Hf r' Hr''). lia.
    + by apply sorted_replicate_app.
    + apply Forall_app. split; [apply Forall_replicate; lia|].
      eapply Forall_impl; [exact Hle|]. intros; simpl in *; lia.
Qed.

Lemma run_to_order_inv cfg k σ :
  0 ≤ k → run_to cfg k = Done σ → order_inv cfg k σ.
Proof.
  revert k σ. apply (run_to_ind cfg (order_inv cfg)).
  - apply order_inv_init.
  - intros k σ σ' Hk Hrun IH (lt & _ & ->)%lap_step_Done.
    apply order_inv_step; [done| |done]. by eapply run_to_wf.
Qed.

Lemma classify_finished_drivers (st : gmap string DriverState) order pos :
  map cr_driver (classify_finished st order pos)
  = filter (λ n, running_of st n = true) order.
Proof.
  revert pos. induction order as [|n order IH]; intros pos; simpl; [done|].
  destruct (st !! n) as [s|] eqn:Hs; [destruct (st_running s) eqn:Hr|].
  - rewrite filter_cons_True by (unfold running_of; by rewrite Hs).
    cbn [map cr_driver]. by rewrite IH.
  - rewrite filter_cons_False
      by (unfold running_of; rewrite Hs; simpl; congruence).
    apply IH.
  - rewrite filter_cons_False by (unfold running_of; by rewrite Hs).
    apply IH.
Qed.

Lemma classify_dnf_drivers (st : gmap string DriverState) order :
  (∀ n, n ∈ order → is_Some (st !! n)) →
  map cr_driver (classify_dnf st order)
  = filter (λ n, running_of st n = false) order.
Proof.
  induction order as [|n order IH]; intros Hall; simpl; [done|].
  destruct (Hall n) as [s Hs]; [left|]. rewrite Hs.
  assert (∀ n, n ∈ order → is_Some (st !! n)) as Hall'
    by (intros ??; apply Hall; by right).
  destruct (st_running s) eqn:Hr.
  - rewrite filter_cons_False
      by (unfold running_of; rewrite Hs; simpl; congruence).
    by apply IH.
  - rewrite filter_cons_True by (unfold running_of; by rewrite Hs).
    cbn [map cr_driver]. by rewrite IH.
Qed.

Lemma classify_finished_pos (st : gmap string DriverState) order pos :
  map cr_pos (classify_finished st order pos)
  = map Some (seqZ pos (Z.of_nat (length (classify_finished st order pos)))).
Proof.
  revert pos. induction order as [|n order IH]; intros pos; simpl; [done|].
  destruct (st !! n) as [s|]; [|apply IH].
  destruct (st_running s); [|apply IH].
  cbn [map length]. rewrite seqZ_cons by lia. cbn [map]. f_equal.
  rewrite IH. do 2 f_equal; lia.
Qed.

Lemma StronglySorted_rows (st : gmap string DriverState) (rows : list ClassRow) :
  Forall (λ row, cr_total_time row = total_time_of st (cr_driver row)) rows →
  StronglySorted (λ a b, total_time_of st a <= total_time_of st b)%Q
    (map cr_driver rows) →
  StronglySorted (λ a b, cr_total_time a <= cr_total_time b)%Q rows.
Proof.
  induction rows as [|row rows IH]; intros Hall Hs; [constructor|].
  apply Forall_cons in Hall as [Hrow Hall].
  cbn [map] in Hs. apply StronglySorted_cons in Hs as [Hfa Hs].
  constructor; [by apply IH|].
  apply Forall_forall. intros row' Hrow'.
  rewrite Forall_forall in Hfa. rewrite Forall_forall in Hall.
  rewrite Hrow, (Hall row' Hrow'). apply Hfa.
  by apply (list_elem_of_fmap_2 cr_driver).
Qed.

(** C7: the final classification is a list of finishers followed by a list
    of retired drivers; the drivers it names are those of the roster, each as
    often as the roster names it, so the two parts together have as many
    rows as there are drivers.  The finishers are the running drivers, with
    positions 1, 2, ..., k and totals in ascending order, drivers with equal
    totals in the order they had going into the last lap.  The retired
    drivers have no position and status DNF, and along their list the
    retirement lap never increases: who retired earlier stands lower. *)
Theorem C7_final_classification cfg res :
  simulate cfg = Done res →
  ∃ σ fin dnf laps,
    run_to cfg (total_laps cfg) = Done σ ∧
    classification res = fin ++ dnf ∧
    map cr_driver (classification res) ≡ₚ map name (drivers cfg) ∧
    (length fin + length dnf = length (drivers cfg))%nat ∧
    Forall (λ row, cr_status row = Finished ∧
                   running_of (sim_state σ) (cr_driver row) = true ∧
                   cr_total_time row
                   = total_time_of (sim_state σ) (cr_driver row)) fin ∧
    map cr_pos fin = map Some (seqZ 1 (Z.of_nat (length fin))) ∧
    StronglySorted (λ a b, cr_total_time a <= cr_total_time b)%Q fin ∧
    Forall (λ row, cr_status row = DNF ∧ cr_pos row = None ∧
                   running_of (sim_state σ) (cr_driver row) = false ∧
                   cr_total_time row
                   = total_time_of (sim_state σ) (cr_driver row)) dnf ∧
    Forall2 (λ row r, retires_at cfg (cr_driver row) r) dnf laps ∧
    StronglySorted (λ a b, b ≤ a) laps ∧
    (1 ≤ total_laps cfg →
     ∃ σp, run_to cfg (total_laps cfg - 1) = Done σp ∧
       ∀ t, filter (λ n, Qeq_bool (total_time_of (sim_state σ) n) t = true)
              (map cr_driver fin)
            = filter (λ n, Qeq_bool (total_time_of (sim_state σ) n) t = true)
                (filter (λ n, running_of (sim_state σ) n = true)
                   (sim_order σp))).
Proof.
  intros (σ & Hrun & [= <-])%bind_Done. cbn [classification].
  pose proof (run_to_wf _ _ _ Hrun) as Hwf.
  assert (order_inv cfg (Z.max 0 (total_laps cfg)) σ)
    as (_ & Hsplit & Hsorted & laps & Hret & Hlaps & _).
  { apply run_to_order_inv; [lia|]. by rewrite <-run_to_clamp. }
  set (st := sim_state σ) in *. set (order := sim_order σ) in *.
  assert (∀ n, n ∈ order → is_Some (st !! n)) as Hdom.
  { intros n Hn%(wf_in_order cfg σ n Hwf). destruct Hwf as (_ & Hst & _).
    by apply Hst. }
  exists σ, (classify_finished st order 1), (classify_dnf st order), laps.
  assert (Forall (λ row, cr_status row = Finished ∧
                   running_of st (cr_driver row) = true ∧
                   cr_total_time row = total_time_of st (cr_driver row))
            (classify_finished st order 1)) as Hfin.
  { apply Forall_forall. intros row (s & p & Hs & Hr & _ & ->)%classify_finished_elem.
    unfold running_of, total_time_of. simpl in *. by rewrite Hs. }
  assert (Forall (λ row, cr_status row = DNF ∧ cr_pos row = None ∧
                   running_of st (cr_driver row) = false ∧
                   cr_total_time row = total_time_of st (cr_driver row))
            (classify_dnf st order)) as Hdnf.
  { apply Forall_forall. intros row (s & Hs & Hr & _ & ->)%classify_dnf_inv.
    unfold running_of, total_time_of. simpl in *. by rewrite Hs. }
  split; [done|]. split; [done|]. split; [|split].
  { unfold classify. rewrite map_app, classify_finished_drivers,
      classify_dnf_drivers by done.
    fold st order. rewrite <-Hsplit. apply Hwf. }
  { rewrite <-(length_map cr_driver (classify_finished st order 1)),
      <-(length_map cr_driver (classify_dnf st order)), <-length_app.
    rewrite classify_finished_drivers, classify_dnf_drivers by done.
    rewrite <-Hsplit. destruct Hwf as (Hp & _).
    rewrite <-(length_map name (drivers cfg)). by apply Permutation_length. }
  split; [done|]. split; [apply classify_finished_pos|].
  split.
  { apply (StronglySorted_rows st).
    - eapply Forall_impl; [exact Hfin|]. by intros row (_ & _ & ?).
    - by rewrite classify_finished_drivers. }
  split; [done|]. split.
  { assert (Forall2 (retires_at cfg) (cr_driver <$> classify_dnf st order) laps)
      as H2;
      [|exact (proj1 (Forall2_fmap_l cr_driver (retires_at cfg) _ _) H2)].
    change (cr_driver <$> classify_dnf st order)
      with (map cr_driver (classify_dnf st order)).
    by rewrite classify_dnf_drivers. }
  split; [done|].
  intros Hlaps1.
  destruct (run_to_prefix cfg (total_laps cfg - 1) _ σ Hrun) as [σp Hp]; [lia|].
  exists σp. split; [done|]. intros t.
  pose proof (run_to_step cfg _ σp σ Hlaps1 Hp Hrun) as (lt & _ & Hσ)%lap_step_Done.
  assert (sim_order σ
          = sorted Qltb (total_time_of (sim_state σ))
              (filter (λ n, running_of (sim_state σ) n = true) (sim_order σp))
            ++ filter (λ n, running_of (sim_state σ) n = false) (sim_order σp))
    as Hord by (by rewrite Hσ).
  rewrite classify_finished_drivers. unfold order, st. clear Hσ.
  rewrite Hord, filter_app.
  rewrite (filter_all (λ n, running_of (sim_state σ) n = true) (sorted _ _ _)).
  2:{ intros n Hn. rewrite sorted_perm in Hn.
      by apply list_elem_of_filter in Hn as [Hn _]. }
  rewrite (filter_none (λ n, running_of (sim_state σ) n = true)
             (filter (λ n, running_of (sim_state σ) n = false) (sim_order σp))).
  2:{ intros n Hn. apply list_elem_of_filter in Hn as [Hn _]. congruence. }
  rewrite app_nil_r. apply sorted_stable.
Qed.

(** ** Configurations are not validated *)

Lemma length_omap_le {A B} (f : A → option B) (l : list A) :
  (length (omap f l) ≤ length l)%nat.
Proof.
  induction l as [|x l IH]; [done|].
  change (omap f (x :: l))
    with (match f x with Some y => y :: omap f l | None => omap f l end).
  destruct (f x); simpl; lia.
Qed.

Lemma predict_lap_total cfg lap_no sc (st : gmap string DriverState)
    hist order acc :
  (∀ n, n ∈ order → ∃ s, st !! n = Some s ∧
     (st_running s = true → ∃ t, lap_time cfg lap_no sc hist n s = Done t)) →
  ∃ lt, predict_lap cfg lap_no sc st hist order acc = Done lt.
Proof.
  revert acc. induction order as [|n order IH]; intros acc Hall; simpl; [eauto|].
  destruct (Hall n) as (s & -> & Hlt); [left|].
  assert (∀ n, n ∈ order → ∃ s, st !! n = Some s ∧
     (st_running s = true → ∃ t, lap_time cfg lap_no sc hist n s = Done t))
    as Hall' by (intros ??; apply Hall; by right).
  destruct (st_running s); [|by apply IH].
  destruct Hlt as [t ->]; [done|]. simpl. by apply IH.
Qed.

(** With a network that returns [max_len] predictions, a roster with
    distinct names and a race of at most [max_len] laps, every lap goes
    through. *)
Lemma run_to_returns cfg k :
  (∀ X, length (model_predict X) = max_len) →
  encodes_race cfg →
  NoDup (map name (drivers cfg)) →
  k ≤ Z.of_nat max_len →
  ∃ σ, run_to cfg k = Done σ.
Proof.
  intros Hlen Henc Hnd Hk. destruct (decide (k ≤ 0)) as [|Hpos].
  { rewrite run_to_nonpos by done. eauto. }
  assert (max_len ≠ O) as Hm by lia.
  assert (0 ≤ k) as Hk0 by lia. revert Hk. pattern k.
  apply natlike_ind; [| |done]; clear k Hpos Hk0.
  - intros _. rewrite run_to_nonpos by done. eauto.
  - intros k Hk0 IH Hk. destruct IH as [σ Hrun]; [lia|].
    unfold Z.succ. rewrite run_to_succ, Hrun by done. simpl.
    pose proof (run_to_wf _ _ _ Hrun) as Hwf.
    unfold lap_step.
    match goal with |- context [predict_lap ?a ?b ?c ?d ?e ?f ?g] =>
      destruct (predict_lap_total a b c d e f g) as [lt ->]; [|simpl; eauto]
    end.
    intros n Hn%(wf_in_order cfg σ n Hwf).
    assert (is_Some (sim_state σ !! n)) as [s Hs]
      by (destruct Hwf as (_ & Hst & _); by apply Hst).
    rewrite apply_dnfs_lookup, Hs. simpl. eexists. split; [done|].
    intros _.
    pose proof (history_snapshots cfg k σ n Hm Hnd Hn Hk0 Hrun) as Hh.
    eapply lap_time_returns; [done|done|exact Hh| |].
    + by apply (run_to_hist_inv cfg k σ Hrun n).
    + rewrite py_last_length by done. unfold snapshots_between.
      pose proof (length_omap_le (snapshot_at cfg n) (seqZ 1 k)) as Hle.
      rewrite length_seqZ in Hle. lia.
Qed.

Lemma simulate_returns cfg :
  (∀ X, length (model_predict X) = max_len) →
  encodes_race cfg →
  NoDup (map name (drivers cfg)) →
  total_laps cfg ≤ Z.of_nat max_len →
  ∃ res, simulate cfg = Done res.
Proof.
  intros Hlen Henc Hnd Hk. unfold simulate.
  destruct (run_to_returns cfg (total_laps cfg) Hlen Henc Hnd Hk) as [σ ->].
  simpl. eauto.
Qed.

Lemma in_range_events cfg n lap_no :
  1 ≤ lap_no ≤ total_laps cfg →
  filter (λ e, lap e = lap_no) (default [] (in_range_plan cfg !! n))
  = filter (λ e, lap e = lap_no) (default [] (strategy cfg !! n)).
Proof.
  intros Hl. unfold in_range_plan. rewrite lookup_fmap.
  destruct (strategy cfg !! n) as [evs|]; simpl; [|done].
  induction evs as [|e evs IH]; [done|].
  rewrite (filter_cons (λ e, 1 ≤ lap e ≤ total_laps cfg)).
  destruct (decide (1 ≤ lap e ≤ total_laps cfg)) as [Hin|Hout].
  - rewrite !(filter_cons (λ e, lap e = lap_no)), IH. done.
  - rewrite IH. rewrite filter_cons_False; [done|]. intros ?. apply Hout. lia.
Qed.

Lemma will_pit_filter cfg lap_no n :
  will_pit cfg lap_no n
  = bool_decide (filter (λ e, lap e = lap_no) (default [] (strategy cfg !! n))
                 ≠ []).
Proof.
  unfold will_pit. generalize (default [] (strategy cfg !! n)). intros evs.
  induction evs as [|e evs IH]; simpl; [done|].
  rewrite filter_cons. destruct (decide (lap e = lap_no)) as [->|Hne].
  - by rewrite Z.eqb_refl.
  - apply Z.eqb_neq in Hne. by rewrite Hne.
Qed.

Lemma in_range_plan_lap_step cfg lap_no σ :
  1 ≤ lap_no ≤ total_laps cfg →
  lap_step cfg lap_no σ = lap_step (with_strategy (in_range_plan cfg) cfg) lap_no σ.
Proof.
  intros Hl. apply lap_step_ext; try done.
  - intros n. rewrite !will_pit_filter. cbn [with_strategy strategy].
    by rewrite in_range_events.
  - intros n old. unfold new_compound. cbn [with_strategy strategy].
    by rewrite in_range_events.
Qed.

Lemma StronglySorted_weaken {A} (R R' : A → A → Prop) l :
  (∀ a b, R a b → R' a b) → StronglySorted R l → StronglySorted R' l.
Proof.
  intros HR. induction 1 as [|a l _ IH Hall]; constructor; [done|].
  eapply Forall_impl; [done|]. intros b. apply HR.
Qed.

Lemma insert_by_sorted_Z {A} (key : A → Z) x l :
  StronglySorted (λ a b, key a ≤ key b) l →
  StronglySorted (λ a b, key a ≤ key b) (insert_by Z.ltb key x l).
Proof.
  induction 1 as [|y l Hl IH Hy]; simpl.
  - repeat constructor.
  - destruct (Z.ltb_spec (key y) (key x)) as [Hlt|Hge].
    + constructor; [done|]. rewrite insert_by_perm. constructor; [lia|done].
    + constructor; [by constructor|]. constructor; [done|].
      eapply Forall_impl; [exact Hy|]. intros z Hz. simpl in Hz. lia.
Qed.

Lemma sorted_sorted_Z {A} (key : A → Z) l :
  StronglySorted (λ a b, key a ≤ key b) (sorted Z.ltb key l).
Proof.
  induction l as [|x l IH]; simpl; [constructor|]. by apply insert_by_sorted_Z.
Qed.

Lemma insert_by_filter_eq_Z {A} (key : A → Z) (g : Z) x l :
  filter (λ a, key a = g) (insert_by Z.ltb key x l)
  = filter (λ a, key a = g) (x :: l).
Proof.
  induction l as [|y l IH]; simpl; [done|].
  destruct (Z.ltb_spec (key y) (key x)) as [Hlt|Hge]; [|done].
  rewrite (filter_cons _ y), IH, !filter_cons.
  destruct (decide (key y = g)) as [Hy|Hy]; [|done].
  destruct (decide (key x = g)) as [Hx|Hx]; [|done]. lia.
Qed.

(** Names with equal grid positions keep the order of the roster. *)
Lemma sorted_stable_Z {A} (key : A → Z) (g : Z) l :
  filter (λ a, key a = g) (sorted Z.ltb key l) = filter (λ a, key a = g) l.
Proof.
  induction l as [|x l IH]; simpl; [done|].
  rewrite insert_by_filter_eq_Z, !filter_cons, IH. done.
Qed.

Lemma init_state_last cfg n :
  init_state cfg !! n
  = init_driver <$> last (filter (λ d, name d = n) (drivers cfg)).
Proof.
  unfold init_state. generalize (drivers cfg). intros l.
  induction l as [|d l IH] using rev_ind; [done|].
  rewrite foldl_app, filter_app. cbn [foldl].
  destruct (decide (name d = n)) as [<-|Hne].
  - rewrite lookup_insert_eq, filter_cons_True, filter_nil by done.
    by rewrite last_snoc.
  - rewrite lookup_insert_ne, filter_cons_False, filter_nil, app_nil_r by done.
    done.
Qed.

Lemma grid_of_init_state cfg n :
  grid_of (init_state cfg) n = roster_grid cfg n.
Proof.
  unfold grid_of, roster_grid. rewrite init_state_last.
  by destruct (last _).
Qed.

Lemma roster_grid_NoDup cfg d :
  NoDup (map name (drivers cfg)) → d ∈ drivers cfg →
  roster_grid cfg (name d) = grid d.
Proof.
  unfold roster_grid. generalize (drivers cfg). intros l Hnd Hd.
  assert (filter (λ d', name d' = name d) l = [d]) as ->; [|done].
  induction l as [|x l IH]; [by apply elem_of_nil in Hd|].
  cbn [map] in Hnd. apply NoDup_cons in Hnd as [Hx Hnd].
  apply elem_of_cons in Hd as [->|Hd].
  - rewrite filter_cons_True by done. f_equal. apply filter_none.
    intros d' Hd' Heq. apply Hx. rewrite <-Heq.
    by apply (list_elem_of_fmap_2 name).
  - rewrite filter_cons_False; [by apply IH|].
    intros Heq. apply Hx. rewrite Heq. by apply (list_elem_of_fmap_2 name).
Qed.

(** C3, as the code has it: nothing checks a configuration.  With
    [total_laps < 1] the loop body never runs and [simulate] still returns a
    result: an empty timeline and every driver classified as finished with
    total time 0, in grid order: the rows are the names of the roster,
    arranged by ascending grid position, names with equal grid positions in
    the order of the roster (the grid position of a name being that of its
    roster entry, of the last one if several share the name).  A pit event
    whose lap lies outside [1 .. total_laps] is never matched by a lap: the
    outcome is that of the plan without such events.  Duplicate grid
    positions are not looked for: whatever the grid positions and the pit
    plan, a roster with distinct names and a race of at most [max_len] laps
    is simulated to a result by a network that returns [max_len] predictions
    and encoders that return on every step of the race. *)
Theorem C3_no_configuration_check cfg :
  (total_laps cfg < 1 →
   ∃ res, simulate cfg = Done res ∧ timeline res = [] ∧
     map cr_driver (classification res) = init_order cfg ∧
     map cr_driver (classification res) ≡ₚ map name (drivers cfg) ∧
     StronglySorted (λ a b, roster_grid cfg a ≤ roster_grid cfg b)
       (map cr_driver (classification res)) ∧
     (∀ g, filter (λ n, roster_grid cfg n = g)
             (map cr_driver (classification res))
           = filter (λ n, roster_grid cfg n = g) (map name (drivers cfg))) ∧
     (NoDup (map name (drivers cfg)) →
      ∀ d, d ∈ drivers cfg → roster_grid cfg (name d) = grid d) ∧
     Forall (λ row, cr_status row = Finished ∧ cr_total_time row = 0%Q)
       (classification res)) ∧
  simulate cfg = simulate (with_strategy (in_range_plan cfg) cfg) ∧
  ((∀ X, length (model_predict X) = max_len) →
   encodes_race cfg →
   NoDup (map name (drivers cfg)) →
   total_laps cfg ≤ Z.of_nat max_len →
   ∃ res, simulate cfg = Done res).
Proof.
  split; [|split].
  - intros Hl. unfold simulate. rewrite run_to_nonpos by lia. simpl.
    eexists. split; [done|]. cbn [timeline classification].
    split; [done|].
    pose proof (order_inv_init cfg) as (Hrun & Hsplit & _).
    cbn [init_sim sim_order sim_state] in Hrun, Hsplit.
    assert (∀ n, n ∈ init_order cfg → running_of (init_state cfg) n = true)
      as Hall.
    { intros n Hn. apply (Hrun n Hn). intros r _. lia. }
    assert (classify_dnf (init_state cfg) (init_order cfg) = []) as Hnil.
    { apply (fmap_nil_inv cr_driver).
      change (cr_driver <$> classify_dnf (init_state cfg) (init_order cfg))
        with (map cr_driver (classify_dnf (init_state cfg) (init_order cfg))).
      rewrite classify_dnf_drivers.
      - apply filter_none. intros n ?%Hall. congruence.
      - intros n Hn%Hall. unfold running_of in Hn.
        by destruct (init_state cfg !! n). }
    unfold classify. cbn [init_sim sim_order sim_state].
    rewrite Hnil, app_nil_r.
    assert (map cr_driver (classify_finished (init_state cfg)
                             (init_order cfg) 1) = init_order cfg) as Hrows.
    { rewrite classify_finished_drivers. by apply filter_all. }
    rewrite Hrows. split; [done|]. unfold init_order at 1 2 3.
    split; [apply sorted_perm|]. split; [|split; [|split]].
    + eapply StronglySorted_weaken;
        [|apply (sorted_sorted_Z (grid_of (init_state cfg)))].
      intros a b. simpl. by rewrite !grid_of_init_state.
    + intros g.
      rewrite !(list_filter_iff (λ n, roster_grid cfg n = g)
                  (λ n, grid_of (init_state cfg) n = g))
        by (intros n; by rewrite grid_of_init_state).
      apply sorted_stable_Z.
    + intros Hnd d Hd. by apply roster_grid_NoDup.
    + apply Forall_forall.
      intros row (s & p & Hs & _ & _ & ->)%classify_finished_elem.
      simpl in *. by apply init_state_lookup in Hs as (_ & -> & _).
  - unfold simulate, run_to.
    change (init_sim (with_strategy (in_range_plan cfg) cfg))
      with (init_sim cfg).
    cbn [with_strategy total_laps].
    rewrite (run_laps_ext cfg (with_strategy (in_range_plan cfg) cfg));
      [done| |apply init_wf].
    intros l σ Hl%elem_of_seqZ _. apply in_range_plan_lap_step. lia.
  - apply simulate_returns.
Qed.

(** * Further properties of the lap loop *)

Lemma lap_times_roster cfg lap_no σ lt n :
  wf_sim cfg σ →
  predict_lap cfg lap_no (_is_sc lap_no (safety_cars cfg))
    (apply_dnfs cfg lap_no (sim_state σ)) (sim_history σ) (sim_order σ) ∅
  = Done lt →
  is_Some (lt !! n) → is_Some (sim_state σ !! n).
Proof.
  intros Hwf Hp [t Ht].
  destruct (predict_lap_keys _ _ _ _ _ _ _ _ _ Hp Ht) as [Hin _].
  apply (wf_in_order cfg σ n Hwf) in Hin. destruct Hwf as (_ & Hst & _).
  by apply Hst.
Qed.

Lemma total_is_recorded_time cfg k σ n :
  0 ≤ k → run_to cfg k = Done σ →
  total_time_of (sim_state σ) n = recorded_time n (sim_timeline σ).
Proof.
  revert k σ.
  apply (run_to_ind cfg (λ _ σ, total_time_of (sim_state σ) n
                                = recorded_time n (sim_timeline σ))).
  - cbn [init_sim sim_state sim_timeline]. unfold total_time_of, recorded_time.
    simpl. destruct (init_state cfg !! n) as [s|] eqn:Hs; [|done].
    simpl. by apply init_state_lookup in Hs as (_ & -> & _).
  - intros k σ σ' Hk Hrun IH (lt & Hp & ->)%lap_step_Done.
    cbn [finish_lap sim_timeline]. unfold recorded_time.
    rewrite foldl_app. cbn [foldl tl_lap_times].
    fold (recorded_time n (sim_timeline σ)). rewrite <-IH.
    unfold total_time_of. destruct (sim_state σ !! n) as [s|] eqn:Hs.
    + destruct (finish_lap_state cfg (k + 1) σ lt n s Hs)
        as (s' & -> & _ & _ & _ & Htot). simpl. by rewrite Htot.
    + rewrite finish_lap_state_None by done. simpl.
      destruct (lt !! n) as [t|] eqn:Ht; [|done].
      destruct (lap_times_roster cfg (k + 1) σ lt n) as [s Hs'];
        [by eapply run_to_wf|done|eauto|congruence].
Qed.

(** X1: the total time a classification row reports is the sum, in lap order,
    of the lap times the timeline records for that driver: nothing is added
    to a total that the timeline does not show, and nothing shown is left
    out. *)
Theorem classification_total_is_timeline_sum cfg res row :
  simulate cfg = Done res → row ∈ classification res →
  cr_total_time row = recorded_time (cr_driver row) (timeline res).
Proof.
  intros (σ & Hrun & [= <-])%bind_Done Hrow. cbn [classification timeline] in *.
  rewrite run_to_clamp in Hrun.
  rewrite <-(total_is_recorded_time cfg (Z.max 0 (total_laps cfg)) σ _
               ltac:(lia) Hrun).
  unfold total_time_of. unfold classify in Hrow.
  apply elem_of_app in Hrow as [Hf|Hd].
  - apply classify_finished_elem in Hf as (s & p & Hs & _ & _ & ->).
    simpl in *. by rewrite Hs.
  - apply classify_dnf_inv in Hd as (s & Hs & _ & _ & ->).
    simpl in *. by rewrite Hs.
Qed.

(** X2: a roster driver is classified as finished exactly when the retirement
    list names it at no lap of the race: an entry at a lap before 1 or after
    [total_laps] retires nobody, any entry inside the race does. *)
Theorem finished_iff_no_retirement_in_race cfg res n :
  simulate cfg = Done res → n ∈ map name (drivers cfg) →
  (∃ row, row ∈ classification res ∧ cr_driver row = n
          ∧ cr_status row = Finished)
  ↔ (∀ r, (n, r) ∈ dnfs cfg → ¬ (1 ≤ r ≤ total_laps cfg)).
Proof.
  intros (σ & Hrun & [= <-])%bind_Done Hn. cbn [classification].
  pose proof (run_to_wf _ _ _ Hrun) as Hwf.
  assert (n ∈ sim_order σ) as Hin by by apply (wf_in_order cfg σ n Hwf).
  assert (order_inv cfg (Z.max 0 (total_laps cfg)) σ) as (Hinv & _).
  { apply run_to_order_inv; [lia|]. by rewrite <-run_to_clamp. }
  specialize (Hinv n Hin).
  assert (is_Some (sim_state σ !! n)) as [s Hs]
    by (destruct Hwf as (_ & Hst & _); by apply Hst).
  unfold running_of in Hinv. rewrite Hs in Hinv. simpl in Hinv.
  split.
  - intros (row & Hrow & <- & Hst) r Hr Hin'.
    unfold classify in Hrow. apply elem_of_app in Hrow as [Hf|Hd].
    + apply classify_finished_elem in Hf as (s' & p & Hs' & Hr' & _).
      rewrite Hs in Hs'. injection Hs' as <-.
      apply (proj1 Hinv Hr' r Hr). lia.
    + apply classify_dnf_inv in Hd as (s' & _ & _ & _ & Heq).
      rewrite Heq in Hst. discriminate.
  - intros Hno.
    assert (st_running s = true) as Hr.
    { apply Hinv. intros r Hr ?. apply (Hno r Hr). lia. }
    assert (n ∈ filter (λ m, running_of (sim_state σ) m = true) (sim_order σ))
      as Hf.
    { apply list_elem_of_filter. split; [|done].
      unfold running_of. by rewrite Hs. }
    rewrite <-(classify_finished_drivers (sim_state σ) (sim_order σ) 1) in Hf.
    apply (list_elem_of_fmap_1 cr_driver) in Hf as (row & -> & Hrow).
    exists row. split; [unfold classify; apply elem_of_app; by left|].
    split; [done|].
    by apply classify_finished_elem in Hrow as (? & ? & _ & _ & _ & ->).
Qed.

(** X3: the lap loop itself never raises [KeyError]: [state] and [history]
    are only indexed with names of the roster, also when [dnfs] or [strategy]
    name unknown drivers.  A [KeyError] out of [simulate] can only come from
    an encoder: there is none when no encoder raises it on a step of the race
    (for [SeqPreprocessor._idx], when each categorical key has a
    vocabulary). *)
Theorem simulate_KeyError_only_from_encoder cfg :
  (∀ step key, race_step cfg step →
     key ∈ ["driver"; "team"; "circuit"; "compound"] →
     _idx key (get_val step key) ≠ Raise KeyError) →
  (∀ step k, race_step cfg step → k ∈ num_cols →
     _num k (get_val step k) ≠ Raise KeyError) →
  simulate cfg ≠ Raise KeyError.
Proof.
  intros Hidx Hnum [[=]|(steps & Hall & H)]%simulate_Raise.
  apply build_single_inputs_Raise in H
    as (step & Hin & [(key & Hk & He)|(k & Hk & He)]).
  - rewrite Forall_forall in Hall. by apply (Hidx step key (Hall step Hin) Hk).
  - rewrite Forall_forall in Hall. by apply (Hnum step k (Hall step Hin) Hk).
Qed.

Lemma running_step_back cfg lap_no σ lt n s' :
  sim_state (finish_lap cfg lap_no σ lt) !! n = Some s' →
  st_running s' = true →
  ∃ s, sim_state σ !! n = Some s ∧ st_running s = true
       ∧ (n, lap_no) ∉ dnfs cfg.
Proof.
  intros Hs' Hr'. destruct (sim_state σ !! n) as [s|] eqn:Hs.
  - destruct (finish_lap_state cfg lap_no σ lt n s Hs) as (s1 & Hs1 & Hr1 & _).
    rewrite Hs' in Hs1. injection Hs1 as <-. rewrite Hr' in Hr1.
    exists s. split; [done|].
    destruct (decide ((n, lap_no) ∈ dnfs cfg)) as [Hd|Hd].
    + by rewrite bool_decide_eq_true_2 in Hr1.
    + by rewrite bool_decide_eq_false_2 in Hr1.
  - rewrite finish_lap_state_None in Hs' by done. done.
Qed.

(** X4: the tyre age of a running driver counts the laps since its last pit
    stop: if [p] is the last lap up to [k] for which the plan has an event
    for the driver, or 0 when there is none, then after [k] laps the tyre
    age is [k - p]; it is 0 right after a pit lap. *)
Theorem tyre_age_counts_laps_since_pit cfg k σ n s p :
  NoDup (map name (drivers cfg)) →
  0 ≤ k → run_to cfg k = Done σ →
  sim_state σ !! n = Some s → st_running s = true →
  0 ≤ p ≤ k → (p = 0 ∨ will_pit cfg p n = true) →
  (∀ l, p < l ≤ k → will_pit cfg l n = false) →
  st_tyre_age s = k - p.
Proof.
  intros Hnd Hk Hrun. revert s p. revert k σ Hk Hrun.
  apply (run_to_ind cfg (λ k σ, ∀ s p,
    sim_state σ !! n = Some s → st_running s = true →
    0 ≤ p ≤ k → (p = 0 ∨ will_pit cfg p n = true) →
    (∀ l, p < l ≤ k → will_pit cfg l n = false) →
    st_tyre_age s = k - p)).
  - intros s p Hs _ Hp _ _. cbn [init_sim sim_state] in Hs.
    apply init_state_lookup in Hs as (_ & _ & -> & _). lia.
  - intros k σ σ' Hk Hrun IH Hstep s' p Hs' Hr' Hp Hpit Hno.
    pose proof Hstep as (lt & _ & Hσ')%lap_step_Done.
    rewrite Hσ' in Hs'.
    destruct (running_step_back cfg (k + 1) σ lt n s' Hs' Hr')
      as (s & Hs & Hr & Hd).
    pose proof (run_to_wf _ _ _ Hrun) as Hwf.
    assert (n ∈ sim_order σ) as Hn.
    { apply (wf_in_order _ _ _ Hwf). destruct Hwf as (_ & Hst & _).
      apply Hst. eauto. }
    destruct (lap_step_running_state cfg (k + 1) σ σ' n s Hstep
                (wf_NoDup_order _ _ Hwf Hnd) Hn Hs Hr Hd)
      as (e & t & _ & _ & _ & _ & Hst').
    rewrite Hσ', Hs' in Hst'. injection Hst' as ->.
    unfold tyre_update. cbn [add_total_time st_running]. rewrite Hr.
    destruct (will_pit cfg (k + 1) n) eqn:Hw; simpl.
    + destruct (decide (p = k + 1)) as [->|]; [lia|].
      rewrite Hno in Hw by lia. done.
    + assert (p ≠ k + 1) as Hne.
      { intros ->. destruct Hpit as [?|Hpit]; [lia|congruence]. }
      rewrite (IH s p Hs Hr) by (done || lia || (intros l ?; apply Hno; lia)).
      lia.
Qed.

(** ** When the prediction index is out of range *)

Lemma retired_not_running cfg k σ n r :
  0 ≤ k → run_to cfg k = Done σ → n ∈ map name (drivers cfg) →
  (n, r) ∈ dnfs cfg → 1 ≤ r ≤ k →
  running_of (sim_state σ) n = false.
Proof.
  intros Hk Hrun Hn Hd Hr.
  pose proof (run_to_order_inv cfg k σ Hk Hrun) as (Hinv & _).
  assert (n ∈ sim_order σ) as Hin
    by by apply (wf_in_order cfg σ n (run_to_wf _ _ _ Hrun)).
  destruct (running_of (sim_state σ) n) eqn:Hrun'; [|done].
  destruct (proj1 (Hinv n Hin) Hrun' r Hd Hr).
Qed.

Lemma not_retired_running cfg k σ n :
  0 ≤ k → run_to cfg k = Done σ → n ∈ map name (drivers cfg) →
  (∀ r, (n, r) ∈ dnfs cfg → ¬ (1 ≤ r ≤ k)) →
  running_of (sim_state σ) n = true.
Proof.
  intros Hk Hrun Hn Hno.
  pose proof (run_to_order_inv cfg k σ Hk Hrun) as (Hinv & _).
  assert (n ∈ sim_order σ) as Hin
    by by apply (wf_in_order cfg σ n (run_to_wf _ _ _ Hrun)).
  by apply (Hinv n Hin).
Qed.

Lemma run_to_returns_when cfg k :
  (∀ X, length (model_predict X) = max_len) →
  encodes_race cfg →
  NoDup (map name (drivers cfg)) →
  (k ≤ Z.of_nat max_len
   ∨ ∀ n, n ∈ map name (drivers cfg) →
          ∃ r, (n, r) ∈ dnfs cfg ∧ 1 ≤ r ≤ Z.of_nat max_len + 1) →
  ∃ σ, run_to cfg k = Done σ.
Proof.
  intros Hlen Henc Hnd. destruct (decide (k ≤ 0)) as [|Hpos].
  { rewrite run_to_nonpos by done. eauto. }
  assert (0 ≤ k) as Hk0 by lia. pattern k.
  apply natlike_ind; [| |done]; clear k Hpos Hk0.
  - intros _. rewrite run_to_nonpos by done. eauto.
  - intros k Hk0 IH Hcond. destruct IH as [σ Hrun]; [destruct Hcond; [left; lia|by right]|].
    unfold Z.succ. rewrite run_to_succ, Hrun by done. simpl.
    pose proof (run_to_wf _ _ _ Hrun) as Hwf.
    unfold lap_step.
    match goal with |- context [predict_lap ?a ?b ?c ?d ?e ?f ?g] =>
      destruct (predict_lap_total a b c d e f g) as [lt ->]; [|simpl; eauto]
    end.
    intros n Hn%(wf_in_order cfg σ n Hwf).
    assert (is_Some (sim_state σ !! n)) as [s Hs]
      by (destruct Hwf as (_ & Hst & _); by apply Hst).
    rewrite apply_dnfs_lookup, Hs. simpl. eexists. split; [done|].
    intros Hr1.
    assert (st_running s = true ∧ (n, k + 1) ∉ dnfs cfg) as [Hr Hd].
    { destruct (decide ((n, k + 1) ∈ dnfs cfg)).
      - by rewrite bool_decide_eq_true_2 in Hr1.
      - by rewrite bool_decide_eq_false_2 in Hr1. }
    assert (k < Z.of_nat max_len) as Hlt.
    { destruct (decide (k < Z.of_nat max_len)) as [|Hge]; [done|].
      destruct Hcond as [?|Hall]; [lia|].
      destruct (Hall n Hn) as (r & Hin & Hr').
      destruct (decide (r = k + 1)) as [->|]; [done|].
      pose proof (retired_not_running cfg k σ n r Hk0 Hrun Hn Hin ltac:(lia))
        as Hoff.
      unfold running_of in Hoff. rewrite Hs in Hoff. simpl in Hoff. congruence. }
    assert (max_len ≠ O) as Hm by lia.
    pose proof (history_snapshots cfg k σ n Hm Hnd Hn Hk0 Hrun) as Hh.
    eapply lap_time_returns; [done|done|exact Hh| |].
    + by apply (run_to_hist_inv cfg k σ Hrun n).
    + rewrite py_last_length by done. unfold snapshots_between.
      pose proof (length_omap_le (snapshot_at cfg n) (seqZ 1 k)) as Hle.
      rewrite length_seqZ in Hle. lia.
Qed.

(** X5: with a network that returns [max_len] predictions, encoders that
    return on every step of the race and a roster with distinct names,
    [simulate] returns a result when the race has at most [max_len] laps or
    every driver is retired by lap [max_len + 1]; and it raises [IndexError]
    when the race is longer than [max_len] laps and some driver is not
    retired by lap [max_len + 1].  Nothing else happens. *)
Theorem simulate_fails_exactly_past_max_len cfg :
  (∀ X, length (model_predict X) = max_len) →
  encodes_race cfg →
  NoDup (map name (drivers cfg)) →
  ((total_laps cfg ≤ Z.of_nat max_len
    ∨ ∀ n, n ∈ map name (drivers cfg) →
           ∃ r, (n, r) ∈ dnfs cfg ∧ 1 ≤ r ≤ Z.of_nat max_len + 1) →
   ∃ res, simulate cfg = Done res) ∧
  (∀ n, Z.of_nat max_len < total_laps cfg →
        n ∈ map name (drivers cfg) →
        (∀ r, (n, r) ∈ dnfs cfg → ¬ (1 ≤ r ≤ Z.of_nat max_len + 1)) →
        simulate cfg = Raise IndexError).
Proof.
  intros Hlen Henc Hnd. split.
  - intros Hcond. unfold simulate.
    destruct (run_to_returns_when cfg (total_laps cfg) Hlen Henc Hnd Hcond)
      as [σ ->].
    simpl. eauto.
  - intros n Hlaps Hn Hno.
    destruct (simulate cfg) as [res|e] eqn:Hsim;
      [|by rewrite (simulate_only_IndexError cfg e Henc Hsim)].
    exfalso. unfold simulate in Hsim. apply bind_Done in Hsim as (σ & Hrun & _).
    destruct (run_to_prefix cfg (Z.of_nat max_len + 1) _ σ Hrun) as [σ1 H1];
      [lia|].
    destruct (run_to_prefix cfg (Z.of_nat max_len) _ σ1 H1) as [σ0 H0]; [lia|].
    assert (lap_step cfg (Z.of_nat max_len + 1) σ0 = Done σ1) as Hstep.
    { apply run_to_step; [lia| |done].
      by replace (Z.of_nat max_len + 1 - 1) with (Z.of_nat max_len) by lia. }
    assert (running_of (sim_state σ0) n = true) as Hr.
    { apply (not_retired_running cfg (Z.of_nat max_len)); [lia|done|done|].
      intros r Hin ?. apply (Hno r Hin). lia. }
    assert (∃ h, sim_history σ0 !! n = Some h ∧ length h = max_len)
      as (h & Hh & Hfull).
    { assert (is_Some (sim_history σ0 !! n)) as [h Hh]
        by by apply (run_to_wf _ _ _ H0).
      exists h. split; [done|].
      destruct (decide (max_len = O)) as [Hm|Hm].
      - rewrite Hm in *. rewrite run_to_nonpos in H0 by done.
        injection H0 as <-. cbn [init_sim sim_history] in Hh.
        by apply init_history_lookup in Hh as ->.
      - rewrite (history_snapshots cfg (Z.of_nat max_len) σ0 n Hm Hnd Hn) in Hh
          by (done || lia).
        injection Hh as <-. rewrite py_last_length by done.
        rewrite (snapshots_all_present cfg (Z.of_nat max_len) σ0 n 1)
          by (done || lia).
        lia. }
    unfold running_of in Hr.
    destruct (sim_state σ0 !! n) as [s|] eqn:Hs; [|done]. simpl in Hr.
    destruct (lap_step_lap_time cfg _ σ0 σ1 n s Hstep)
      as (e & t & _ & _ & Ht & _);
      [by apply (wf_in_order cfg σ0 n (run_to_wf _ _ _ H0))|done|done| |].
    + intros Hin. apply (Hno _ Hin). lia.
    + by apply (lap_time_full_history _ _ _ _ _ _ h t Hlen Hh Hfull) in Ht.
Qed.

(** ** The timeline, entry by entry *)

Lemma lap_times_keys cfg lap_no σ lt n :
  wf_sim cfg σ →
  predict_lap cfg lap_no (_is_sc lap_no (safety_cars cfg))
    (apply_dnfs cfg lap_no (sim_state σ)) (sim_history σ) (sim_order σ) ∅
  = Done lt →
  is_Some (lt !! n)
  ↔ n ∈ sim_order σ
    ∧ running_of (sim_state (finish_lap cfg lap_no σ lt)) n = true.
Proof.
  intros Hwf Hp.
  assert (n ∈ sim_order σ →
          running_of (sim_state (finish_lap cfg lap_no σ lt)) n
          = running_of (apply_dnfs cfg lap_no (sim_state σ)) n) as Hsame.
  { intros Hn. assert (is_Some (sim_state σ !! n)) as [s Hs].
    { apply (wf_in_order cfg σ n Hwf) in Hn.
      destruct Hwf as (_ & Hst & _). by apply Hst. }
    rewrite finish_lap_running by eauto.
    unfold running_of. rewrite apply_dnfs_lookup, Hs. simpl.
    by destruct (bool_decide ((n, lap_no) ∈ dnfs cfg)). }
  split.
  - intros [t Ht].
    destruct (predict_lap_keys _ _ _ _ _ _ _ _ _ Hp Ht) as [Hin Hr].
    split; [done|]. by rewrite Hsame.
  - intros [Hin Hr]. rewrite Hsame in Hr by done. unfold running_of in Hr.
    destruct (apply_dnfs cfg lap_no (sim_state σ) !! n) as [s|] eqn:Hs; [|done].
    destruct (predict_lap_running _ _ _ _ _ _ _ _ _ _ Hp Hin Hs Hr)
      as (t & _ & Ht). eauto.
Qed.

Lemma timeline_entries cfg k σ :
  0 ≤ k → run_to cfg k = Done σ →
  length (sim_timeline σ) = Z.to_nat k ∧
  ∀ i e, sim_timeline σ !! i = Some e →
    tl_lap e = Z.of_nat i + 1 ∧
    (∀ n, n ∈ tl_order e
          ↔ n ∈ map name (drivers cfg)
            ∧ ∀ r, (n, r) ∈ dnfs cfg → ¬ (1 ≤ r ≤ tl_lap e)) ∧
    (∀ n, is_Some (tl_lap_times e !! n) ↔ n ∈ tl_order e) ∧
    StronglySorted
      (λ a b, recorded_time a (take (S i) (sim_timeline σ))
              <= recorded_time b (take (S i) (sim_timeline σ)))%Q
      (tl_order e).
Proof.
  revert k σ. apply (run_to_ind cfg (λ k σ,
    length (sim_timeline σ) = Z.to_nat k ∧
    ∀ i e, sim_timeline σ !! i = Some e →
      tl_lap e = Z.of_nat i + 1 ∧
      (∀ n, n ∈ tl_order e
            ↔ n ∈ map name (drivers cfg)
              ∧ ∀ r, (n, r) ∈ dnfs cfg → ¬ (1 ≤ r ≤ tl_lap e)) ∧
      (∀ n, is_Some (tl_lap_times e !! n) ↔ n ∈ tl_order e) ∧
      StronglySorted
        (λ a b, recorded_time a (take (S i) (sim_timeline σ))
                <= recorded_time b (take (S i) (sim_timeline σ)))%Q
        (tl_order e))).
  - split; [done|]. intros i e. cbn [init_sim sim_timeline].
    by rewrite lookup_nil.
  - intros k σ σ' Hk Hrun [Hlen IH] Hstep.
    assert (run_to cfg (k + 1) = Done σ') as Hrun'
      by (by rewrite run_to_succ, Hrun by done).
    pose proof Hstep as (lt & Hp & Hσ')%lap_step_Done.
    pose proof (run_to_wf _ _ _ Hrun) as Hwf.
    assert (sim_timeline σ' = sim_timeline σ
              ++ [ {| tl_lap := k + 1;
                      tl_order := sorted Qltb (total_time_of (sim_state σ'))
                        (filter (λ n, running_of (sim_state σ') n = true)
                                (sim_order σ));
                      tl_lap_times := lt;
                      tl_is_sc := _is_sc (k + 1) (safety_cars cfg) |} ])
      as Htl by (by rewrite Hσ').
    split; [rewrite Htl, length_app, Hlen; simpl; lia|].
    intros i e Hi. rewrite Htl in Hi.
    destruct (decide (i < length (sim_timeline σ))%nat) as [Hlt|Hge].
    + rewrite lookup_app_l in Hi by done.
      rewrite Htl, take_app_le by lia. by apply IH.
    + rewrite lookup_app_r in Hi by lia.
      destruct (i - length (sim_timeline σ))%nat as [|?] eqn:Hd;
        [|by rewrite lookup_cons, lookup_nil in Hi].
      injection Hi as <-. assert (i = Z.to_nat k) as -> by lia.
      cbn [tl_lap tl_order tl_lap_times].
      assert (∀ n, n ∈ sorted Qltb (total_time_of (sim_state σ'))
                     (filter (λ n, running_of (sim_state σ') n = true)
                             (sim_order σ))
                   ↔ n ∈ sim_order σ ∧ running_of (sim_state σ') n = true)
        as Hmem.
      { intros n. rewrite sorted_perm, list_elem_of_filter. tauto. }
      split; [lia|]. split; [|split].
      * intros n. rewrite Hmem, (wf_in_order cfg σ n Hwf).
        pose proof (run_to_order_inv cfg (k + 1) σ' ltac:(lia) Hrun')
          as (Hinv & _).
        split.
        -- intros [Hn Hr]. split; [done|]. apply Hinv; [|done].
           by apply (wf_in_order cfg σ' n (run_to_wf _ _ _ Hrun')).
        -- intros [Hn Hr]. split; [done|]. apply Hinv; [|done].
           by apply (wf_in_order cfg σ' n (run_to_wf _ _ _ Hrun')).
      * intros n. rewrite Hmem, Hσ'. by apply lap_times_keys.
      * rewrite take_ge by (rewrite Htl, length_app; simpl; lia).
        eapply StronglySorted_weaken; [|apply sorted_sorted].
        intros a b. simpl.
        by rewrite !(total_is_recorded_time cfg (k + 1) σ') by (done || lia).
Qed.

(** X6: the timeline of a completed simulation has one entry per lap, in lap
    order.  The entry at position [i] is that of lap [i + 1]; its [order]
    lists exactly the roster drivers that the retirement list retires at
    none of the laps up to that one, in ascending order of the time they
    have accumulated up to and including that lap; and its [lap_times] has
    a time for exactly the drivers in its [order]. *)
Theorem timeline_entry_lists_running_by_time cfg res :
  simulate cfg = Done res →
  length (timeline res) = Z.to_nat (total_laps cfg) ∧
  ∀ i e, timeline res !! i = Some e →
    tl_lap e = Z.of_nat i + 1 ∧
    (∀ n, n ∈ tl_order e
          ↔ n ∈ map name (drivers cfg)
            ∧ ∀ r, (n, r) ∈ dnfs cfg → ¬ (1 ≤ r ≤ tl_lap e)) ∧
    (∀ n, is_Some (tl_lap_times e !! n) ↔ n ∈ tl_order e) ∧
    StronglySorted
      (λ a b, recorded_time a (take (S i) (timeline res))
              <= recorded_time b (take (S i) (timeline res)))%Q
      (tl_order e).
Proof.
  unfold simulate. intros (σ & Hrun & [= <-])%bind_Done.
  cbn [timeline]. rewrite run_to_clamp in Hrun.
  replace (Z.to_nat (total_laps cfg))
    with (Z.to_nat (Z.max 0 (total_laps cfg))) by lia.
  apply (timeline_entries cfg (Z.max 0 (total_laps cfg))); [lia|done].
Qed.

(** ** The network's input window *)

Lemma py_last_min {A} (n : nat) (l : list A) :
  n ≠ O → py_last (Nat.min (length l) n) l = py_last n l.
Proof.
  intros Hn. destruct (decide (length l ≤ n)%nat) as [Hle|Hgt].
  - rewrite Nat.min_l by done. rewrite (py_last_short n) by done.
    destruct l as [|x l]; [done|]. by rewrite py_last_short.
  - by rewrite Nat.min_r by lia.
Qed.

Lemma build_single_inputs_alt (hist : list (gmap string value)) :
  max_len ≠ O →
  let steps := py_last max_len hist in
  let pad := (max_len - length steps)%nat in
  build_single_inputs hist =
  (drv_idx ←! traverse (λ s, _idx "driver" (get_val s "driver")) steps;
   team_idx ←! traverse (λ s, _idx "team" (get_val s "team")) steps;
   circ_idx ←! traverse (λ s, _idx "circuit" (get_val s "circuit")) steps;
   comp_idx ←! traverse (λ s, _idx "compound" (get_val s "compound")) steps;
   num_steps ←! traverse (λ s, traverse (λ k, _num k (get_val s k)) num_cols)
                         steps;
   Done {| driver_seq := drv_idx ++ replicate pad 0;
           team_seq := team_idx ++ replicate pad 0;
           circuit_seq := circ_idx ++ replicate pad 0;
           compound_seq := comp_idx ++ replicate pad 0;
           num_seq := num_steps
                      ++ replicate pad (replicate (length num_cols) 0%Q) |}).
Proof.
  intros Hm. cbv zeta. unfold build_single_inputs.
  by rewrite py_last_min, py_last_length by done.
Qed.

(** X8: [build_single_inputs] returns when the encoders return on every
    step of the history, and the five arrays it hands to the network all
    have [max_len] positions and every numeric row has one entry per numeric
    column, whatever the length of the history; only with [max_len = 0] (a
    preprocessor that was never fitted) they have as many positions as the
    history has steps. *)
Theorem build_single_inputs_shape (hist : list (gmap string value)) :
  (Forall encodable hist → ∃ X, build_single_inputs hist = Done X) ∧
  ∀ X, build_single_inputs hist = Done X →
    let len := match max_len with O => length hist | _ => max_len end in
    length (driver_seq X) = len ∧ length (team_seq X) = len ∧
    length (circuit_seq X) = len ∧ length (compound_seq X) = len ∧
    length (num_seq X) = len ∧
    Forall (λ row, length row = length num_cols) (num_seq X).
Proof.
  split; [apply build_single_inputs_total|].
  intros X (d & t & c & p & q & Hd & Ht & Hc & Hp & Hq & ->)
    %build_single_inputs_Done.
  cbv zeta. cbn [driver_seq team_seq circuit_seq compound_seq num_seq].
  assert (Forall (λ row, length row = length num_cols) q) as Hrows.
  { apply Forall_forall. intros row Hrow.
    destruct (traverse_elem _ _ _ _ Hq Hrow) as (step & _ & Hr).
    by apply traverse_length in Hr. }
  apply traverse_length in Hd, Ht, Hc, Hp, Hq.
  rewrite !length_app, !length_replicate, Hd, Ht, Hc, Hp, Hq.
  assert (length (py_last (Nat.min (length hist) max_len) hist)
          + (max_len - Nat.min (length hist) max_len)
          = match max_len with O => length hist | _ => max_len end)%nat as ->.
  { destruct max_len as [|m] eqn:Hml.
    - rewrite Nat.min_0_r. simpl. lia.
    - destruct (decide (length hist = O)) as [H0|H0].
      + rewrite H0. destruct hist; [|done]. simpl. lia.
      + rewrite py_last_length by lia. lia. }
  repeat split. apply Forall_app. split; [done|].
  apply Forall_forall. intros row [-> _]%elem_of_replicate.
  by rewrite length_replicate.
Qed.

(** X9: the network only ever sees the last [max_len] steps: two histories that
    agree on their last [max_len] steps (Python's [hist[-max_len:]]) give
    the same input arrays, hence the same predictions, or raise the same
    exception. *)
Theorem build_single_inputs_last_steps_only (h1 h2 : list (gmap string value)) :
  max_len ≠ O → py_last max_len h1 = py_last max_len h2 →
  build_single_inputs h1 = build_single_inputs h2
  ∧ predict_sequence h1 = predict_sequence h2.
Proof.
  intros Hm Heq. assert (build_single_inputs h1 = build_single_inputs h2) as HX.
  { rewrite !build_single_inputs_alt by done. cbv zeta. by rewrite Heq. }
  split; [done|]. unfold predict_sequence. by rewrite HX.
Qed.

(** X10: the steps are left-aligned and padded on the right: the newest step of
    a non-empty history is encoded at position [min(len(hist), max_len) - 1],
    which is [max_len - 1] once the history has [max_len] steps or more, and
    every position from [min(len(hist), max_len)] on holds the padding code
    0 in all four categorical arrays. *)
Theorem build_single_inputs_newest_step (h : list (gmap string value))
    (step : gmap string value) (i : nat) X :
  max_len ≠ O →
  build_single_inputs (h ++ [step]) = Done X →
  let L := Nat.min (length h + 1) max_len in
  (∃ d t c p r,
     _idx "driver" (get_val step "driver") = Done d ∧
     _idx "team" (get_val step "team") = Done t ∧
     _idx "circuit" (get_val step "circuit") = Done c ∧
     _idx "compound" (get_val step "compound") = Done p ∧
     traverse (λ k, _num k (get_val step k)) num_cols = Done r ∧
     driver_seq X !! (L - 1)%nat = Some d ∧
     team_seq X !! (L - 1)%nat = Some t ∧
     circuit_seq X !! (L - 1)%nat = Some c ∧
     compound_seq X !! (L - 1)%nat = Some p ∧
     num_seq X !! (L - 1)%nat = Some r) ∧
  ((L ≤ i < max_len)%nat →
   driver_seq X !! i = Some 0 ∧ team_seq X !! i = Some 0 ∧
   circuit_seq X !! i = Some 0 ∧ compound_seq X !! i = Some 0).
Proof.
  intros Hm HX. cbv zeta. rewrite build_single_inputs_alt in HX by done.
  cbv zeta in HX.
  assert (∃ pre, py_last max_len (h ++ [step]) = pre ++ [step]
                 ∧ length pre = (Nat.min (length h + 1) max_len - 1)%nat)
    as (pre & Hpre & Hlen).
  { destruct max_len as [|m] eqn:Hml; [done|]. cbn [py_last].
    rewrite length_app. simpl.
    rewrite drop_app_le by lia. eexists. split; [done|].
    rewrite length_drop. lia. }
  rewrite Hpre in HX.
  apply bind_Done in HX as (d & (d' & d0 & -> & Hd' & Hd)%traverse_snoc & HX).
  apply bind_Done in HX as (t & (t' & t0 & -> & Ht' & Ht)%traverse_snoc & HX).
  apply bind_Done in HX as (c & (c' & c0 & -> & Hc' & Hc)%traverse_snoc & HX).
  apply bind_Done in HX as (p & (p' & p0 & -> & Hp' & Hp)%traverse_snoc & HX).
  apply bind_Done in HX as (q & (q' & q0 & -> & Hq' & Hq)%traverse_snoc & HX).
  injection HX as <-.
  cbn [driver_seq team_seq circuit_seq compound_seq num_seq].
  apply traverse_length in Hd', Ht', Hc', Hp', Hq'.
  split.
  - exists d0, t0, c0, p0, q0. rewrite <-!(assoc_L (++)).
    repeat split; try done.
    all: rewrite lookup_app_r by lia.
    all: match goal with |- context [(?a - ?b)%nat] =>
           replace (a - b)%nat with O by lia end; done.
  - intros Hi.
    assert (length (pre ++ [step]) = Nat.min (length h + 1) max_len) as Hl
      by (rewrite length_app; simpl; lia).
    repeat split.
    all: rewrite lookup_app_r by (rewrite length_app; simpl; lia).
    all: apply lookup_replicate_2; rewrite length_app; simpl; lia.
Qed.

(** ** What the pit-loss table holds *)

(** X11: an entry of the pit-loss table is, for its circuit, the median over
    the pit laps of (lap time minus the median lap time without a stop), as
    the code computes it, each median being the middle value of the values in
    ascending order or the mean of the two middle ones; the circuit has a pit
    lap and a lap without a stop, and the entry lies strictly between 5 and
    60 seconds.  The table has entries only when the mapping has a circuit
    column. *)
Theorem estimated_loss_is_median_of_differences (circ_col : bool) df c loss :
  _estimate_pit_loss circ_col df !! c = Some loss →
  circ_col = true ∧
  base_times (group_rows c df) ≠ [] ∧ pit_times (group_rows c df) ≠ [] ∧
  ∃ med_base,
    median (base_times (group_rows c df)) = Some med_base ∧
    is_median (base_times (group_rows c df)) med_base ∧
    median (map (λ t, t - med_base)%Q (pit_times (group_rows c df)))
      = Some loss ∧
    is_median (map (λ t, t - med_base)%Q (pit_times (group_rows c df))) loss ∧
    (5 < loss)%Q ∧ (loss < 60)%Q.
Proof.
  destruct circ_col; [|unfold _estimate_pit_loss; by rewrite lookup_empty].
  rewrite estimate_lookup.
  intros Hk. split; [done|]. unfold kept_loss in Hk.
  destruct (base_times (group_rows c df)) as [|b bs] eqn:Hb; [done|].
  destruct (pit_times (group_rows c df)) as [|p ps] eqn:Hp; [done|].
  split; [done|]. split; [done|].
  unfold circuit_loss in Hk. rewrite Hb, Hp in Hk.
  destruct (median (b :: bs)) as [mb|] eqn:Hmb; [|done].
  cbn [mbind option_bind] in Hk.
  destruct (median (map (λ t, (t - mb)%Q) (p :: ps))) as [l|] eqn:Hl; [|done].
  destruct (Qltb 5 l) eqn:H5; [|done]. destruct (Qltb l 60) eqn:H60; [|done].
  injection Hk as <-. apply Qltb_lt in H5, H60.
  exists mb. repeat split; try done; by apply median_spec.
Qed.

(** X12: with the table that [_estimate_pit_loss] builds, the pit loss a
    simulation uses and reports is either the configuration's
    [default_pit_loss] or a value strictly between 5 and 60 seconds. *)
Theorem pit_loss_used_is_default_or_estimate (circ_col : bool) df cfg res :
  pit_loss_by_circuit = _estimate_pit_loss circ_col df →
  simulate cfg = Done res →
  pit_loss_used res = pit_loss cfg ∧
  (pit_loss_used res = default_pit_loss cfg
   ∨ (5 < pit_loss_used res)%Q ∧ (pit_loss_used res < 60)%Q).
Proof.
  intros Htab (σ & _ & [= <-])%bind_Done. cbn [pit_loss_used].
  split; [done|]. unfold pit_loss.
  destruct (pit_loss_by_circuit !! circuit cfg) as [v|] eqn:Hv; [|by left].
  right. simpl. rewrite Htab in Hv. destruct circ_col.
  - rewrite estimate_lookup in Hv. unfold kept_loss in Hv.
    destruct (base_times _); [done|]. destruct (pit_times _); [done|].
    destruct (circuit_loss _) as [loss|]; [|done].
    destruct (Qltb 5 loss) eqn:H5; [|done].
    destruct (Qltb loss 60) eqn:H60; [|done].
    injection Hv as <-. by apply Qltb_lt in H5, H60.
  - unfold _estimate_pit_loss in Hv. by rewrite lookup_empty in Hv.
Qed.

(** ** Drivers are simulated independently *)

Lemma finish_lap_state_exact cfg lap_no σ lt n :
  NoDup (sim_order σ) → n ∈ sim_order σ →
  sim_state (finish_lap cfg lap_no σ lt) !! n =
  (λ s, let s1 := if bool_decide ((n, lap_no) ∈ dnfs cfg)
                  then set_running false s else s in
        tyre_update cfg lap_no n
          (from_option (λ t, add_total_time t s1) s1 (lt !! n)))
  <$> sim_state σ !! n.
Proof.
  intros Hnd Hn. cbn [finish_lap sim_state].
  rewrite update_tyres_lookup by done.
  rewrite update_totals_lookup, apply_dnfs_lookup.
  rewrite bool_decide_eq_true_2 by done. by destruct (sim_state σ !! n).
Qed.

Lemma lap_time_history_local cfg lap_no sc
    (hist hist' : gmap string (list (gmap string value))) n s :
  hist !! n = hist' !! n →
  lap_time cfg lap_no sc hist n s = lap_time cfg lap_no sc hist' n s.
Proof. intros H. unfold lap_time. by rewrite H. Qed.

Lemma lap_time_with_drivers l cfg lap_no sc hist n s :
  lap_time (with_drivers l cfg) lap_no sc hist n s
  = lap_time cfg lap_no sc hist n s.
Proof. reflexivity. Qed.

Lemma NoDup_name_inj (l : list DriverSpec) d d' :
  NoDup (map name l) → d ∈ l → d' ∈ l → name d = name d' → d = d'.
Proof.
  induction l as [|x l IH]; [by intros _ ?%elem_of_nil|].
  cbn [map]. intros [Hx Hnd]%NoDup_cons.
  intros [->|Hd]%elem_of_cons [->|Hd']%elem_of_cons Heq; [done| | |by apply IH].
  - destruct Hx. rewrite Heq. by apply (list_elem_of_fmap_2 name).
  - destruct Hx. rewrite <-Heq. by apply (list_elem_of_fmap_2 name).
Qed.

Lemma solo_run cfg d k σ :
  NoDup (map name (drivers cfg)) → d ∈ drivers cfg →
  0 ≤ k → run_to cfg k = Done σ →
  ∃ σ1, run_to (with_drivers [d] cfg) k = Done σ1 ∧
    sim_state σ1 !! name d = sim_state σ !! name d ∧
    sim_history σ1 !! name d = sim_history σ !! name d ∧
    map (λ e, tl_lap_times e !! name d) (sim_timeline σ1)
    = map (λ e, tl_lap_times e !! name d) (sim_timeline σ).
Proof.
  intros Hnd Hd. revert k σ.
  assert (name d ∈ map name (drivers cfg)) as Hn
    by by apply (list_elem_of_fmap_2 name).
  apply (run_to_ind cfg (λ k σ,
    ∃ σ1, run_to (with_drivers [d] cfg) k = Done σ1 ∧
      sim_state σ1 !! name d = sim_state σ !! name d ∧
      sim_history σ1 !! name d = sim_history σ !! name d ∧
      map (λ e, tl_lap_times e !! name d) (sim_timeline σ1)
      = map (λ e, tl_lap_times e !! name d) (sim_timeline σ))).
  - exists (init_sim (with_drivers [d] cfg)).
    split; [by apply run_to_nonpos|]. cbn [init_sim sim_state sim_history].
    split; [|split; [|done]].
    + unfold init_state at 1. cbn [with_drivers drivers foldl].
      rewrite lookup_insert_eq.
      destruct (proj2 (init_state_lookup_is_Some cfg (name d)) Hn) as [s Hs].
      rewrite Hs. apply init_state_lookup in Hs as (_ & _ & _ & d' & Hd' & He & ->).
      by rewrite (NoDup_name_inj _ d d' Hnd Hd Hd').
    + unfold init_history at 1. cbn [with_drivers drivers foldl].
      rewrite lookup_insert_eq.
      destruct (proj2 (init_history_lookup_is_Some cfg (name d)) Hn) as [h Hh].
      rewrite Hh. by apply init_history_lookup in Hh as ->.
  - intros k σ σ' Hk Hrun (σ1 & Hrun1 & Hst & Hhist & Htl) Hstep.
    pose proof (run_to_wf _ _ _ Hrun) as Hwf.
    pose proof (run_to_wf _ _ _ Hrun1) as Hwf1.
    assert (NoDup (sim_order σ)) as Hndo by by apply (wf_NoDup_order cfg).
    assert (NoDup (sim_order σ1)) as Hndo1.
    { apply (wf_NoDup_order (with_drivers [d] cfg)); [done|].
      cbn [with_drivers drivers map]. apply NoDup_singleton. }
    assert (name d ∈ sim_order σ) as Hin by by apply (wf_in_order cfg σ).
    assert (∀ m, m ∈ sim_order σ1 ↔ m = name d) as Hin1.
    { intros m. rewrite (wf_in_order _ σ1 m Hwf1).
      cbn [with_drivers drivers map]. apply list_elem_of_singleton. }
    assert (is_Some (sim_state σ !! name d)) as [s Hs]
      by (destruct Hwf as (_ & Hw & _); by apply Hw).
    pose proof Hstep as (lt & Hp & Hσ')%lap_step_Done.
    set (s1 := if bool_decide ((name d, k + 1) ∈ dnfs cfg)
               then set_running false s else s).
    assert (apply_dnfs cfg (k + 1) (sim_state σ) !! name d = Some s1) as Hs1
      by by rewrite apply_dnfs_lookup, Hs.
    assert (apply_dnfs (with_drivers [d] cfg) (k + 1) (sim_state σ1) !! name d
            = Some s1) as Hs1'
      by by rewrite apply_dnfs_lookup, Hst, Hs.
    assert (∃ lt1, predict_lap (with_drivers [d] cfg) (k + 1)
                     (_is_sc (k + 1) (safety_cars cfg))
                     (apply_dnfs (with_drivers [d] cfg) (k + 1) (sim_state σ1))
                     (sim_history σ1) (sim_order σ1) ∅ = Done lt1
                   ∧ lt1 !! name d = lt !! name d) as (lt1 & Hp1 & Hlt).
    { destruct (predict_lap_total (with_drivers [d] cfg) (k + 1)
                  (_is_sc (k + 1) (safety_cars cfg))
                  (apply_dnfs (with_drivers [d] cfg) (k + 1) (sim_state σ1))
                  (sim_history σ1) (sim_order σ1) ∅) as [lt1 Hp1].
      { intros m ->%Hin1. exists s1. split; [done|]. intros Hr.
        destruct (predict_lap_running _ _ _ _ _ _ _ _ _ _ Hp Hin Hs1 Hr)
          as (t & Ht & _).
        exists t. rewrite <-Ht, lap_time_with_drivers.
        by apply lap_time_history_local. }
      exists lt1. split; [done|].
      destruct (st_running s1) eqn:Hr.
      - destruct (predict_lap_running _ _ _ _ _ _ _ _ _ _ Hp Hin Hs1 Hr)
          as (t & Ht & ->).
        destruct (predict_lap_running _ _ _ _ _ _ _ _ _ _ Hp1
                    (proj2 (Hin1 _) eq_refl) Hs1' Hr) as (t' & Ht' & ->).
        rewrite lap_time_with_drivers in Ht'.
        rewrite (lap_time_history_local _ _ _ _ (sim_history σ)) in Ht' by done.
        cbn [with_drivers safety_cars] in Ht'. congruence.
      - rewrite (predict_lap_other _ _ _ _ _ _ _ _ _ Hp),
                (predict_lap_other _ _ _ _ _ _ _ _ _ Hp1); [done| |].
        + right. unfold running_of. by rewrite Hs1'.
        + right. unfold running_of. by rewrite Hs1. }
    exists (finish_lap (with_drivers [d] cfg) (k + 1) σ1 lt1).
    assert (sim_state (finish_lap (with_drivers [d] cfg) (k + 1) σ1 lt1)
              !! name d = sim_state σ' !! name d) as Hst'.
    { rewrite Hσ', !finish_lap_state_exact by (done || by apply Hin1).
      by rewrite Hst, Hlt. }
    split; [|split; [done|split]].
    + rewrite run_to_succ, Hrun1 by done. simpl.
      apply lap_step_Done. by exists lt1.
    + assert (is_Some (sim_state σ' !! name d)) as [s' Hs'].
      { rewrite Hσ', finish_lap_state_exact, Hs by done. by eexists. }
      rewrite (lap_step_history cfg (k + 1) σ σ' (name d) s')
        by done.
      rewrite (lap_step_history (with_drivers [d] cfg) (k + 1) σ1 _ (name d) s');
        [by rewrite Hhist| |done|by apply Hin1|by rewrite Hst'].
      apply lap_step_Done. by exists lt1.
    + rewrite Hσ'. cbn [finish_lap sim_timeline]. rewrite !map_app, Htl.
      simpl. by rewrite Hlt.
Qed.

(** X7: no driver's race depends on who else is on the track: in a roster with
    distinct names, a driver gets lap by lap the same lap times, and in the
    end the same team, total time and status, as when the same configuration
    is simulated with that driver alone (only the position differs). *)
Theorem drivers_do_not_interact cfg d res :
  NoDup (map name (drivers cfg)) → d ∈ drivers cfg →
  simulate cfg = Done res →
  ∃ res1, simulate (with_drivers [d] cfg) = Done res1 ∧
    map (λ e, tl_lap_times e !! name d) (timeline res1)
    = map (λ e, tl_lap_times e !! name d) (timeline res) ∧
    ∀ row, row ∈ classification res → cr_driver row = name d →
      ∃ row1, classification res1 = [row1] ∧ cr_driver row1 = name d ∧
        cr_team row1 = cr_team row ∧
        cr_total_time row1 = cr_total_time row ∧
        cr_status row1 = cr_status row.
Proof.
  intros Hnd Hd (σ & Hrun & [= <-])%bind_Done.
  rewrite run_to_clamp in Hrun.
  destruct (solo_run cfg d (Z.max 0 (total_laps cfg)) σ Hnd Hd ltac:(lia) Hrun)
    as (σ1 & Hrun1 & Hst & _ & Htl).
  exists {| classification := classify σ1; timeline := sim_timeline σ1;
            pit_loss_used := pit_loss (with_drivers [d] cfg) |}.
  split.
  { unfold simulate. rewrite run_to_clamp.
    cbn [with_drivers total_laps]. cbn [with_drivers total_laps] in Hrun1.
    by rewrite Hrun1. }
  split; [done|]. cbn [classification].
  pose proof (run_to_wf _ _ _ Hrun1) as Hwf1.
  assert (sim_order σ1 = [name d]) as Hord.
  { destruct Hwf1 as (Hperm & _). cbn [with_drivers drivers map] in Hperm.
    by apply Permutation_singleton_r in Hperm. }
  intros row Hrow Hdrv. unfold classify in Hrow |- *. rewrite Hord.
  apply elem_of_app in Hrow as [Hrow|Hrow].
  - apply classify_finished_elem in Hrow as (s & p & Hs & Hr & _ & ->).
    rewrite Hdrv in Hs. cbn [classify_finished classify_dnf].
    rewrite Hst, Hs, Hr. simpl. eexists. split; [done|]. by simpl.
  - apply classify_dnf_inv in Hrow as (s & Hs & Hr & _ & ->).
    rewrite Hdrv in Hs. cbn [classify_finished classify_dnf].
    rewrite Hst, Hs, Hr. simpl. eexists. split; [done|]. by simpl.
Qed.

End Engine.

(** ** The scenarios, run *)

(** The encoder stubs return on every step. *)
Lemma stubs_encode num_cols cfg : encodes_race num_cols idx_stub num_stub cfg.
Proof. intros step _. split; intros; eexists; reflexivity. Qed.

(** The estimator on [demo_laps]: Monza is kept at 20 s, Spa is dropped. *)
Example estimate_demo_laps :
  _estimate_pit_loss true demo_laps !! "Monza" = Some 20%Q ∧
  _estimate_pit_loss true demo_laps !! "Spa" = None.
Proof. split; vm_compute; reflexivity. Qed.

(** C1 at work: two positions, three laps, A never retires. *)
Lemma C1_index_out_of_range_witness :
  ∃ e, simulate 2 [] idx_stub num_stub (const_predict 2 90) ∅ race3 = Raise e
       ∧ (encodes_race [] idx_stub num_stub race3 → e = IndexError).
Proof.
  apply (C1_index_out_of_range 2 [] idx_stub num_stub (const_predict 2 90) ∅
           race3 "A").
  - intros X. reflexivity.
  - apply (bool_decide_unpack _). vm_compute. exact I.
  - apply (bool_decide_unpack _). vm_compute. exact I.
  - intros r [=]%list_elem_of_singleton.
  - vm_compute. reflexivity.
Defined.

(** The shortest failing race: one position, one driver, two laps.  Lap 1
    goes through, lap 2 raises. *)
Example index_error_on_lap_two :
  run_to 1 [] idx_stub num_stub (const_predict 1 90) ∅ race_spa 1
  = Done (finish_lap 1 race_spa 1 (init_sim race_spa) {[ "A" := 115%Q ]}) ∧
  simulate 1 [] idx_stub num_stub (const_predict 1 90) ∅ race_spa
  = Raise IndexError ∧
  simulate 2 [] idx_stub num_stub (const_predict 2 90) ∅ race3
  = Raise IndexError.
Proof. repeat split; reflexivity. Qed.

(** C2 at work: lap 2 of [race3], on which A pits. *)
Lemma C2_pit_lap_witness :
  ∃ σ σ' s,
    run_to 5 [] idx_stub num_stub (const_predict 5 90) ∅ race3 1 = Done σ ∧
    run_to 5 [] idx_stub num_stub (const_predict 5 90) ∅ race3 2 = Done σ' ∧
    sim_state σ !! "A" = Some s ∧ st_running s = true ∧
    ∃ e h yhat_seq yhat s',
      last (sim_timeline σ') = Some e ∧ tl_lap e = 2 ∧
      sim_history σ !! "A" = Some h ∧ sim_state σ' !! "A" = Some s' ∧
      predict_sequence 5 [] idx_stub num_stub (const_predict 5 90)
        (h ++ [build_step race3 2 (_is_sc 2 (safety_cars race3)) "A" s])
      = Done yhat_seq ∧
      yhat_seq !! length h = Some yhat ∧
      (not_overridden race3 2 "compound" →
       build_step race3 2 (_is_sc 2 (safety_cars race3)) "A" s !! "compound"
       = Some (VStr (st_compound s))) ∧
      (not_overridden race3 2 "tyre_age" →
       build_step race3 2 (_is_sc 2 (safety_cars race3)) "A" s !! "tyre_age"
       = Some (VInt (st_tyre_age s))) ∧
      (will_pit race3 2 "A" = true →
       tl_lap_times e !! "A" = Some (yhat + pit_loss ∅ race3)%Q ∧
       st_tyre_age s' = 0 ∧
       ∃ ev, head (filter (λ ev, lap ev = 2)
                     (default [] (strategy race3 !! "A")))
             = Some ev ∧ st_compound s' = compound ev) ∧
      (will_pit race3 2 "A" = false →
       tl_lap_times e !! "A" = Some yhat ∧
       st_tyre_age s' = st_tyre_age s + 1 ∧ st_compound s' = st_compound s).
Proof.
  exists (state_after 5 [] idx_stub num_stub (const_predict 5 90) ∅ race3 1),
         (state_after 5 [] idx_stub num_stub (const_predict 5 90) ∅ race3 2),
         {| st_team := "Red"; st_compound := "SOFT"; st_tyre_age := 1;
            st_total_time := 90; st_grid := 1; st_running := true |}.
  split; [reflexivity|]. split; [reflexivity|]. split; [reflexivity|].
  split; [reflexivity|].
  apply (C2_pit_lap 5 [] idx_stub num_stub (const_predict 5 90) ∅ race3 2).
  - apply (bool_decide_unpack _). vm_compute. exact I.
  - lia.
  - reflexivity.
  - reflexivity.
  - reflexivity.
  - reflexivity.
  - intros [=]%list_elem_of_singleton.
Defined.

(** The scenario of the pit stop, in numbers: 90 s predictions, 22 s pit
    loss, A pits on lap 2 from SOFT to HARD. *)
Example scenario_pit_on_lap_two :
  simulate 5 [] idx_stub num_stub (const_predict 5 90) ∅ race3
  = Done (result_of 5 [] idx_stub num_stub (const_predict 5 90) ∅ race3) ∧
  map (λ e, tl_lap_times e !! "A")
      (timeline (result_of 5 [] idx_stub num_stub (const_predict 5 90) ∅ race3))
  = [Some 90%Q; Some 112%Q; Some 90%Q] ∧
  map (λ k, st_tyre_age <$>
            sim_state (state_after 5 [] idx_stub num_stub (const_predict 5 90)
                         ∅ race3 k) !! "A") [1; 2; 3]
  = [Some 1; Some 0; Some 1] ∧
  map (λ k, st_compound <$>
            sim_state (state_after 5 [] idx_stub num_stub (const_predict 5 90)
                         ∅ race3 k) !! "A") [1; 2; 3]
  = [Some "SOFT"; Some "HARD"; Some "HARD"].
Proof. repeat split; vm_compute; reflexivity. Qed.

(** C3 refuted as stated: a roster with two drivers on grid position 1 and
    a pit event at lap 9 of a one-lap race is simulated, lap and result
    included; and a race of zero laps yields a result. *)
Lemma C3_counterexample :
  map grid (drivers race_bad_grid) = [1; 1] ∧
  (∃ res, simulate 5 [] idx_stub num_stub (const_predict 5 90) ∅ race_bad_grid
          = Done res ∧
          map tl_lap (timeline res) = [1] ∧
          map cr_driver (classification res) = ["A"; "B"]) ∧
  (∃ res, simulate 5 [] idx_stub num_stub (const_predict 5 90) ∅ race_zero_laps
          = Done res ∧
          map cr_status (classification res) = [Finished; Finished]).
Proof.
  split; [reflexivity|]. split.
  - exists (result_of 5 [] idx_stub num_stub (const_predict 5 90) ∅
              race_bad_grid).
    split; [reflexivity|]. split; vm_compute; reflexivity.
  - exists (result_of 5 [] idx_stub num_stub (const_predict 5 90) ∅
              race_zero_laps).
    split; [reflexivity|]. vm_compute; reflexivity.
Qed.

(** C3 at work, on a race of zero laps whose roster is not in grid order. *)
Lemma C3_no_configuration_check_witness :
  (total_laps race_zero_laps_b_first < 1 →
   ∃ res, simulate 5 [] idx_stub num_stub (const_predict 5 90) ∅ race_zero_laps_b_first
          = Done res ∧ timeline res = [] ∧
     map cr_driver (classification res) = init_order race_zero_laps_b_first ∧
     map cr_driver (classification res) ≡ₚ map name (drivers race_zero_laps_b_first) ∧
     StronglySorted (λ a b, roster_grid race_zero_laps_b_first a ≤ roster_grid race_zero_laps_b_first b)
       (map cr_driver (classification res)) ∧
     (∀ g, filter (λ n, roster_grid race_zero_laps_b_first n = g)
             (map cr_driver (classification res))
           = filter (λ n, roster_grid race_zero_laps_b_first n = g)
               (map name (drivers race_zero_laps_b_first))) ∧
     (NoDup (map name (drivers race_zero_laps_b_first)) →
      ∀ d, d ∈ drivers race_zero_laps_b_first → roster_grid race_zero_laps_b_first (name d) = grid d) ∧
     Forall (λ row, cr_status row = Finished ∧ cr_total_time row = 0%Q)
       (classification res)) ∧
  simulate 5 [] idx_stub num_stub (const_predict 5 90) ∅ race_zero_laps_b_first
  = simulate 5 [] idx_stub num_stub (const_predict 5 90) ∅
      (with_strategy (in_range_plan race_zero_laps_b_first) race_zero_laps_b_first) ∧
  ((∀ X, length (const_predict 5 90 X) = 5%nat) →
   encodes_race [] idx_stub num_stub race_zero_laps_b_first →
   NoDup (map name (drivers race_zero_laps_b_first)) →
   total_laps race_zero_laps_b_first ≤ Z.of_nat 5 →
   ∃ res, simulate 5 [] idx_stub num_stub (const_predict 5 90) ∅ race_zero_laps_b_first
          = Done res).
Proof.
  exact (C3_no_configuration_check 5 [] idx_stub num_stub (const_predict 5 90) ∅
           race_zero_laps_b_first).
Defined.

(** The race of zero laps with B listed first: A, on grid position 1, is
    classified first. *)
Example zero_laps_in_grid_order :
  map grid (drivers race_zero_laps_b_first) = [2; 1] ∧
  map cr_driver
    (classification (result_of 5 [] idx_stub num_stub (const_predict 5 90) ∅ race_zero_laps_b_first))
  = ["A"; "B"].
Proof. split; vm_compute; reflexivity. Qed.

(** C4 at work: B retires on lap 2 of [race3]. *)
Lemma C4_retirement_witness :
  ∃ res,
    simulate 5 [] idx_stub num_stub (const_predict 5 90) ∅ race3 = Done res ∧
    ∃ σr sr,
      run_to 5 [] idx_stub num_stub (const_predict 5 90) ∅ race3 (2 - 1)
      = Done σr ∧ sim_state σr !! "B" = Some sr ∧
      (∀ e, e ∈ timeline res → 2 ≤ tl_lap e → tl_lap_times e !! "B" = None) ∧
      (∀ j σj, 2 ≤ j →
         run_to 5 [] idx_stub num_stub (const_predict 5 90) ∅ race3 j = Done σj →
         ∃ sj, sim_state σj !! "B" = Some sj ∧ st_running sj = false ∧
               st_total_time sj = st_total_time sr) ∧
      {| cr_pos := None; cr_driver := "B"; cr_team := st_team sr;
         cr_total_time := st_total_time sr; cr_status := DNF |}
        ∈ classification res ∧
      (∀ row, row ∈ classification res → cr_driver row = "B" →
         cr_status row = DNF ∧ cr_pos row = None ∧
         cr_total_time row = st_total_time sr).
Proof.
  exists (result_of 5 [] idx_stub num_stub (const_predict 5 90) ∅ race3).
  split; [reflexivity|].
  apply (C4_retirement 5 [] idx_stub num_stub (const_predict 5 90) ∅ race3
           "B" 2).
  - apply list_elem_of_singleton. reflexivity.
  - simpl. lia.
  - apply (bool_decide_unpack _). vm_compute. exact I.
  - reflexivity.
Defined.

(** The scenario of the retirement, in numbers: B has the 90 s of lap 1 and
    nothing more. *)
Example scenario_retire_on_lap_two :
  simulate 5 [] idx_stub num_stub (const_predict 5 90) ∅ race3
  = Done (result_of 5 [] idx_stub num_stub (const_predict 5 90) ∅ race3) ∧
  map (λ e, tl_lap_times e !! "B")
      (timeline (result_of 5 [] idx_stub num_stub (const_predict 5 90) ∅ race3))
  = [Some 90%Q; None; None] ∧
  classification (result_of 5 [] idx_stub num_stub (const_predict 5 90) ∅ race3)
  = [ {| cr_pos := Some 1; cr_driver := "A"; cr_team := "Red";
         cr_total_time := 292; cr_status := Finished |};
      {| cr_pos := None; cr_driver := "B"; cr_team := "Blue";
         cr_total_time := 90; cr_status := DNF |} ].
Proof. repeat split; vm_compute; reflexivity. Qed.

(** C5 refuted as stated: the configuration [race_negative_pit_loss] is
    accepted, the predictor returns 90 s, and A's total goes from 0 to -10 on
    the lap with the pit stop. *)
Lemma C5_counterexample :
  ∃ σ0 σ1,
    run_to 5 [] idx_stub num_stub (const_predict 5 90) ∅
      race_negative_pit_loss 0 = Done σ0 ∧
    run_to 5 [] idx_stub num_stub (const_predict 5 90) ∅
      race_negative_pit_loss 1 = Done σ1 ∧
    total_time_of (sim_state σ0) "A" = 0%Q ∧
    total_time_of (sim_state σ1) "A" = (-10)%Q ∧
    ¬ (total_time_of (sim_state σ0) "A" <= total_time_of (sim_state σ1) "A")%Q.
Proof.
  exists (state_after 5 [] idx_stub num_stub (const_predict 5 90) ∅
            race_negative_pit_loss 0),
         (state_after 5 [] idx_stub num_stub (const_predict 5 90) ∅
            race_negative_pit_loss 1).
  split; [reflexivity|]. split; [reflexivity|].
  split; [vm_compute; reflexivity|]. split; [vm_compute; reflexivity|].
  vm_compute. intros H. by apply H.
Qed.

(** C5 at work: B and its total between laps 1 and 3 of [race3]. *)
Lemma C5_cumulative_time_monotone_witness :
  ∃ σj σk,
    run_to 5 [] idx_stub num_stub (const_predict 5 90) ∅ race3 1 = Done σj ∧
    run_to 5 [] idx_stub num_stub (const_predict 5 90) ∅ race3 3 = Done σk ∧
    (total_time_of (sim_state σj) "B" <= total_time_of (sim_state σk) "B")%Q ∧
    (running_of (sim_state σj) "B" = false →
     running_of (sim_state σk) "B" = false ∧
     total_time_of (sim_state σk) "B" = total_time_of (sim_state σj) "B").
Proof.
  exists (state_after 5 [] idx_stub num_stub (const_predict 5 90) ∅ race3 1),
         (state_after 5 [] idx_stub num_stub (const_predict 5 90) ∅ race3 3).
  split; [reflexivity|]. split; [reflexivity|].
  apply (C5_cumulative_time_monotone 5 [] idx_stub num_stub
           (const_predict 5 90) ∅ race3 1 3).
  - intros X. apply Forall_replicate. vm_compute. intros [=].
  - vm_compute. intros [=].
  - lia.
  - reflexivity.
  - reflexivity.
Defined.

(** C6 at work: two positions, two laps. *)
Lemma C6_rolling_history_fifo_witness :
  ∃ σ h,
    run_to 2 [] idx_stub num_stub (const_predict 2 90) ∅ race3 2 = Done σ ∧
    sim_history σ !! "A" = Some h ∧
    (length h ≤ 2)%nat ∧
    h = py_last 2
          (snapshots_between 2 [] idx_stub num_stub (const_predict 2 90) ∅
             race3 "A" 1 2) ∧
    (running_of (sim_state σ) "A" = true → Z.of_nat 2 ≤ 2 →
     h = snapshots_between 2 [] idx_stub num_stub (const_predict 2 90) ∅
           race3 "A" (2 - Z.of_nat 2 + 1) (Z.of_nat 2)
     ∧ length h = 2%nat).
Proof.
  exists (state_after 2 [] idx_stub num_stub (const_predict 2 90) ∅ race3 2),
         (snapshots_between 2 [] idx_stub num_stub (const_predict 2 90) ∅
            race3 "A" 1 2).
  split; [reflexivity|]. split; [reflexivity|].
  apply (C6_rolling_history_fifo 2 [] idx_stub num_stub (const_predict 2 90) ∅
           race3 2).
  - discriminate.
  - apply (bool_decide_unpack _). vm_compute. exact I.
  - reflexivity.
  - reflexivity.
Defined.

(** Eviction seen at work: a stub that returns three predictions lets a
    race of three laps run with [max_len = 2]; the history of A then holds
    the snapshots of laps 2 and 3. *)
Example history_evicts_oldest :
  run_to 2 [] idx_stub num_stub (const_predict 3 90) ∅ race3 3
  = Done (state_after 2 [] idx_stub num_stub (const_predict 3 90) ∅ race3 3) ∧
  map (λ step, get_val step "lap_number")
      (default []
         (sim_history (state_after 2 [] idx_stub num_stub (const_predict 3 90)
                         ∅ race3 3) !! "A"))
  = [VInt 2; VInt 3] ∧
  map (λ step, get_val step "tyre_age")
      (default []
         (sim_history (state_after 2 [] idx_stub num_stub (const_predict 3 90)
                         ∅ race3 3) !! "A"))
  = [VInt 0; VInt 1].
Proof. repeat split; vm_compute; reflexivity. Qed.

(** C7 at work: the classification of [race3]. *)
Lemma C7_final_classification_witness :
  ∃ res,
    simulate 5 [] idx_stub num_stub (const_predict 5 90) ∅ race3 = Done res ∧
    ∃ σ fin dnf laps,
      run_to 5 [] idx_stub num_stub (const_predict 5 90) ∅ race3
        (total_laps race3) = Done σ ∧
      classification res = fin ++ dnf ∧
      map cr_driver (classification res) ≡ₚ map name (drivers race3) ∧
      (length fin + length dnf = length (drivers race3))%nat ∧
      Forall (λ row, cr_status row = Finished ∧
                     running_of (sim_state σ) (cr_driver row) = true ∧
                     cr_total_time row
                     = total_time_of (sim_state σ) (cr_driver row)) fin ∧
      map cr_pos fin = map Some (seqZ 1 (Z.of_nat (length fin))) ∧
      StronglySorted (λ a b, cr_total_time a <= cr_total_time b)%Q fin ∧
      Forall (λ row, cr_status row = DNF ∧ cr_pos row = None ∧
                     running_of (sim_state σ) (cr_driver row) = false ∧
                     cr_total_time row
                     = total_time_of (sim_state σ) (cr_driver row)) dnf ∧
      Forall2 (λ row r, retires_at race3 (cr_driver row) r) dnf laps ∧
      StronglySorted (λ a b, b ≤ a) laps ∧
      (1 ≤ total_laps race3 →
       ∃ σp, run_to 5 [] idx_stub num_stub (const_predict 5 90) ∅ race3
               (total_laps race3 - 1) = Done σp ∧
         ∀ t, filter (λ n, Qeq_bool (total_time_of (sim_state σ) n) t = true)
                (map cr_driver fin)
              = filter (λ n, Qeq_bool (total_time_of (sim_state σ) n) t = true)
                  (filter (λ n, running_of (sim_state σ) n = true)
                     (sim_order σp))).
Proof.
  exists (result_of 5 [] idx_stub num_stub (const_predict 5 90) ∅ race3).
  split; [reflexivity|].
  apply (C7_final_classification 5 [] idx_stub num_stub (const_predict 5 90) ∅
           race3).
  reflexivity.
Defined.

(** C8 at work: lap 2 of [race3], under the safety car. *)
Lemma C8_safety_car_flag_witness :
  ∃ σ σ',
    run_to 5 [] idx_stub num_stub (const_predict 5 90) ∅ race3 (2 - 1)
    = Done σ ∧
    run_to 5 [] idx_stub num_stub (const_predict 5 90) ∅ race3 2 = Done σ' ∧
    (∀ e, e ∈ sim_timeline σ' →
       (tl_is_sc e = true ↔ in_window (tl_lap e) (safety_cars race3))) ∧
    ∃ e, last (sim_timeline σ') = Some e ∧ tl_lap e = 2 ∧
      ∀ n s, n ∈ sim_order σ → sim_state σ !! n = Some s →
        st_running s = true → (n, 2) ∉ dnfs race3 →
        ∃ h yhat_seq yhat,
          sim_history σ !! n = Some h ∧
          predict_sequence 5 [] idx_stub num_stub (const_predict 5 90)
            (h ++ [build_step race3 2 (tl_is_sc e) n s])
          = Done yhat_seq ∧
          yhat_seq !! length h = Some yhat ∧
          tl_lap_times e !! n
            = Some (if will_pit race3 2 n then (yhat + pit_loss ∅ race3)%Q
                    else yhat) ∧
          (not_overridden race3 2 "is_sc" →
           (build_step race3 2 (tl_is_sc e) n s !! "is_sc" = Some (VInt 1)
            ↔ in_window 2 (safety_cars race3))).
Proof.
  exists (state_after 5 [] idx_stub num_stub (const_predict 5 90) ∅ race3 1),
         (state_after 5 [] idx_stub num_stub (const_predict 5 90) ∅ race3 2).
  split; [reflexivity|]. split; [reflexivity|].
  apply (C8_safety_car_flag 5 [] idx_stub num_stub (const_predict 5 90) ∅
           race3 2); [lia|reflexivity|reflexivity].
Defined.

(** The scenario of the safety car, in numbers: window [2, 2]. *)
Example scenario_safety_car_on_lap_two :
  map (λ e, (tl_lap e, tl_is_sc e))
      (timeline (result_of 5 [] idx_stub num_stub (const_predict 5 90) ∅ race3))
  = [(1, false); (2, true); (3, false)].
Proof. vm_compute. reflexivity. Qed.

(** The median of an odd and of an even number of values. *)
Example median_at_work :
  median [3; 1; 2]%Q = Some 2%Q ∧
  median [4; 1; 3; 2]%Q = Some ((2 + 3) / 2)%Q ∧
  median [] = None.
Proof. repeat split; vm_compute; reflexivity. Qed.

(** C9 at work: the table estimated from [demo_laps], and a race at Spa. *)
Lemma C9_pit_loss_estimate_witness :
  (base_times (group_rows "Monza" demo_laps) ≠ [] →
   pit_times (group_rows "Monza" demo_laps) ≠ [] →
   ∃ med_base loss,
     median (base_times (group_rows "Monza" demo_laps)) = Some med_base ∧
     is_median (base_times (group_rows "Monza" demo_laps)) med_base ∧
     median (map (λ t, t - med_base)%Q (pit_times (group_rows "Monza" demo_laps)))
       = Some loss ∧
     is_median
       (map (λ t, t - med_base)%Q (pit_times (group_rows "Monza" demo_laps)))
       loss ∧
     ((5 < loss)%Q ∧ (loss < 60)%Q →
      _estimate_pit_loss true demo_laps !! "Monza" = Some loss) ∧
     (¬ ((5 < loss)%Q ∧ (loss < 60)%Q) →
      _estimate_pit_loss true demo_laps !! "Monza" = None)) ∧
  (base_times (group_rows "Monza" demo_laps) = []
   ∨ pit_times (group_rows "Monza" demo_laps) = [] →
   _estimate_pit_loss true demo_laps !! "Monza" = None) ∧
  (_estimate_pit_loss true demo_laps !! circuit race_spa = None →
   pit_loss (_estimate_pit_loss true demo_laps) race_spa
   = default_pit_loss race_spa ∧
   (∀ res,
      simulate 5 [] idx_stub num_stub (const_predict 5 90)
        (_estimate_pit_loss true demo_laps) race_spa = Done res →
      pit_loss_used res = default_pit_loss race_spa) ∧
   (∀ lap_no sc hist n s t,
      will_pit race_spa lap_no n = true →
      lap_time 5 [] idx_stub num_stub (const_predict 5 90)
        (_estimate_pit_loss true demo_laps) race_spa lap_no sc hist n s
      = Done t →
      ∃ h yhat_seq yhat, hist !! n = Some h ∧
        predict_sequence 5 [] idx_stub num_stub (const_predict 5 90)
          (h ++ [build_step race_spa lap_no sc n s])
        = Done yhat_seq ∧
        yhat_seq !! length h = Some yhat ∧
        t = (yhat + default_pit_loss race_spa)%Q)).
Proof.
  apply (C9_pit_loss_estimate 5 [] idx_stub num_stub (const_predict 5 90)
           (_estimate_pit_loss true demo_laps) demo_laps "Monza" race_spa).
  reflexivity.
Defined.

(** The race at Spa is charged the caller's 25 s on the pit lap. *)
Example default_pit_loss_at_spa :
  simulate 5 [] idx_stub num_stub (const_predict 5 90)
    (_estimate_pit_loss true demo_laps) race_spa
  = Done (result_of 5 [] idx_stub num_stub (const_predict 5 90)
            (_estimate_pit_loss true demo_laps) race_spa) ∧
  pit_loss_used (result_of 5 [] idx_stub num_stub (const_predict 5 90)
                   (_estimate_pit_loss true demo_laps) race_spa) = 25%Q ∧
  map (λ e, tl_lap_times e !! "A")
      (timeline (result_of 5 [] idx_stub num_stub (const_predict 5 90)
                   (_estimate_pit_loss true demo_laps) race_spa))
  = [Some 115%Q; Some 90%Q].
Proof. repeat split; vm_compute; reflexivity. Qed.

(** C10 at work: the entry for "Ghost" in [race3_ghost]. *)
Lemma C10_unknown_dnf_ignored_witness :
  (∀ k, run_to 5 [] idx_stub num_stub (const_predict 5 90) ∅ race3_ghost k
        = run_to 5 [] idx_stub num_stub (const_predict 5 90) ∅
            (with_dnfs ([("B", 2)] ++ []) race3_ghost) k) ∧
  simulate 5 [] idx_stub num_stub (const_predict 5 90) ∅ race3_ghost
  = simulate 5 [] idx_stub num_stub (const_predict 5 90) ∅
      (with_dnfs ([("B", 2)] ++ []) race3_ghost).
Proof.
  apply (C10_unknown_dnf_ignored 5 [] idx_stub num_stub (const_predict 5 90) ∅
           race3_ghost [("B", 2)] [] "Ghost" 1).
  - reflexivity.
  - apply (bool_decide_unpack _). vm_compute. exact I.
Defined.

(** * Column lookup *)

Section find_col_facts.
Variable lower : string → string.

Lemma first_exact_Some cols keys k :
  first_exact cols keys = Some k ↔
  ∃ pre post, keys = pre ++ k :: post ∧ k ∈ cols ∧ ∀ x, x ∈ pre → x ∉ cols.
Proof.
  induction keys as [|k0 keys IH]; simpl.
  - split; [done|]. intros (pre & post & H & _). by destruct pre.
  - case_bool_decide as Hk0.
    + split.
      * intros [= <-]. exists [], keys. split; [done|]. split; [done|].
        by intros x ?%elem_of_nil.
      * intros (pre & post & Hk & Hin & Hpre). destruct pre as [|p pre].
        -- by injection Hk as -> _.
        -- injection Hk as -> _. destruct (Hpre p); [left|done].
    + rewrite IH. split.
      * intros (pre & post & -> & Hin & Hpre). exists (k0 :: pre), post.
        split; [done|]. split; [done|].
        intros x [->|?]%elem_of_cons; [done|by apply Hpre].
      * intros (pre & post & Hk & Hin & Hpre). destruct pre as [|p pre].
        -- injection Hk as -> _. done.
        -- injection Hk as -> ->. exists pre, post. split; [done|].
           split; [done|]. intros x ?. apply Hpre. by right.
Qed.

Lemma first_exact_None cols keys :
  first_exact cols keys = None ↔ ∀ k, k ∈ keys → k ∉ cols.
Proof.
  induction keys as [|k0 keys IH]; simpl.
  - split; [|done]. by intros _ k ?%elem_of_nil.
  - case_bool_decide as Hk0.
    + split; [done|]. intros H. destruct (H k0); [left|done].
    + rewrite IH. split.
      * intros H k [->|?]%elem_of_cons; [done|by apply H].
      * intros H k ?. apply H. by right.
Qed.

Lemma low_index_snoc columns c :
  low_index lower (columns ++ [c]) = <[lower c := c]> (low_index lower columns).
Proof. unfold low_index. by rewrite foldl_app. Qed.

Lemma low_index_None columns s :
  low_index lower columns !! s = None ↔ ∀ c, c ∈ columns → lower c ≠ s.
Proof.
  induction columns as [|c columns IH] using rev_ind.
  - split; [|done]. by intros _ c ?%elem_of_nil.
  - rewrite low_index_snoc. destruct (decide (lower c = s)) as [<-|Hne].
    + rewrite lookup_insert_eq. split; [done|].
      intros H. destruct (H c); [|done]. apply elem_of_app. right. by left.
    + rewrite lookup_insert_ne, IH by done. split.
      * intros H x [?|Hx%list_elem_of_singleton]%elem_of_app;
          [by apply H|by subst].
      * intros H x ?. apply H, elem_of_app. by left.
Qed.

Lemma low_index_Some columns s c :
  low_index lower columns !! s = Some c ↔
  ∃ pre post, columns = pre ++ c :: post ∧ lower c = s
              ∧ ∀ x, x ∈ post → lower x ≠ s.
Proof.
  induction columns as [|c0 columns IH] using rev_ind.
  - split; [done|]. intros (pre & post & H & _). by destruct pre.
  - rewrite low_index_snoc. destruct (decide (lower c0 = s)) as [<-|Hne].
    + rewrite lookup_insert_eq. split.
      * intros [= <-]. exists columns, []. split; [done|]. split; [done|].
        by intros x ?%elem_of_nil.
      * intros (pre & post & Hc & Hl & Hpost).
        destruct post as [|p post _] using rev_ind.
        -- apply app_inj_tail in Hc as [_ ->]. done.
        -- rewrite app_comm_cons, app_assoc in Hc.
           apply app_inj_tail in Hc as [_ ->].
           destruct (Hpost p); [|done]. apply elem_of_app. right. by left.
    + rewrite lookup_insert_ne, IH by done. split.
      * intros (pre & post & -> & Hl & Hpost). exists pre, (post ++ [c0]).
        split; [by rewrite <-app_assoc|]. split; [done|].
        intros x [?|Hx%list_elem_of_singleton]%elem_of_app;
          [by apply Hpost|by subst].
      * intros (pre & post & Hc & Hl & Hpost).
        destruct post as [|p post _] using rev_ind.
        -- apply app_inj_tail in Hc as [_ ->]. done.
        -- rewrite app_comm_cons, app_assoc in Hc.
           apply app_inj_tail in Hc as [-> ->]. exists pre, post.
           split; [done|]. split; [done|]. intros x ?. apply Hpost.
           apply elem_of_app. by left.
Qed.

Lemma first_low_Some low keys c :
  first_low lower low keys = Some c ↔
  ∃ pre k post, keys = pre ++ k :: post ∧ low !! lower k = Some c
                ∧ ∀ x, x ∈ pre → low !! lower x = None.
Proof.
  induction keys as [|k0 keys IH]; simpl.
  - split; [done|]. intros (pre & k & post & H & _). by destruct pre.
  - destruct (low !! lower k0) as [c0|] eqn:Hk0.
    + split.
      * intros [= <-]. exists [], k0, keys. split; [done|]. split; [done|].
        by intros x ?%elem_of_nil.
      * intros (pre & k & post & Hk & Hl & Hpre). destruct pre as [|p pre].
        -- injection Hk as -> _. congruence.
        -- injection Hk as -> _. rewrite Hpre in Hk0; [done|left].
    + rewrite IH. split.
      * intros (pre & k & post & -> & Hl & Hpre). exists (k0 :: pre), k, post.
        split; [done|]. split; [done|].
        intros x [->|?]%elem_of_cons; [done|by apply Hpre].
      * intros (pre & k & post & Hk & Hl & Hpre). destruct pre as [|p pre].
        -- injection Hk as -> _. congruence.
        -- injection Hk as -> ->. exists pre, k, post. split; [done|].
           split; [done|]. intros x ?. apply Hpre. by right.
Qed.

Lemma first_low_None low keys :
  first_low lower low keys = None ↔ ∀ k, k ∈ keys → low !! lower k = None.
Proof.
  induction keys as [|k0 keys IH]; simpl.
  - split; [|done]. by intros _ k ?%elem_of_nil.
  - destruct (low !! lower k0) as [c0|] eqn:Hk0.
    + split; [done|]. intros H. rewrite H in Hk0; [done|left].
    + rewrite IH. split.
      * intros H k [->|?]%elem_of_cons; [done|by apply H].
      * intros H k ?. apply H. by right.
Qed.

(** X13: [find_col] returns a column of the frame that equals one of the
    candidates up to letter case, and it returns [None] exactly when no
    column equals any candidate up to letter case. *)
Theorem find_col_finds_a_match_iff_one_exists (columns keys : list string) :
  (∀ c, find_col lower columns keys = Some c →
        c ∈ columns ∧ ∃ k, k ∈ keys ∧ lower k = lower c) ∧
  (find_col lower columns keys = None
   ↔ ∀ k c, k ∈ keys → c ∈ columns → lower k ≠ lower c).
Proof.
  unfold find_col. cbv zeta. split.
  - intros c. destruct (first_exact _ keys) as [k|] eqn:Hex.
    + intros [= <-]. apply first_exact_Some in Hex
        as (pre & post & -> & Hin%elem_of_list_to_set & _).
      split; [done|]. exists k. split; [|done].
      apply elem_of_app. right. by left.
    + intros (pre & k & post & -> & Hl & _)%first_low_Some.
      apply low_index_Some in Hl as (cpre & cpost & -> & Hl & _).
      split; [apply elem_of_app; right; by left|].
      exists k. split; [|done]. apply elem_of_app. right. by left.
  - destruct (first_exact _ keys) as [k|] eqn:Hex.
    + split; [done|]. intros H.
      apply first_exact_Some in Hex
        as (pre & post & -> & Hin%elem_of_list_to_set & _).
      destruct (H k k); [apply elem_of_app; right; by left|done|done].
    + rewrite first_low_None. split.
      * intros H k c Hk Hc Heq. apply (proj1 (low_index_None _ _) (H k Hk) c Hc).
        done.
      * intros H k Hk. apply low_index_None. intros c Hc Heq.
        by apply (H k c).
Qed.

(** X14: an exact match always wins: if some candidate is a column as written,
    [find_col] returns the first such candidate, even when an earlier
    candidate matches a column up to letter case.  Only when no candidate is
    a column as written is the lower-cased lookup used; it then returns, for
    the first candidate that matches at all, the last of the columns that
    match it. *)
Theorem find_col_prefers_exact_match (columns keys : list string) :
  (∀ k0, k0 ∈ keys → k0 ∈ columns →
     ∃ pre k post, keys = pre ++ k :: post ∧ k ∈ columns
       ∧ (∀ x, x ∈ pre → x ∉ columns)
       ∧ find_col lower columns keys = Some k) ∧
  ((∀ k, k ∈ keys → k ∉ columns) →
   ∀ c, find_col lower columns keys = Some c ↔
     ∃ pre k post cpre cpost,
       keys = pre ++ k :: post
       ∧ (∀ x c', x ∈ pre → c' ∈ columns → lower c' ≠ lower x)
       ∧ columns = cpre ++ c :: cpost ∧ lower c = lower k
       ∧ ∀ x, x ∈ cpost → lower x ≠ lower k).
Proof.
  unfold find_col. cbv zeta. split.
  - intros k0 Hk0 Hc0.
    destruct (first_exact (list_to_set columns) keys) as [k|] eqn:Hex.
    + pose proof Hex as (pre & post & -> & Hin & Hpre)%first_exact_Some.
      exists pre, k, post. split; [done|].
      split; [by apply elem_of_list_to_set in Hin|]. split; [|done].
      intros x Hx ?. apply (Hpre x Hx). by apply elem_of_list_to_set.
    + exfalso. apply (proj1 (first_exact_None _ _) Hex k0 Hk0).
      by apply elem_of_list_to_set.
  - intros Hno c.
    assert (first_exact (list_to_set columns) keys = None) as ->.
    { apply first_exact_None. intros k Hk ?%elem_of_list_to_set.
      by apply (Hno k). }
    rewrite first_low_Some. split.
    + intros (pre & k & post & -> & Hl & Hpre).
      apply low_index_Some in Hl as (cpre & cpost & -> & Hl & Hpost).
      exists pre, k, post, cpre, cpost. split; [done|]. split; [|done].
      intros x c' Hx. by apply low_index_None, Hpre.
    + intros (pre & k & post & cpre & cpost & -> & Hpre & -> & Hl & Hpost).
      exists pre, k, post. split; [done|]. split.
      * apply low_index_Some. by exists cpre, cpost.
      * intros x Hx. apply low_index_None. intros c' Hc'. by apply Hpre.
Qed.

End find_col_facts.

(** * Vocabulary of a categorical column *)

Lemma str_ltb_lt (a b : string) :
  Stdlib.Strings.String.ltb a b = true ↔ OrderedTypeEx.String_as_OT.lt a b.
Proof.
  rewrite <-OrderedTypeEx.String_as_OT.cmp_lt.
  unfold Stdlib.Strings.String.ltb, OrderedTypeEx.String_as_OT.cmp.
  by destruct (Stdlib.Strings.String.compare a b).
Qed.

Lemma str_ltb_irrefl (a : string) : Stdlib.Strings.String.ltb a a = false.
Proof.
  destruct (Stdlib.Strings.String.ltb a a) eqn:H; [|done].
  apply str_ltb_lt in H. by apply OrderedTypeEx.String_as_OT.lt_not_eq in H.
Qed.

Lemma str_ltb_trans (a b c : string) :
  Stdlib.Strings.String.ltb a b = true → Stdlib.Strings.String.ltb b c = true →
  Stdlib.Strings.String.ltb a c = true.
Proof.
  rewrite !str_ltb_lt. apply OrderedTypeEx.String_as_OT.lt_trans.
Qed.

Lemma str_ltb_asym (a b : string) :
  Stdlib.Strings.String.ltb a b = true → Stdlib.Strings.String.ltb b a = false.
Proof.
  intros H. destruct (Stdlib.Strings.String.ltb b a) eqn:H'; [|done].
  pose proof (str_ltb_trans _ _ _ H H') as Haa.
  by rewrite str_ltb_irrefl in Haa.
Qed.

Lemma str_ltb_total (a b : string) :
  Stdlib.Strings.String.ltb a b = false → a ≠ b →
  Stdlib.Strings.String.ltb b a = true.
Proof.
  intros H Hne. unfold Stdlib.Strings.String.ltb in *.
  rewrite Stdlib.Strings.String.compare_antisym.
  destruct (Stdlib.Strings.String.compare a b) eqn:Hc; [|done|done].
  by apply Stdlib.Strings.String.compare_eq_iff in Hc.
Qed.

Lemma str_ltb_negtrans (a b c : string) :
  Stdlib.Strings.String.ltb b a = false → Stdlib.Strings.String.ltb c b = false →
  Stdlib.Strings.String.ltb c a = false.
Proof.
  intros Hba Hcb. destruct (Stdlib.Strings.String.ltb c a) eqn:Hca; [|done].
  destruct (decide (c = b)) as [->|Hne]; [congruence|].
  pose proof (str_ltb_total c b Hcb Hne) as Hbc.
  pose proof (str_ltb_trans _ _ _ Hbc Hca). congruence.
Qed.

Lemma insert_by_str_sorted (x : string) (l : list string) :
  StronglySorted (λ a b, Stdlib.Strings.String.ltb b a = false) l →
  StronglySorted (λ a b, Stdlib.Strings.String.ltb b a = false)
    (insert_by Stdlib.Strings.String.ltb id x l).
Proof.
  induction 1 as [|y l Hs IH Hall]; simpl.
  - by repeat constructor.
  - unfold id. destruct (Stdlib.Strings.String.ltb y x) eqn:Hyx.
    + constructor; [done|].
      rewrite (insert_by_perm Stdlib.Strings.String.ltb id x l).
      constructor; [by apply str_ltb_asym|done].
    + constructor; [by constructor|]. constructor; [done|].
      eapply Forall_impl; [done|]. simpl. intros z Hz.
      by apply (str_ltb_negtrans x y z).
Qed.

Lemma sorted_str_sorted (l : list string) :
  StronglySorted (λ a b, Stdlib.Strings.String.ltb b a = false)
    (sorted Stdlib.Strings.String.ltb id l).
Proof.
  induction l as [|x l IH]; simpl; [constructor|by apply insert_by_str_sorted].
Qed.

Lemma StronglySorted_lookup_lt {A} (R : A → A → Prop) l i j a b :
  StronglySorted R l → l !! i = Some a → l !! j = Some b → (i < j)%nat → R a b.
Proof.
  intros Hs. revert i j. induction Hs as [|x l Hs IH Hall]; intros i j.
  - by rewrite lookup_nil.
  - destruct i as [|i], j as [|j]; simpl; try lia.
    + intros [= <-] Hb _. rewrite Forall_forall in Hall.
      apply Hall. by eapply list_elem_of_lookup_2.
    + intros Ha Hb ?. apply (IH i j); [done|done|lia].
Qed.

Lemma unique_from_elem seen values v :
  v ∈ SeqPreprocessor.unique_from seen values ↔ v ∈ values ∧ v ∉ seen.
Proof.
  revert seen. induction values as [|x values IH]; intros seen; simpl.
  - split; [by intros ?%elem_of_nil|by intros [?%elem_of_nil _]].
  - case_bool_decide as Hx.
    + rewrite IH. split.
      * intros [? ?]. split; [by right|done].
      * intros [[->|?]%elem_of_cons ?]; [done|by split].
    + rewrite elem_of_cons, IH. split.
      * intros [->|[? Hn]]; [split; [left|done]|].
        split; [by right|]. intros ?. apply Hn, elem_of_union. by right.
      * intros [[->|?]%elem_of_cons ?]; [by left|].
        destruct (decide (v = x)) as [->|]; [by left|].
        right. split; [done|].
        intros [?%elem_of_singleton|?]%elem_of_union; done.
Qed.

Lemma unique_from_NoDup seen values :
  NoDup (SeqPreprocessor.unique_from seen values).
Proof.
  revert seen. induction values as [|x values IH]; intros seen; simpl.
  - constructor.
  - case_bool_decide; [done|]. constructor; [|done].
    rewrite unique_from_elem. intros [_ Hn]. apply Hn, elem_of_union.
    left. by apply elem_of_singleton.
Qed.

Lemma enum_lookup_notin (b : gmap string Z) i (l : list string) v :
  v ∉ l →
  foldl (λ m '(i, v), <[v := i]> m) b (SeqPreprocessor.enumerate_from i l) !! v
  = b !! v.
Proof.
  revert b i. induction l as [|x l IH]; intros b i Hv; [done|]. simpl.
  rewrite IH by (intros ?; apply Hv; by right).
  apply lookup_insert_ne. intros ->. apply Hv. left.
Qed.

Lemma enum_lookup_in (b : gmap string Z) i (l : list string) p v :
  NoDup l → l !! p = Some v →
  foldl (λ m '(i, v), <[v := i]> m) b (SeqPreprocessor.enumerate_from i l) !! v
  = Some (i + Z.of_nat p).
Proof.
  revert b i p. induction l as [|x l IH]; intros b i p Hnd; [done|].
  apply NoDup_cons in Hnd as [Hx Hnd]. destruct p as [|p]; simpl.
  - intros [= ->]. rewrite enum_lookup_notin by done.
    rewrite lookup_insert_eq. f_equal. lia.
  - intros Hp. rewrite (IH _ _ p) by done. f_equal. lia.
Qed.

Lemma build_index_lookup values v :
  let S := sorted Stdlib.Strings.String.ltb id (SeqPreprocessor.pd_unique values) in
  NoDup S ∧ (∀ x, x ∈ S ↔ x ∈ values) ∧
  length S = length (SeqPreprocessor.pd_unique values) ∧
  (∀ p, S !! p = Some v →
        SeqPreprocessor._build_index values !! v = Some (2 + Z.of_nat p)) ∧
  (v ∉ values →
   SeqPreprocessor._build_index values !! v
   = if decide (v = "<UNK>") then Some 1
     else if decide (v = "<PAD>") then Some 0 else None).
Proof.
  cbv zeta.
  pose proof (sorted_perm Stdlib.Strings.String.ltb id
                (SeqPreprocessor.pd_unique values)) as Hperm.
  assert (NoDup (sorted Stdlib.Strings.String.ltb id
                   (SeqPreprocessor.pd_unique values))) as Hnd
    by (rewrite Hperm; apply unique_from_NoDup).
  assert (∀ x, x ∈ sorted Stdlib.Strings.String.ltb id
                     (SeqPreprocessor.pd_unique values) ↔ x ∈ values) as Hel.
  { intros x. rewrite Hperm. unfold SeqPreprocessor.pd_unique.
    rewrite unique_from_elem. split; [by intros [? _]|].
    intros ?. split; [done|apply not_elem_of_empty]. }
  split; [done|]. split; [done|]. split; [apply sorted_length|].
  unfold SeqPreprocessor._build_index. cbv zeta.
  cbn [app SeqPreprocessor.enumerate_from foldl]. split.
  - intros p Hp. by rewrite (enum_lookup_in _ _ _ p) by done.
  - intros Hv. rewrite enum_lookup_notin by (by rewrite Hel).
    destruct (decide (v = "<UNK>")) as [->|Hu]; [by rewrite lookup_insert_eq|].
    rewrite lookup_insert_ne by done.
    destruct (decide (v = "<PAD>")) as [->|Hp]; [by rewrite lookup_insert_eq|].
    by rewrite lookup_insert_ne.
Qed.

(** X15: the vocabulary built from a column: every value of the column gets a
    code of its own from 2 upwards, in the order of the sorted distinct
    values; the only other keys are the two reserved tokens; and the padding
    token has code 0 and the unknown token code 1 exactly when the column does
    not itself contain that token (a column value that spells a reserved
    token takes the token's entry over, with a code of 2 or more). *)
Theorem build_index_codes (values : list string) :
  let m := SeqPreprocessor._build_index values in
  (m !! "<PAD>" = Some 0 ↔ "<PAD>" ∉ values) ∧
  (m !! "<UNK>" = Some 1 ↔ "<UNK>" ∉ values) ∧
  (∀ v, v ∈ values →
     ∃ i, m !! v = Some i
          ∧ 2 ≤ i < 2 + Z.of_nat (length (SeqPreprocessor.pd_unique values))) ∧
  (∀ v, is_Some (m !! v) ↔ v = "<PAD>" ∨ v = "<UNK>" ∨ v ∈ values) ∧
  (∀ v w i, m !! v = Some i → m !! w = Some i → v = w) ∧
  (∀ v w i j, v ∈ values → w ∈ values → m !! v = Some i → m !! w = Some j →
     Stdlib.Strings.String.ltb v w = true → i < j).
Proof.
  cbv zeta.
  assert (∀ v, v ∈ values →
            ∃ p, sorted Stdlib.Strings.String.ltb id
                   (SeqPreprocessor.pd_unique values) !! p = Some v
                 ∧ (p < length (SeqPreprocessor.pd_unique values))%nat
                 ∧ SeqPreprocessor._build_index values !! v
                   = Some (2 + Z.of_nat p)) as Hin.
  { intros v Hv. destruct (build_index_lookup values v)
      as (_ & Hel & Hlen & Hp & _).
    apply Hel in Hv. apply list_elem_of_lookup_1 in Hv as [p Hv].
    exists p. split; [done|]. split; [|by apply Hp].
    rewrite <-Hlen. by eapply lookup_lt_Some. }
  assert (∀ v, v ∉ values →
            SeqPreprocessor._build_index values !! v
            = if decide (v = "<UNK>") then Some 1
              else if decide (v = "<PAD>") then Some 0 else None) as Hout.
  { intros v. by apply build_index_lookup. }
  repeat split.
  - intros H ?. destruct (Hin "<PAD>") as (p & _ & _ & Hp); [done|].
    rewrite Hp in H. injection H. lia.
  - intros H. by rewrite Hout.
  - intros H ?. destruct (Hin "<UNK>") as (p & _ & _ & Hp); [done|].
    rewrite Hp in H. injection H. lia.
  - intros H. by rewrite Hout.
  - intros v Hv. destruct (Hin v Hv) as (p & _ & Hlt & Hp).
    exists (2 + Z.of_nat p). split; [done|lia].
  - intros [i Hi]. destruct (decide (v ∈ values)) as [|Hv]; [by auto|].
    rewrite Hout in Hi by done. repeat case_decide; auto. done.
  - intros [->|[->|Hv]].
    + destruct (decide ("<PAD>" ∈ values)) as [Hv|Hv].
      * destruct (Hin _ Hv) as (p & _ & _ & ->). eauto.
      * rewrite Hout by done. simpl. eauto.
    + destruct (decide ("<UNK>" ∈ values)) as [Hv|Hv].
      * destruct (Hin _ Hv) as (p & _ & _ & ->). eauto.
      * rewrite Hout by done. simpl. eauto.
    + destruct (Hin _ Hv) as (p & _ & _ & ->). eauto.
  - intros v w i Hv Hw.
    destruct (decide (v ∈ values)) as [Hvin|Hvout],
             (decide (w ∈ values)) as [Hwin|Hwout].
    + destruct (Hin v Hvin) as (p & Hp & _ & Hp').
      destruct (Hin w Hwin) as (q & Hq & _ & Hq').
      rewrite Hp' in Hv. rewrite Hq' in Hw.
      assert (p = q) as -> by (injection Hv; injection Hw; lia). congruence.
    + destruct (Hin v Hvin) as (p & _ & _ & Hp'). rewrite Hp' in Hv.
      rewrite Hout in Hw by done. injection Hv as <-.
      repeat case_decide; try done; injection Hw; lia.
    + destruct (Hin w Hwin) as (p & _ & _ & Hp'). rewrite Hp' in Hw.
      rewrite Hout in Hv by done. injection Hw as <-.
      repeat case_decide; try done; injection Hv; lia.
    + rewrite Hout in Hv, Hw by done.
      repeat case_decide; subst; try done; congruence.
  - intros v w i j Hv Hw Hi Hj Hlt.
    destruct (Hin v Hv) as (p & Hp & _ & Hp').
    destruct (Hin w Hw) as (q & Hq & _ & Hq').
    rewrite Hp' in Hi. rewrite Hq' in Hj. injection Hi as <-. injection Hj as <-.
    destruct (decide (p < q)%nat) as [|Hge]; [lia|]. exfalso.
    destruct (decide (p = q)) as [->|Hne].
    + assert (v = w) as -> by congruence. by rewrite str_ltb_irrefl in Hlt.
    + pose proof (StronglySorted_lookup_lt _ _ q p w v
                    (sorted_str_sorted _) Hq Hp ltac:(lia)) as Hs.
      simpl in Hs. congruence.
Qed.

(** X16: encoding a value with a fitted vocabulary never fails and never
    gives the padding code for a value of the column: a missing value ([None]
    or a NaN) and a value the column never had are encoded as 1, a value of
    the column as its own code, which is 2 or more; the code 0 only comes out
    for a value that spells the padding token when the column has no such
    value. *)
Theorem idx_of_fitted_vocabulary (py_str : value → string)
    (cat_maps : gmap string (gmap string Z)) (key : string)
    (values : list string) (val : value) :
  cat_maps !! key = Some (SeqPreprocessor._build_index values) →
  ∃ i, SeqPreprocessor._idx py_str cat_maps key val = Done i ∧
    (val = VNone ∨ val = VNaN → i = 1) ∧
    (val ≠ VNone → val ≠ VNaN → py_str val ∈ values →
       2 ≤ i ∧ SeqPreprocessor._build_index values !! py_str val = Some i) ∧
    (val ≠ VNone → val ≠ VNaN → py_str val ∉ values →
       py_str val ≠ "<PAD>" → i = 1) ∧
    (i = 0 → val ≠ VNone ∧ val ≠ VNaN
             ∧ py_str val = "<PAD>" ∧ "<PAD>" ∉ values).
Proof.
  intros Hkey. unfold SeqPreprocessor._idx. rewrite Hkey. simpl.
  assert (val = VNone ∨ val = VNaN ∨ (val ≠ VNone ∧ val ≠ VNaN))
    as [->|[->|[Hval Hnan]]]
    by (destruct val; auto; right; right; by split).
  { exists 1. repeat split; done. }
  { exists 1. repeat split; done. }
  exists (default 1 (SeqPreprocessor._build_index values !! py_str val)).
  split; [by destruct val|].
  destruct (build_index_lookup values (py_str val))
    as (_ & Hel & _ & Hp & Hout).
  destruct (decide (py_str val ∈ values)) as [Hin|Hnin].
  - pose proof Hin as [p Hl]%Hel%list_elem_of_lookup_1.
    rewrite (Hp p Hl). simpl. repeat split; try done; try lia.
    all: by intros [?|?].
  - rewrite Hout by done. repeat case_decide; simpl; repeat split; try done.
    all: try (intros; congruence).
    all: by intros [?|?].
Qed.

(** Without a vocabulary for the key, encoding raises [KeyError] whatever the
    value. *)
Lemma idx_without_vocabulary (py_str : value → string)
    (cat_maps : gmap string (gmap string Z)) (key : string) (val : value) :
  cat_maps !! key = None →
  SeqPreprocessor._idx py_str cat_maps key val = Raise KeyError.
Proof. intros H. unfold SeqPreprocessor._idx. by rewrite H. Qed.

(** * Derived tyre age *)

Lemma Qeq_bool_trans (x y z : Q) :
  Qeq_bool x y = true → Qeq_bool y z = Qeq_bool x z.
Proof.
  intros Hxy%Qeq_bool_iff.
  destruct (Qeq_bool y z) eqn:Hyz, (Qeq_bool x z) eqn:Hxz; try done.
  - apply Qeq_bool_iff in Hyz. apply Qeq_bool_neq in Hxz.
    destruct Hxz. by rewrite Hxy.
  - apply Qeq_bool_iff in Hxz. apply Qeq_bool_neq in Hyz.
    destruct Hyz. by rewrite <-Hxy.
Qed.

Lemma py_eq_NaN_r (a : value) : py_eq a VNaN = false.
Proof. by destruct a. Qed.

(** Values that Python finds equal compare alike with every third value. *)
Lemma py_eq_trans (a b c : value) :
  py_eq a b = true → py_eq b c = py_eq a c.
Proof.
  destruct a as [|x|x|x| |x|x], b as [|y|y|y| |y|y]; simpl; try done;
    destruct c as [|z|z|z| |z|z]; simpl; try done;
    try (by apply Qeq_bool_trans).
  - intros ->%Bool.eqb_prop. done.
  - intros ->%String.eqb_eq. done.
Qed.

Lemma age_step_length acc r :
  length (fst (age_step acc r)) = S (length (fst acc)).
Proof.
  destruct acc as [ages lc], r as [key cmpd]. simpl.
  destruct (lc !! key) as [c|]; [destruct (py_eq c cmpd)|]; simpl;
    rewrite length_app; simpl; lia.
Qed.

Lemma age_loop_length acc rows :
  length (fst (foldl age_step acc rows))
  = (length (fst acc) + length rows)%nat.
Proof.
  revert acc. induction rows as [|r rows IH]; intros acc; simpl; [lia|].
  rewrite IH, age_step_length. lia.
Qed.

Lemma age_step_prefix acc r : fst acc `prefix_of` fst (age_step acc r).
Proof.
  destruct acc as [ages lc], r as [key cmpd]. simpl.
  destruct (lc !! key) as [c|]; [destruct (py_eq c cmpd)|]; simpl;
    by apply prefix_app_r.
Qed.

Lemma age_loop_prefix acc rows :
  fst acc `prefix_of` fst (foldl age_step acc rows).
Proof.
  revert acc. induction rows as [|r rows IH]; intros acc; simpl; [done|].
  etrans; [apply age_step_prefix|apply IH].
Qed.

(** What [last_cmpd] remembers for a key: nothing before the key's first
    row; after a row of the key, that row's cell or an earlier cell that
    Python finds equal to it. *)
Lemma age_loop_last_cmpd rows k :
  match last (filter (λ r, fst r = k) rows) with
  | None => snd (foldl age_step ([], ∅) rows) !! k = None
  | Some (_, c') =>
      ∃ c0, snd (foldl age_step ([], ∅) rows) !! k = Some c0
            ∧ (c0 = c' ∨ py_eq c0 c' = true)
  end.
Proof.
  induction rows as [|[key cmpd] rows IH] using rev_ind; [done|].
  rewrite foldl_app, filter_app. cbn [foldl].
  destruct (foldl age_step ([], ∅) rows) as [ages lc]. simpl in IH.
  destruct (decide (key = k)) as [<-|Hne].
  - rewrite filter_cons_True, filter_nil, last_snoc by done. simpl.
    destruct (lc !! key) as [c|] eqn:Hc; [destruct (py_eq c cmpd) eqn:He|];
      simpl.
    + exists c. split; [done|by right].
    + exists cmpd. rewrite lookup_insert_eq. split; [done|by left].
    + exists cmpd. rewrite lookup_insert_eq. split; [done|by left].
  - rewrite filter_cons_False, filter_nil, app_nil_r by done.
    assert (snd (age_step (ages, lc) (key, cmpd)) !! k = lc !! k) as ->; [|done].
    simpl. destruct (lc !! key) as [c|]; [destruct (py_eq c cmpd)|]; simpl;
      try done; by rewrite lookup_insert_ne.
Qed.

Lemma age_loop_stint ages lc k c (j : nat) :
  lc !! k = Some c → py_eq c c = true → ages ≠ [] →
  foldl age_step (ages, lc) (replicate j (k, c))
  = (ages ++ map (λ i, default 0 (last ages) + Z.of_nat i) (seq 1 j), lc).
Proof.
  intros Hlc Hcc. revert ages. induction j as [|j IH]; intros ages Hne.
  - simpl. by rewrite app_nil_r.
  - cbn [replicate foldl]. simpl. rewrite Hlc, Hcc.
    rewrite IH by (by destruct ages).
    rewrite last_snoc. cbn [default from_option]. rewrite <-(assoc_L (++)).
    cbn [app].
    change (id (default 0 (last ages) + 1)) with (default 0 (last ages) + 1).
    assert (map (λ i, default 0 (last ages) + 1 + Z.of_nat i) (seq 1 j)
            = map (λ i, default 0 (last ages) + Z.of_nat i) (seq 2 j)) as ->.
    { rewrite <-(seq_shift j 1), map_map. apply map_ext. intros i. lia. }
    done.
Qed.

(** X17: the loop gives every row an age.  Within a stint the derived tyre
    age counts 0, 1, 2, ...: for a block of consecutive rows with the same
    driver, circuit and compound cell (a cell that equals itself, so not an
    empty one), which starts either at the driver's first row on that circuit
    or right after a row of the same driver and circuit with a cell that
    Python finds different, the [j]-th row of the block gets age [j].  A row
    whose compound cell is empty (NaN) always gets age 0. *)
Theorem derived_tyre_age_counts_within_stint
    (pre post : list ((string * string) * value))
    (k : string * string) (c : value) (len j : nat) :
  py_eq c c = true →
  (∀ r, r ∈ pre → fst r ≠ k)
  ∨ (∃ pre' c', pre = pre' ++ [(k, c')] ∧ py_eq c' c = false) →
  (j < len)%nat →
  let rows := pre ++ replicate len (k, c) ++ post in
  length (derive_tyre_age rows) = length rows ∧
  derive_tyre_age rows !! (length pre + j)%nat = Some (Z.of_nat j) ∧
  ∀ i key, rows !! i = Some (key, VNaN) → derive_tyre_age rows !! i = Some 0.
Proof.
  intros Hcc Hstart Hj. cbv zeta. unfold derive_tyre_age. split.
  { by rewrite age_loop_length. }
  split.
  - rewrite !foldl_app.
    pose proof (age_loop_length ([], ∅) pre) as Hlen.
    pose proof (age_loop_last_cmpd pre k) as Hlast.
    destruct (foldl age_step ([], ∅) pre) as [ages lc]. simpl in Hlen, Hlast.
    assert (match lc !! k with Some c0 => py_eq c0 c = false | None => True end)
      as Hnew.
    { destruct Hstart as [Hfresh|(pre' & c' & -> & Hc)].
      - rewrite filter_none in Hlast by done. simpl in Hlast. by rewrite Hlast.
      - rewrite filter_app, filter_cons_True, filter_nil, last_snoc in Hlast
          by done.
        destruct Hlast as (c0 & -> & [->|Heq]); [done|].
        by rewrite <-(py_eq_trans c0 c' c). }
    destruct len as [|len]; [lia|]. cbn [replicate foldl].
    assert (age_step (ages, lc) (k, c) = (ages ++ [0], <[k := c]> lc)) as ->.
    { simpl. destruct (lc !! k) as [c0|]; [|done]. by rewrite Hnew. }
    rewrite age_loop_stint
      by (by rewrite ?lookup_insert_eq; try done; destruct ages).
    rewrite last_snoc. simpl.
    match goal with |- fst (foldl age_step ?acc post) !! _ = _ =>
      pose proof (age_loop_prefix acc post) as [rest Hpre]
    end.
    rewrite Hpre. simpl. rewrite <-!(assoc_L (++)).
    rewrite lookup_app_r by lia. rewrite Hlen.
    replace (length pre + j - length pre)%nat with j by lia.
    destruct j as [|j]; [done|]. simpl.
    rewrite lookup_app_l by (rewrite length_map, length_seq; lia).
    rewrite list_lookup_fmap, lookup_seq_lt by lia. simpl. f_equal; lia.
  - generalize (pre ++ replicate len (k, c) ++ post). intros rows i key Hi.
    rewrite <-(take_drop_middle rows i (key, VNaN) Hi), foldl_app.
    pose proof (age_loop_length ([], ∅) (take i rows)) as Hlen.
    destruct (foldl age_step ([], ∅) (take i rows)) as [ages lc].
    simpl in Hlen. rewrite length_take_le in Hlen
      by (apply lookup_lt_Some in Hi; lia).
    cbn [foldl].
    assert (age_step (ages, lc) (key, VNaN)
            = (ages ++ [0], <[key := VNaN]> lc)) as ->.
    { simpl. destruct (lc !! key) as [c0|]; [|done]. by rewrite py_eq_NaN_r. }
    match goal with |- fst (foldl age_step ?acc ?l) !! _ = _ =>
      pose proof (age_loop_prefix acc l) as [rest Hpre]
    end.
    rewrite Hpre. simpl. rewrite <-(assoc_L (++)).
    rewrite lookup_app_r by lia. by rewrite Hlen, Nat.sub_diag.
Qed.

(** * Further scenarios *)

(** The classification total of A in [race3] is the sum of A's three
    recorded laps. *)
Lemma classification_total_is_timeline_sum_witness :
  cr_total_time
    {| cr_pos := Some 1; cr_driver := "A"; cr_team := "Red";
       cr_total_time := 292; cr_status := Finished |}
  = recorded_time "A"
      (timeline (result_of 5 [] idx_stub num_stub (const_predict 5 90) ∅ race3)).
Proof.
  apply (classification_total_is_timeline_sum
           5 [] idx_stub num_stub (const_predict 5 90) ∅ race3
           (result_of 5 [] idx_stub num_stub (const_predict 5 90) ∅ race3)
           {| cr_pos := Some 1; cr_driver := "A"; cr_team := "Red";
              cr_total_time := 292; cr_status := Finished |}).
  - reflexivity.
  - apply list_elem_of_In. left. reflexivity.
Defined.

(** A has no retirement entry in [race3], and finishes. *)
Lemma finished_iff_no_retirement_in_race_witness :
  (∃ row,
     row ∈ classification
             (result_of 5 [] idx_stub num_stub (const_predict 5 90) ∅ race3)
     ∧ cr_driver row = "A" ∧ cr_status row = Finished)
  ↔ (∀ r, ("A", r) ∈ dnfs race3 → ¬ (1 ≤ r ≤ total_laps race3)).
Proof.
  apply (finished_iff_no_retirement_in_race
           5 [] idx_stub num_stub (const_predict 5 90) ∅ race3
           (result_of 5 [] idx_stub num_stub (const_predict 5 90) ∅ race3) "A").
  - reflexivity.
  - apply (bool_decide_unpack _). vm_compute. exact I.
Defined.

Lemma idx_with_vocabulary (py_str : value → string)
    (cat_maps : gmap string (gmap string Z)) (key : string) (val : value) :
  is_Some (cat_maps !! key) →
  ∃ z, SeqPreprocessor._idx py_str cat_maps key val = Done z.
Proof.
  intros [m Hm]. unfold SeqPreprocessor._idx. rewrite Hm. simpl.
  destruct val; eauto.
Qed.

(** The fitted vocabularies have the four categorical keys. *)
Lemma fitted_cats_encode (key : string) (val : value) :
  key ∈ ["driver"; "team"; "circuit"; "compound"] →
  ∃ z, SeqPreprocessor._idx str_stub fitted_cats key val = Done z.
Proof.
  intros Hkey. apply idx_with_vocabulary.
  repeat (apply elem_of_cons in Hkey as [->|Hkey]; [by eexists|]).
  by apply elem_of_nil in Hkey.
Qed.

Lemma num_never_KeyError (py_float : string → outcome Q)
    (means stds : gmap string Q) (k : string) (val : value) :
  (∀ s, py_float s ≠ Raise KeyError) →
  SeqPreprocessor._num py_float means stds k val ≠ Raise KeyError.
Proof.
  intros Hf. unfold SeqPreprocessor._num. cbv zeta.
  intros [H|(x & _ & H)]%bind_Raise.
  - destruct val; try done. by apply (Hf s).
  - by destruct (Qeq_bool _ 0).
Qed.

(** The encoders of a fitted preprocessor return on every step of a race:
    [fit] gives each categorical key a vocabulary and no numeric column a
    standard deviation of 0; what is left to ask is that [float] accepts the
    text, if any, that the configured weather holds for a numeric column. *)
Lemma fitted_encoders_encode (py_str : value → string)
    (py_float : string → outcome Q) (cat_maps : gmap string (gmap string Z))
    (means stds : gmap string Q) (num_cols : list string) cfg :
  (∀ key, key ∈ ["driver"; "team"; "circuit"; "compound"] →
          is_Some (cat_maps !! key)) →
  (∀ k, k ∈ num_cols → Qeq_bool (default 1%Q (stds !! k)) 0 = false) →
  (∀ step k s, race_step cfg step → k ∈ num_cols →
               get_val step k = VStr s → ∃ q, py_float s = Done q) →
  encodes_race num_cols (SeqPreprocessor._idx py_str cat_maps)
    (SeqPreprocessor._num py_float means stds) cfg.
Proof.
  intros Hcat Hstd Htxt step Hstep. split.
  - intros key Hkey. by apply idx_with_vocabulary, Hcat.
  - intros k Hk. unfold SeqPreprocessor._num. cbv zeta. rewrite (Hstd k Hk).
    destruct (get_val step k) eqn:Hv; simpl; eauto.
    destruct (Htxt step k s Hstep Hk Hv) as [q ->]. simpl. eauto.
Qed.

(** [race3] with the encoders of a fitted preprocessor: they return on every
    step, and with a network that ignores its input the result is that of
    the run with the stubs. *)
Example race3_with_fitted_encoders :
  encodes_race ["lap_number"; "tyre_age"; "air_temp"]
    (SeqPreprocessor._idx str_stub fitted_cats)
    (SeqPreprocessor._num float_stub fitted_means fitted_stds) race3 ∧
  simulate 5 ["lap_number"; "tyre_age"; "air_temp"]
    (SeqPreprocessor._idx str_stub fitted_cats)
    (SeqPreprocessor._num float_stub fitted_means fitted_stds)
    (const_predict 5 90) ∅ race3
  = simulate 5 [] idx_stub num_stub (const_predict 5 90) ∅ race3 ∧
  build_single_inputs 2 ["lap_number"; "tyre_age"; "air_temp"]
    (SeqPreprocessor._idx str_stub fitted_cats)
    (SeqPreprocessor._num float_stub fitted_means fitted_stds)
    [build_step race3 3 false "A" (init_driver driver_A)]
  = Done {| driver_seq := [2; 0]; team_seq := [3; 0];
            circuit_seq := [2; 0]; compound_seq := [4; 0];
            num_seq := [[1; -2; 0]; [0; 0; 0]]%Q |}.
Proof.
  split; [|split; vm_compute; reflexivity].
  apply fitted_encoders_encode.
  - intros key Hkey.
    repeat (apply elem_of_cons in Hkey as [->|Hkey]; [by eexists|]).
    by apply elem_of_nil in Hkey.
  - intros k Hk.
    repeat (apply elem_of_cons in Hk as [->|Hk]; [by vm_compute|]).
    by apply elem_of_nil in Hk.
  - intros step k s (lap_no & sc & n & st & ->) Hk.
    repeat (apply elem_of_cons in Hk as [->|Hk]; [by vm_compute|]).
    by apply elem_of_nil in Hk.
Qed.

(** A retirement entry for a driver nobody entered raises no [KeyError]
    with the encoders of a fitted preprocessor. *)
Lemma simulate_KeyError_only_from_encoder_witness :
  simulate 5 ["lap_number"; "tyre_age"] (SeqPreprocessor._idx str_stub fitted_cats)
    (SeqPreprocessor._num float_stub ∅ ∅) (const_predict 5 90) ∅ race3_ghost
  ≠ Raise KeyError.
Proof.
  apply (simulate_KeyError_only_from_encoder
           5 ["lap_number"; "tyre_age"] (SeqPreprocessor._idx str_stub fitted_cats)
    (SeqPreprocessor._num float_stub ∅ ∅) (const_predict 5 90) ∅ race3_ghost).
  - intros step key _ Hkey.
    destruct (fitted_cats_encode key (get_val step key) Hkey) as [z Hz].
    rewrite Hz. discriminate.
  - intros step k _ _. apply num_never_KeyError. discriminate.
Defined.

(** With a preprocessor that has no vocabulary the first encoding of the
    driver raises [KeyError]. *)
Example key_error_without_vocabulary :
  simulate 5 [] (SeqPreprocessor._idx str_stub ∅) num_stub
    (const_predict 5 90) ∅ race3
  = Raise KeyError.
Proof. reflexivity. Qed.

(** A weather value that is text is no number: [float] raises on lap 1. *)
Example value_error_on_text_weather :
  simulate 5 ["air_temp"] (SeqPreprocessor._idx str_stub fitted_cats)
    (SeqPreprocessor._num float_stub ∅ ∅) (const_predict 5 90) ∅ race_hot
  = Raise ValueError.
Proof. vm_compute. reflexivity. Qed.

(** A pits on lap 2 of [race3]: after lap 3 the tyres are one lap old. *)
Lemma tyre_age_counts_laps_since_pit_witness :
  st_tyre_age
    {| st_team := "Red"; st_compound := "HARD"; st_tyre_age := 1;
       st_total_time := 292; st_grid := 1; st_running := true |}
  = 3 - 2.
Proof.
  apply (tyre_age_counts_laps_since_pit
           5 [] idx_stub num_stub (const_predict 5 90) ∅ race3 3
           (state_after 5 [] idx_stub num_stub (const_predict 5 90) ∅ race3 3)
           "A").
  - apply (bool_decide_unpack _). vm_compute. exact I.
  - lia.
  - reflexivity.
  - reflexivity.
  - reflexivity.
  - lia.
  - right. reflexivity.
  - intros l Hl. assert (l = 3) as -> by lia. reflexivity.
Defined.

(** [race3] with a network of two positions: three laps, A never retires. *)
Lemma simulate_fails_exactly_past_max_len_witness :
  ((total_laps race3 ≤ Z.of_nat 2
    ∨ ∀ n, n ∈ map name (drivers race3) →
           ∃ r, (n, r) ∈ dnfs race3 ∧ 1 ≤ r ≤ Z.of_nat 2 + 1) →
   ∃ res, simulate 2 [] idx_stub num_stub (const_predict 2 90) ∅ race3
          = Done res) ∧
  (∀ n, Z.of_nat 2 < total_laps race3 →
        n ∈ map name (drivers race3) →
        (∀ r, (n, r) ∈ dnfs race3 → ¬ (1 ≤ r ≤ Z.of_nat 2 + 1)) →
        simulate 2 [] idx_stub num_stub (const_predict 2 90) ∅ race3
        = Raise IndexError).
Proof.
  apply (simulate_fails_exactly_past_max_len
           2 [] idx_stub num_stub (const_predict 2 90) ∅ race3).
  - intros X. reflexivity.
  - apply stubs_encode.
  - apply (bool_decide_unpack _). vm_compute. exact I.
Defined.

(** The three timeline entries of [race3]. *)
Lemma timeline_entry_lists_running_by_time_witness :
  length (timeline (result_of 5 [] idx_stub num_stub (const_predict 5 90) ∅ race3))
  = Z.to_nat (total_laps race3) ∧
  ∀ i e,
    timeline (result_of 5 [] idx_stub num_stub (const_predict 5 90) ∅ race3) !! i
    = Some e →
    tl_lap e = Z.of_nat i + 1 ∧
    (∀ n, n ∈ tl_order e
          ↔ n ∈ map name (drivers race3)
            ∧ ∀ r, (n, r) ∈ dnfs race3 → ¬ (1 ≤ r ≤ tl_lap e)) ∧
    (∀ n, is_Some (tl_lap_times e !! n) ↔ n ∈ tl_order e) ∧
    StronglySorted
      (λ a b,
         recorded_time a
           (take (S i)
              (timeline (result_of 5 [] idx_stub num_stub (const_predict 5 90) ∅ race3)))
         <= recorded_time b
              (take (S i)
                 (timeline (result_of 5 [] idx_stub num_stub (const_predict 5 90) ∅ race3))))%Q
      (tl_order e).
Proof.
  apply (timeline_entry_lists_running_by_time
           5 [] idx_stub num_stub (const_predict 5 90) ∅ race3
           (result_of 5 [] idx_stub num_stub (const_predict 5 90) ∅ race3)).
  reflexivity.
Defined.

(** [race3] lap by lap as the timeline shows it: B is listed on lap 1 only,
    and A leads from the start. *)
Example timeline_of_race3 :
  map tl_order
    (timeline (result_of 5 [] idx_stub num_stub (const_predict 5 90) ∅ race3))
  = [["A"; "B"]; ["A"]; ["A"]].
Proof. vm_compute. reflexivity. Qed.

(** The inputs built from a history of three steps, with a window of two. *)
Example build_single_inputs_at_work :
  build_single_inputs 2 [] idx_stub num_stub
    [ {[ "driver" := VStr "A" ]}; {[ "driver" := VStr "B" ]};
      {[ "driver" := VStr "C" ]} ]
  = Done {| driver_seq := [1; 1]; team_seq := [1; 1];
            circuit_seq := [1; 1]; compound_seq := [1; 1];
            num_seq := [[]; []] |}.
Proof. reflexivity. Qed.

(** A history of three steps and its last two, with a window of two. *)
Lemma build_single_inputs_last_steps_only_witness :
  build_single_inputs 2 [] idx_stub num_stub
    [ {[ "driver" := VStr "A" ]}; {[ "driver" := VStr "B" ]};
      {[ "driver" := VStr "C" ]} ]
  = build_single_inputs 2 [] idx_stub num_stub
      [ {[ "driver" := VStr "B" ]}; {[ "driver" := VStr "C" ]} ]
  ∧ predict_sequence 2 [] idx_stub num_stub (const_predict 2 90)
      [ {[ "driver" := VStr "A" ]}; {[ "driver" := VStr "B" ]};
        {[ "driver" := VStr "C" ]} ]
    = predict_sequence 2 [] idx_stub num_stub (const_predict 2 90)
        [ {[ "driver" := VStr "B" ]}; {[ "driver" := VStr "C" ]} ].
Proof.
  apply (build_single_inputs_last_steps_only 2 [] idx_stub num_stub
           (const_predict 2 90)).
  - lia.
  - reflexivity.
Defined.

(** The first step of a race in a window of two: position 0 holds the step,
    position 1 the padding. *)
Lemma build_single_inputs_newest_step_witness :
  (∃ d t c p r,
     idx_stub "driver" (get_val {[ "driver" := VStr "A" ]} "driver") = Done d ∧
     idx_stub "team" (get_val {[ "driver" := VStr "A" ]} "team") = Done t ∧
     idx_stub "circuit" (get_val {[ "driver" := VStr "A" ]} "circuit")
       = Done c ∧
     idx_stub "compound" (get_val {[ "driver" := VStr "A" ]} "compound")
       = Done p ∧
     traverse (λ k, num_stub k (get_val {[ "driver" := VStr "A" ]} k)) []
       = Done r ∧
     driver_seq {| driver_seq := [1; 0]; team_seq := [1; 0];
                   circuit_seq := [1; 0]; compound_seq := [1; 0];
                   num_seq := [[]; []] |} !! 0%nat = Some d ∧
     team_seq {| driver_seq := [1; 0]; team_seq := [1; 0];
                 circuit_seq := [1; 0]; compound_seq := [1; 0];
                 num_seq := [[]; []] |} !! 0%nat = Some t ∧
     circuit_seq {| driver_seq := [1; 0]; team_seq := [1; 0];
                    circuit_seq := [1; 0]; compound_seq := [1; 0];
                    num_seq := [[]; []] |} !! 0%nat = Some c ∧
     compound_seq {| driver_seq := [1; 0]; team_seq := [1; 0];
                     circuit_seq := [1; 0]; compound_seq := [1; 0];
                     num_seq := [[]; []] |} !! 0%nat = Some p ∧
     num_seq {| driver_seq := [1; 0]; team_seq := [1; 0];
                circuit_seq := [1; 0]; compound_seq := [1; 0];
                num_seq := [[]; []] |} !! 0%nat = Some r) ∧
  ((1 ≤ 1 < 2)%nat →
   driver_seq {| driver_seq := [1; 0]; team_seq := [1; 0];
                 circuit_seq := [1; 0]; compound_seq := [1; 0];
                 num_seq := [[]; []] |} !! 1%nat = Some 0 ∧
   team_seq {| driver_seq := [1; 0]; team_seq := [1; 0];
               circuit_seq := [1; 0]; compound_seq := [1; 0];
               num_seq := [[]; []] |} !! 1%nat = Some 0 ∧
   circuit_seq {| driver_seq := [1; 0]; team_seq := [1; 0];
                  circuit_seq := [1; 0]; compound_seq := [1; 0];
                  num_seq := [[]; []] |} !! 1%nat = Some 0 ∧
   compound_seq {| driver_seq := [1; 0]; team_seq := [1; 0];
                   circuit_seq := [1; 0]; compound_seq := [1; 0];
                   num_seq := [[]; []] |} !! 1%nat = Some 0).
Proof.
  apply (build_single_inputs_newest_step 2 [] idx_stub num_stub []
           {[ "driver" := VStr "A" ]} 1).
  - lia.
  - reflexivity.
Defined.

(** The entry for Monza in the table estimated from [demo_laps]. *)
Lemma estimated_loss_is_median_of_differences_witness :
  true = true ∧
  base_times (group_rows "Monza" demo_laps) ≠ [] ∧
  pit_times (group_rows "Monza" demo_laps) ≠ [] ∧
  ∃ med_base,
    median (base_times (group_rows "Monza" demo_laps)) = Some med_base ∧
    is_median (base_times (group_rows "Monza" demo_laps)) med_base ∧
    median (map (λ t, t - med_base)%Q
              (pit_times (group_rows "Monza" demo_laps))) = Some 20%Q ∧
    is_median (map (λ t, t - med_base)%Q
                 (pit_times (group_rows "Monza" demo_laps))) 20%Q ∧
    (5 < 20)%Q ∧ (20 < 60)%Q.
Proof.
  apply (estimated_loss_is_median_of_differences true demo_laps "Monza" 20%Q).
  vm_compute. reflexivity.
Defined.

(** [race3] with the table estimated from [demo_laps]: Monza's 20 s. *)
Lemma pit_loss_used_is_default_or_estimate_witness :
  pit_loss_used
    (result_of 5 [] idx_stub num_stub (const_predict 5 90)
       (_estimate_pit_loss true demo_laps) race3)
  = pit_loss (_estimate_pit_loss true demo_laps) race3 ∧
  (pit_loss_used
     (result_of 5 [] idx_stub num_stub (const_predict 5 90)
        (_estimate_pit_loss true demo_laps) race3)
   = default_pit_loss race3
   ∨ (5 < pit_loss_used
            (result_of 5 [] idx_stub num_stub (const_predict 5 90)
               (_estimate_pit_loss true demo_laps) race3))%Q
     ∧ (pit_loss_used
          (result_of 5 [] idx_stub num_stub (const_predict 5 90)
             (_estimate_pit_loss true demo_laps) race3) < 60)%Q).
Proof.
  apply (pit_loss_used_is_default_or_estimate 5 [] idx_stub num_stub
           (const_predict 5 90) (_estimate_pit_loss true demo_laps)
           true demo_laps race3).
  - reflexivity.
  - reflexivity.
Defined.

(** A in [race3], with and without B. *)
Lemma drivers_do_not_interact_witness :
  ∃ res1,
    simulate 5 [] idx_stub num_stub (const_predict 5 90) ∅
      (with_drivers [driver_A] race3) = Done res1 ∧
    map (λ e, tl_lap_times e !! name driver_A) (timeline res1)
    = map (λ e, tl_lap_times e !! name driver_A)
          (timeline (result_of 5 [] idx_stub num_stub (const_predict 5 90) ∅ race3)) ∧
    ∀ row,
      row ∈ classification
              (result_of 5 [] idx_stub num_stub (const_predict 5 90) ∅ race3) →
      cr_driver row = name driver_A →
      ∃ row1, classification res1 = [row1] ∧ cr_driver row1 = name driver_A ∧
        cr_team row1 = cr_team row ∧
        cr_total_time row1 = cr_total_time row ∧
        cr_status row1 = cr_status row.
Proof.
  apply (drivers_do_not_interact
           5 [] idx_stub num_stub (const_predict 5 90) ∅ race3 driver_A
           (result_of 5 [] idx_stub num_stub (const_predict 5 90) ∅ race3)).
  - apply (bool_decide_unpack _). vm_compute. exact I.
  - left.
  - reflexivity.
Defined.

(** Column lookup at work, with what [str.lower] gives on the labels: no
    candidate is a column as written, and of the two columns that are
    "laptime" in lower case the later one is returned; a candidate that is a
    column as written is returned before any lower-case match. *)
Example find_col_at_work (lower : string → string) :
  lower "driver" = "driver" → lower "LapTime" = "laptime" →
  lower "LAPTIME" = "laptime" → lower "lap_time_s" = "lap_time_s" →
  lower "laptime" = "laptime" →
  find_col lower ["driver"; "LapTime"; "LAPTIME"] ["lap_time_s"; "laptime"]
  = Some "LAPTIME" ∧
  find_col lower ["driver"; "LapTime"; "LAPTIME"] ["laptime"; "LapTime"]
  = Some "LapTime".
Proof.
  intros Hd H1 H2 Hs Hl. split.
  - unfold find_col. cbv zeta.
    assert (first_exact (list_to_set ["driver"; "LapTime"; "LAPTIME"])
              ["lap_time_s"; "laptime"] = None) as ->
      by (vm_compute; reflexivity).
    unfold low_index. cbn [foldl first_low]. rewrite Hd, H1, H2, Hs, Hl.
    vm_compute. reflexivity.
  - unfold find_col. cbv zeta. vm_compute. reflexivity.
Qed.

(** A vocabulary: the codes follow the sorted values, and a column that
    contains the text of the unknown token takes its entry over. *)
Example build_index_at_work :
  map (λ v, SeqPreprocessor._build_index ["VER"; "HAM"; "VER"] !! v)
      ["<PAD>"; "<UNK>"; "HAM"; "VER"; "ALO"]
  = [Some 0; Some 1; Some 2; Some 3; None] ∧
  map (λ v, SeqPreprocessor._build_index ["VER"; "<UNK>"] !! v)
      ["<PAD>"; "<UNK>"; "VER"]
  = [Some 0; Some 2; Some 3].
Proof. split; vm_compute; reflexivity. Qed.

(** Encoding "HAM" with the vocabulary of a column that has it. *)
Lemma idx_of_fitted_vocabulary_witness :
  ∃ i, SeqPreprocessor._idx str_stub
         {[ "driver" := SeqPreprocessor._build_index ["VER"; "HAM"] ]}
         "driver" (VStr "HAM") = Done i ∧
    (VStr "HAM" = VNone ∨ VStr "HAM" = VNaN → i = 1) ∧
    (VStr "HAM" ≠ VNone → VStr "HAM" ≠ VNaN →
     str_stub (VStr "HAM") ∈ ["VER"; "HAM"] →
       2 ≤ i ∧ SeqPreprocessor._build_index ["VER"; "HAM"]
                 !! str_stub (VStr "HAM") = Some i) ∧
    (VStr "HAM" ≠ VNone → VStr "HAM" ≠ VNaN →
     str_stub (VStr "HAM") ∉ ["VER"; "HAM"] →
     str_stub (VStr "HAM") ≠ "<PAD>" → i = 1) ∧
    (i = 0 → VStr "HAM" ≠ VNone ∧ VStr "HAM" ≠ VNaN
             ∧ str_stub (VStr "HAM") = "<PAD>" ∧ "<PAD>" ∉ ["VER"; "HAM"]).
Proof.
  apply (idx_of_fitted_vocabulary str_stub
           {[ "driver" := SeqPreprocessor._build_index ["VER"; "HAM"] ]}
           "driver" ["VER"; "HAM"] (VStr "HAM")).
  reflexivity.
Defined.

(** An empty cell is encoded as unknown, also when the column holds the
    text that [astype(str)] makes of empty cells. *)
Example idx_of_empty_cell :
  SeqPreprocessor._idx str_stub
    {[ "compound" := SeqPreprocessor._build_index ["SOFT"; "nan"] ]}
    "compound" VNaN = Done 1 ∧
  SeqPreprocessor._idx str_stub
    {[ "compound" := SeqPreprocessor._build_index ["SOFT"; "nan"] ]}
    "compound" (VStr "nan") = Done 3.
Proof. split; vm_compute; reflexivity. Qed.

(** A stint of two laps on hard tyres after a lap on soft tyres. *)
Lemma derived_tyre_age_counts_within_stint_witness :
  length (derive_tyre_age
            ([(("HAM", "Monza"), VStr "SOFT")]
             ++ replicate 2 (("HAM", "Monza"), VStr "HARD") ++ []))
  = length ([(("HAM", "Monza"), VStr "SOFT")]
            ++ replicate 2 (("HAM", "Monza"), VStr "HARD") ++ []) ∧
  derive_tyre_age
    ([(("HAM", "Monza"), VStr "SOFT")]
     ++ replicate 2 (("HAM", "Monza"), VStr "HARD") ++ [])
    !! (length [(("HAM", "Monza"), VStr "SOFT")] + 1)%nat
  = Some (Z.of_nat 1) ∧
  ∀ i key,
    ([(("HAM", "Monza"), VStr "SOFT")]
     ++ replicate 2 (("HAM", "Monza"), VStr "HARD") ++ []) !! i
    = Some (key, VNaN) →
    derive_tyre_age
      ([(("HAM", "Monza"), VStr "SOFT")]
       ++ replicate 2 (("HAM", "Monza"), VStr "HARD") ++ []) !! i
    = Some 0.
Proof.
  apply (derived_tyre_age_counts_within_stint
           [(("HAM", "Monza"), VStr "SOFT")] [] ("HAM", "Monza")
           (VStr "HARD") 2 1).
  - reflexivity.
  - right. exists [], (VStr "SOFT"). split; reflexivity.
  - lia.
Defined.

(** The derived ages row by row: two drivers with stints; a driver whose
    compound cells are empty, each of which restarts the count; and a table
    without compound column. *)
Example derive_tyre_age_at_work :
  derive_tyre_age
    [ (("HAM", "Monza"), VStr "SOFT"); (("HAM", "Monza"), VStr "SOFT");
      (("HAM", "Monza"), VStr "HARD"); (("HAM", "Monza"), VStr "HARD");
      (("VER", "Monza"), VStr "HARD"); (("VER", "Monza"), VStr "HARD") ]
  = [0; 1; 0; 1; 0; 1] ∧
  derive_tyre_age
    [ (("HAM", "Monza"), VNaN); (("HAM", "Monza"), VNaN);
      (("HAM", "Monza"), VNaN) ]
  = [0; 0; 0] ∧
  derive_tyre_age
    [ (("HAM", "Monza"), VNone); (("HAM", "Monza"), VNone);
      (("HAM", "Monza"), VNone) ]
  = [0; 1; 2].
Proof. repeat split; vm_compute; reflexivity. Qed.
